(** * PmLogDaemon: the configuration loader (config.c) and its utilities (util.c)

    A shallow embedding of the functions of [src/util.c] and of the
    configuration reader ([config.c]), followed by the properties of the
    specification that concern them and by further properties of the code.
    [LockProcess] and [UnlockProcess] of util.c consist of system calls and
    are not embedded.

    Conventions.
    - A C string is the list of its characters ([cstring]); the terminating
      NUL is not part of the list.  A [char] array is a list of bytes
      ([buffer]) and is read as a C string with [c_str].
    - [int] is a 32 bit two's complement integer carried in [Z]; every
      conversion to [int] goes through [wrap32].  [long] is 64 bits.
    - [size_t] quantities are [nat].
    - [DbgPrint] and [ErrPrint] only write diagnostics and are left out, and so
      is the storage management ([g_strdup], [g_free]): a pointer variable
      that is tested by the code is kept as the fact that it is NULL or not.
      The one exception is the [GError] of [ReadConfFile]: the function can
      hand it to [g_error_free] a second time, and a run that does so has
      the outcome [FreedTwice] and no configuration.
    - The declarations of main.h and the functions of the files that are not
      at hand (the parsers of facility and level names) are either
      parameters, gathered in the record [main_h], or definitions whose
      comment says that they follow the specification.  Of [RBNew]
      (ringbuffer.c) only the call is kept. *)

From Stdlib Require Import ZArith List Ascii String Bool Lia PeanoNat.
From Stdlib Require Import DecimalString DecimalZ DecimalPos DecimalN DecimalFacts.
Import ListNotations.

Open Scope string_scope.
Open Scope list_scope.
Open Scope Z_scope.

(** ** C strings, buffers and the libc functions the sources call *)

Module LibC.

Definition cstring := list ascii.
Definition buffer := list ascii.

Definition cs (s : string) : cstring := list_ascii_of_string s.

Definition NUL : ascii := Ascii.zero.

(** [strlen]: the number of bytes before the first NUL. *)
Fixpoint strlen (s : buffer) : nat :=
  match s with
  | [] => 0%nat
  | c :: s' => if Ascii.eqb c NUL then 0%nat else S (strlen s')
  end.

(** The C string held by a buffer. *)
Definition c_str (b : buffer) : cstring := firstn (strlen b) b.

(** [dst[i] = c] *)
Definition store (dst : buffer) (i : nat) (c : ascii) : buffer :=
  if (i <? List.length dst)%nat then firstn i dst ++ c :: skipn (S i) dst else dst.

(** [memcpy(dst, src, n)] *)
Definition memcpy (dst src : buffer) (n : nat) : buffer :=
  firstn n src ++ skipn (List.length (firstn n src)) dst.

Definition cstring_eqb (a b : cstring) : bool :=
  if list_eq_dec ascii_dec a b then true else false.

(** [strcmp(a, b) == 0] *)
Definition strcmp_eq (a b : cstring) : bool := cstring_eqb a b.

Definition tolower (c : ascii) : ascii :=
  let n := nat_of_ascii c in
  if ((65 <=? n) && (n <=? 90))%nat then ascii_of_nat (n + 32) else c.

(** [strcasecmp(a, b) == 0] *)
Definition strcasecmp_eq (a b : cstring) : bool :=
  cstring_eqb (map tolower a) (map tolower b).

(** [strchr(set, c) != NULL] for a character [c] other than NUL *)
Definition strchr (set : cstring) (c : ascii) : bool :=
  existsb (Ascii.eqb c) set.

(** [g_str_has_prefix(s, prefix)] *)
Fixpoint g_str_has_prefix (s prefix : cstring) : bool :=
  match prefix, s with
  | [], _ => true
  | p :: prefix', c :: s' => Ascii.eqb c p && g_str_has_prefix s' prefix'
  | _ :: _, [] => false
  end.

Definition isspace (c : ascii) : bool :=
  let n := nat_of_ascii c in
  ((n =? 32) || ((9 <=? n) && (n <=? 13)))%nat.

(** The value of a character as a digit: 0-9, then a-z or A-Z for 10-35. *)
Definition digit_value (c : ascii) : option Z :=
  let n := Z.of_nat (nat_of_ascii c) in
  if (48 <=? n) && (n <=? 57) then Some (n - 48)
  else if (97 <=? n) && (n <=? 122) then Some (n - 87)
  else if (65 <=? n) && (n <=? 90) then Some (n - 55)
  else None.

Definition digit_in_base (base : Z) (c : ascii) : option Z :=
  match digit_value c with
  | Some d => if d <? base then Some d else None
  | None => None
  end.

(** The digits of the subject sequence: the value read so far, whether a
    digit was read, and the text that follows the last digit. *)
Fixpoint strtol_digits (base : Z) (s : cstring) (acc : Z) (any : bool)
  : Z * bool * cstring :=
  match s with
  | [] => (acc, any, [])
  | c :: s' =>
      match digit_in_base base c with
      | Some d => strtol_digits base s' (acc * base + d) true
      | None => (acc, any, s)
      end
  end.

Fixpoint skip_space (s : cstring) : cstring :=
  match s with
  | c :: s' => if isspace c then skip_space s' else s
  | [] => []
  end.

Definition LONG_MAX : Z := 2 ^ 63 - 1.
Definition LONG_MIN : Z := - 2 ^ 63.

Record strtol_result := {
  sr_value : Z;          (* the returned long *)
  sr_converted : bool;   (* false: no conversion, endptr == nptr *)
  sr_end : cstring;      (* the text endptr points to *)
  sr_erange : bool       (* errno == ERANGE *)
}.

(** [strtol(nptr, &endptr, base)] for [base] 0, 8, 10 or 16: white space, an
    optional sign, for base 0 and 16 an optional [0x] that is followed by a
    hexadecimal digit, for base 0 a leading [0] selecting octal, then the
    longest run of digits.  Out of range values are clamped with ERANGE. *)
Definition strtol (nptr : cstring) (base : Z) : strtol_result :=
  let s1 := skip_space nptr in
  let '(neg, s2) :=
    match s1 with
    | "-"%char :: r => (true, r)
    | "+"%char :: r => (false, r)
    | _ => (false, s1)
    end in
  let '(b, s3) :=
    match s2 with
    | "0"%char :: x :: h :: r =>
        if ((base =? 0) || (base =? 16))
           && (Ascii.eqb x "x" || Ascii.eqb x "X")
           && (match digit_in_base 16 h with Some _ => true | None => false end)
        then (16, h :: r)
        else ((if base =? 0 then 8 else base), s2)
    | "0"%char :: _ => ((if base =? 0 then 8 else base), s2)
    | _ => ((if base =? 0 then 10 else base), s2)
    end in
  let '(v, any, rest) := strtol_digits b s3 0 false in
  if any then
    let sv := if neg then - v else v in
    if sv <? LONG_MIN then
      {| sr_value := LONG_MIN; sr_converted := true; sr_end := rest; sr_erange := true |}
    else if LONG_MAX <? sv then
      {| sr_value := LONG_MAX; sr_converted := true; sr_end := rest; sr_erange := true |}
    else
      {| sr_value := sv; sr_converted := true; sr_end := rest; sr_erange := false |}
  else
    {| sr_value := 0; sr_converted := false; sr_end := nptr; sr_erange := false |}.

(** Conversion to [int]. *)
Definition wrap32 (z : Z) : Z := (z + 2 ^ 31) mod 2 ^ 32 - 2 ^ 31.

Definition INT_MIN : Z := - 2 ^ 31.
Definition INT_MAX : Z := 2 ^ 31 - 1.

(** Decimal digits and the number a run of them denotes after [acc]. *)
Definition is_dec_digit (c : ascii) : bool :=
  let n := nat_of_ascii c in ((48 <=? n) && (n <=? 57))%nat.

Fixpoint dec_value (ds : cstring) (acc : Z) : Z :=
  match ds with
  | [] => acc
  | c :: ds' => dec_value ds' (acc * 10 + (Z.of_nat (nat_of_ascii c) - 48))
  end.

(** The decimal text of an integer, as [%d] prints it. *)
Definition decimal (n : Z) : cstring :=
  list_ascii_of_string (NilZero.string_of_int (Z.to_int n)).

Definition uint_chars (d : Decimal.uint) : cstring :=
  list_ascii_of_string (NilEmpty.string_of_uint d).

(** [strchr(s, c) - s] for a character [c] other than NUL: the index of the
    first [c] before the end of the string, [None] when [strchr] returns
    NULL. *)
Fixpoint strchr_index (s : buffer) (c : ascii) : option nat :=
  match s with
  | [] => None
  | x :: s' =>
      if Ascii.eqb x NUL then None
      else if Ascii.eqb x c then Some 0%nat
      else option_map S (strchr_index s' c)
  end.

(** [memcpy(dst + off, src, n)] *)
Definition memcpy_at (dst : buffer) (off : nat) (src : buffer) (n : nat) : buffer :=
  firstn off dst ++ memcpy (skipn off dst) src n.

(** What a format and its arguments come to in [vsnprintf]: the text they
    expand to (of a length that an [int] holds), or an output error, which
    leaves bytes in the destination that the caller knows nothing of. *)
Inductive formatted :=
| FmtText (out : cstring)
| FmtError (garbage : buffer).

(** [vsnprintf(dst, size, fmt, args)]: the result and the destination
    afterwards.  The first [size - 1] characters of the text are stored with
    a NUL behind them (nothing when [size] is 0) and the length of the whole
    text is returned; an error returns a negative number. *)
Definition vsnprintf (dst : buffer) (size : nat) (f : formatted) : Z * buffer :=
  match f with
  | FmtText out =>
      let n := Nat.min (List.length out) (size - 1) in
      (Z.of_nat (List.length out),
       if (size =? 0)%nat then dst else store (memcpy dst out n) n NUL)
  | FmtError garbage => (-1, garbage)
  end.

End LibC.
Export LibC.

(** ** util.c *)

Module Util.

(** [mystrcpy(dst, dstSize, src)]; [None] is the NULL pointer.  The result is
    the destination afterwards. *)
Definition mystrcpy (dst : option buffer) (dstSize : nat) (src : option cstring)
  : option buffer :=
  match dst with
  | None => None
  | Some d =>
      if (dstSize <? 1)%nat then Some d
      else
        let d0 := store d 0 NUL in
        match src with
        | None => Some d0
        | Some s =>
            let srcLen := strlen s in
            let srcLen := if (dstSize <=? srcLen)%nat then (dstSize - 1)%nat else srcLen in
            Some (store (memcpy d0 s srcLen) srcLen NUL)
        end
  end.

(** [mystrcpy] into a [char] array of [size] bytes that was cleared before,
    read back as a C string. *)
Definition mystrcpy_field (size : nat) (src : cstring) : cstring :=
  match mystrcpy (Some (repeat NUL size)) size (Some src) with
  | Some b => c_str b
  | None => []
  end.

(** [TrimSuffixCaseInsensitive(s, suffix)]: the result and [s] afterwards. *)
Definition TrimSuffixCaseInsensitive (s suffix : cstring) : bool * cstring :=
  let sLen := List.length s in
  let suffixLen := List.length suffix in
  if (sLen <? suffixLen)%nat then (false, s)
  else
    let sSuffix := skipn (sLen - suffixLen) s in
    if negb (strcasecmp_eq sSuffix suffix) then (false, s)
    else (true, firstn (sLen - suffixLen) s).

(** [ParseInt(valStr, nP)]: [Some n] when it returns true with [*nP == n]. *)
Definition ParseInt (valStr : cstring) : option Z :=
  let r := strtol valStr 0 in
  if negb (sr_converted r)
     || (match sr_end r with [] => false | _ :: _ => true end)
     || sr_erange r
  then None
  else Some (wrap32 (sr_value r)).

(** [ParseSize(valStr, nP)].  The product [*nP * multiplier] is taken in
    [int]; where it leaves the range of [int] the C standard gives it no
    meaning, and the model wraps it as a two's complement machine does. *)
Definition ParseSize (valStr : cstring) : option Z :=
  let s := mystrcpy_field 32 valStr in
  let multiplier := 1 in
  let '(multiplier, s) :=
    let '(t, s1) := TrimSuffixCaseInsensitive s (cs "K") in
    if t then (1024, s1)
    else
      let '(t, s1) := TrimSuffixCaseInsensitive s (cs "KB") in
      if t then (1024, s1) else (multiplier, s) in
  let '(multiplier, s) :=
    let '(t, s1) := TrimSuffixCaseInsensitive s (cs "M") in
    if t then (1024 * 1024, s1)
    else
      let '(t, s1) := TrimSuffixCaseInsensitive s (cs "MB") in
      if t then (1024 * 1024, s1) else (multiplier, s) in
  match ParseInt s with
  | None => None
  | Some n => Some (wrap32 (n * multiplier))
  end.

(** The suffixes of a size with what each makes of the number [n] before
    it: the multiplier, or [None] for a text that is rejected. *)
Definition size_suffixes : list (cstring * option Z) :=
  [ (cs "K", Some 1024); (cs "KB", Some 1024);
    (cs "M", Some 1048576); (cs "MB", Some 1048576);
    (cs "MK", Some 1048576); (cs "KM", None) ].

(** [mystrcat(dst, dstSize, src)]; the result is the destination
    afterwards. *)
Definition mystrcat (dst : option buffer) (dstSize : nat) (src : option cstring)
  : option buffer :=
  match dst with
  | None => None
  | Some d =>
      if (dstSize <? 1)%nat then Some d
      else
        let dstLen := strlen d in
        if (dstSize <=? dstLen)%nat then Some d
        else
          match src with
          | None => Some d
          | Some s =>
              let srcLen := strlen s in
              if (srcLen <? 1)%nat then Some d   (* empty string, do nothing *)
              else
                let maxLen := ((dstSize - 1) - dstLen)%nat in
                let srcLen := if (maxLen <? srcLen)%nat then maxLen else srcLen in
                if (0 <? srcLen)%nat
                then Some (store (memcpy_at d dstLen s srcLen) (dstLen + srcLen) NUL)
                else Some d
          end
  end.

(** [mysprintf(dst, dstSize, fmt, ...)]; [fmt] is [None] for the NULL
    pointer and else what the format and the arguments come to. *)
Definition mysprintf (dst : option buffer) (dstSize : nat) (fmt : option formatted)
  : option buffer :=
  match dst with
  | None => None
  | Some d =>
      if (dstSize <? 1)%nat then Some d
      else
        let d0 := store d 0 NUL in
        match fmt with
        | None => Some d0
        | Some f =>
            let '(n, dst1) := vsnprintf d0 dstSize f in
            if n <? 0 then Some (store dst1 0 NUL)
            else if Z.of_nat dstSize <=? n then Some (store dst1 (dstSize - 1) NUL)
            else Some dst1
        end
  end.

(** [ParseKeyValue(arg, keyBuff, keyBuffSize, valBuff, valBuffSize)]: the
    result and the two buffers afterwards. *)
Definition ParseKeyValue (arg : cstring) (keyBuff : buffer) (keyBuffSize : nat)
  (valBuff : buffer) (valBuffSize : nat) : bool * buffer * buffer :=
  match strchr_index arg "=" with
  | None => (false, keyBuff, valBuff)
  | Some keyLen =>
      if (keyLen <=? 0)%nat then (false, keyBuff, valBuff)
      else if (keyBuffSize <=? keyLen)%nat then (false, keyBuff, valBuff)
      else
        let keyBuff := store (memcpy keyBuff arg keyLen) keyLen NUL in
        let valStr := skipn (keyLen + 1) arg in
        let valLen := strlen valStr in
        if (valBuffSize <=? valLen)%nat then (false, keyBuff, valBuff)
        else (true, keyBuff, store (memcpy valBuff valStr valLen) valLen NUL)
  end.

End Util.
Export Util.


(** ** GLib: the key file and the balanced tree *)

Module GLib.

Fixpoint assoc {A : Type} (k : cstring) (l : list (cstring * A)) : option A :=
  match l with
  | [] => None
  | (k', v) :: l' => if cstring_eqb k k' then Some v else assoc k l'
  end.

(** The table [g_key_file_load_from_file] builds: the groups in file order,
    each with its keys and the values [g_key_file_get_string] returns. *)
Definition GKeyFile := list (cstring * list (cstring * cstring)).

Definition g_key_file_get_groups (kf : GKeyFile) : list cstring := map fst kf.

(** [g_key_file_get_string(kf, group, key, &error)]: [None] is the NULL
    result, which comes with an error. *)
Definition g_key_file_get_string (kf : GKeyFile) (group key : cstring)
  : option cstring :=
  match assoc group kf with
  | Some kvs => assoc key kvs
  | None => None
  end.

(** [g_key_file_get_integer]: the value read by [strtol] in base 10; an empty
    value, text after the number and a number that does not fit an [int]
    are errors ([None]). *)
Definition g_key_file_get_integer (kf : GKeyFile) (group key : cstring)
  : option Z :=
  match g_key_file_get_string kf group key with
  | None => None
  | Some value =>
      let r := strtol value 10 in
      match value, sr_end r with
      | _ :: _, [] =>
          if sr_erange r || negb (wrap32 (sr_value r) =? sr_value r)
          then None else Some (sr_value r)
      | _, _ => None
      end
  end.

(** A [GTree] keyed by name, as the list of its nodes. *)
Definition GTree (V : Type) := list (cstring * V).

Fixpoint tree_replace {V : Type} (k : cstring) (v : V) (t : GTree V) : GTree V :=
  match t with
  | [] => []
  | (k', v') :: t' =>
      if cstring_eqb k k' then (k', v) :: t' else (k', v') :: tree_replace k v t'
  end.

(** The functions below take the tree pointer, [None] being NULL; on NULL
    they fail their precondition check and return at once. *)
Definition g_tree_lookup {V : Type} (tree : option (GTree V)) (key : cstring)
  : option V :=
  match tree with
  | None => None
  | Some t => assoc key t
  end.

Definition g_tree_insert {V : Type} (tree : option (GTree V)) (key : cstring) (v : V)
  : option (GTree V) :=
  match tree with
  | None => None
  | Some t =>
      match assoc key t with
      | Some _ => Some (tree_replace key v t)
      | None => Some (t ++ [(key, v)])
      end
  end.

Definition g_tree_nnodes {V : Type} (tree : option (GTree V)) : Z :=
  match tree with
  | None => 0
  | Some t => Z.of_nat (List.length t)
  end.

(** A store through a pointer that [g_tree_lookup] returned, or that
    [g_tree_insert] was given: it changes the node of the tree when the tree
    holds one under that key, and nothing of the tree otherwise. *)
Definition tree_store {V : Type} (tree : option (GTree V)) (key : cstring) (v : V)
  : option (GTree V) :=
  match tree with
  | None => None
  | Some t => Some (tree_replace key v t)
  end.

End GLib.
Export GLib.

(** ** main.h and the other declarations config.c is compiled against *)

(** Modelled from the spec: the limits of an output (main.h is not among the
    sources).  "maximum file size in bytes (clamped to [4 KiB, 64 MiB],
    default 1 MiB); rotation count (clamped to [1, 9], default 1)". *)
Definition PMLOG_MIN_LOG_SIZE : Z := 4096.
Definition PMLOG_MAX_LOG_SIZE : Z := 64 * 1024 * 1024.
Definition PMLOG_DEFAULT_LOG_SIZE : Z := 1024 * 1024.
Definition PMLOG_MIN_NUM_ROTATIONS : Z := 1.
Definition PMLOG_MAX_NUM_ROTATIONS : Z := 9.
Definition PMLOG_DEFAULT_LOG_ROTATIONS : Z := 1.

(** Modelled from the spec: the names of the mandatory output and context
    and the path of the default log file (main.h is not among the sources).
    "one output stdlog -> /var/log/messages", "one context <global>". *)
Definition PMLOG_OUTPUT_STDLOG : cstring := cs "stdlog".
Definition PMLOG_CONTEXT_GLOBAL : cstring := cs "<global>".
Definition DEFAULT_LOG_FILE_PATH : cstring := cs "/var/log/messages".

(** [PATH_MAX] of limits.h. *)
Definition PATH_MAX : nat := 4096.

(** What else config.c takes from its headers and from the files that are
    not among the sources: the sentinel of an integer that was not set, the
    sizes of the tables and name arrays, and the parsers of facility and
    level names.  A parser returns [None] where the C function returns
    false (or NULL). *)
Record main_h := {
  CONF_INT_UNINIT_VALUE : Z;
  PMLOG_MAX_NUM_OUTPUTS : nat;
  PMLOG_OUTPUT_MAX_NAME_LENGTH : nat;
  PMLOG_MAX_CONTEXT_NAME_LEN : nat;
  PMLOG_PROGRAM_MAX_NAME_LENGTH : nat;
  PMLOG_CONTEXT_MAX_NUM_RULES : nat;
  ParseRuleFacility : cstring -> option Z;
  ParseRuleLevel : cstring -> option Z;
  PmLogStringToLevel : cstring -> option Z
}.

(** The member [rb] of a context, a pointer to a ring buffer: NULL as
    [g_new0] leaves it, or what a call [RBNew(bufferSize, flushLevel)]
    returned.  ringbuffer.c is not among the sources, and config.c does not
    look at what [RBNew] returns: the pointer is kept as the call that made
    it, and nothing is said of what [RBNew] makes of its arguments. *)
Inductive PmLogRingBuffer_p :=
| rb_NULL
| RBNew (bufferSize flushLevel : Z).

(** The configuration objects.  A [char*] member is [None] when NULL. *)
Record PmLogFile_t := {
  outputName : option cstring;
  path : option cstring;
  maxSize : Z;
  rotations : Z
}.

Record PmLogRule_t := {
  facility : Z;
  level : Z;
  levelInvert : bool;
  program : option cstring;
  outputIndex : Z;
  omitOutput : bool
}.

(** [rules] holds the first [numRules] entries of the array. *)
Record PmLogContextConf_t := {
  contextName : cstring;
  rules : list PmLogRule_t;
  rb : PmLogRingBuffer_p
}.

Definition numRules (c : PmLogContextConf_t) : Z := Z.of_nat (List.length (rules c)).

(** How a run of [ReadConfFile] ends: it returns, or it hands to
    [g_error_free] a [GError] that it has freed before, and what the C
    program does from there on is not defined. *)
Inductive run (A : Type) : Type :=
| Returns (a : A)
| FreedTwice.

Arguments Returns {A} a.
Arguments FreedTwice {A}.

(** The global configuration settings.  [g_outputConfs] holds the first
    [g_numOutputs] entries of the array; the entries behind them are never
    read. *)
Record conf := {
  g_outputConfs : list PmLogFile_t;
  g_numContexts : Z;
  g_contextConfs : option (GTree PmLogContextConf_t)
}.

Definition g_numOutputs (st : conf) : Z := Z.of_nat (List.length (g_outputConfs st)).

(** ** config.c *)

Module Config.

Record PmLogParseOutput_t := {
  po_name : cstring;
  po_File : cstring;
  po_MaxSize : Z;
  po_Rotations : Z
}.

Record PmLogParseRule_t := {
  pr_facility : Z;
  pr_level : Z;
  pr_levelInvert : bool;
  pr_program : cstring;
  pr_outputIndex : Z;
  pr_omitOutput : bool
}.

(** [pc_rules] holds the first [numRules] entries of the array. *)
Record PmLogParseContext_t := {
  pc_name : cstring;
  pc_rules : list PmLogParseRule_t;
  pc_bufferSize : Z;
  pc_flushLevel : Z
}.

(** The structures after [memset(p, 0, sizeof *p)]. *)
Definition zero_ParseOutput : PmLogParseOutput_t :=
  {| po_name := []; po_File := []; po_MaxSize := 0; po_Rotations := 0 |}.

Definition zero_ParseContext : PmLogParseContext_t :=
  {| pc_name := []; pc_rules := []; pc_bufferSize := 0; pc_flushLevel := 0 |}.

(** [strncpy(dst, src, n)] into an array that was cleared before and has more
    than [n] bytes, read back as a C string. *)
Definition strncpy_field (n : nat) (src : cstring) : cstring := firstn n src.

(** [FindOutputByName(outputName, &index)]: the entry found (NULL: [None])
    and the index stored. *)
Fixpoint FindOutputByName_from (i : Z) (l : list PmLogFile_t) (name : cstring)
  : option PmLogFile_t * Z :=
  match l with
  | [] => (None, -1)
  | o :: l' =>
      match outputName o with
      | Some n =>
          if strcmp_eq n name then (Some o, i)
          else FindOutputByName_from (i + 1) l' name
      | None => FindOutputByName_from (i + 1) l' name
      end
  end.

Definition FindOutputByName (st : conf) (name : cstring) : option PmLogFile_t * Z :=
  FindOutputByName_from 0 (g_outputConfs st) name.

(** The test of the character at [s] against [c] that sets a flag and steps
    over the character ([flag = false; if (s[0] == c) { flag = true; s++; }]):
    the flag and [s] afterwards. *)
Definition skip_char (c : ascii) (s : cstring) : bool * cstring :=
  match s with
  | x :: s' => if Ascii.eqb x c then (true, s') else (false, s)
  | [] => (false, s)
  end.

(** [GetTokenToSep(&s, token, tokenBuffSize, terminators, &terminator)]: the
    token, the terminator (NUL at the end of the string) and [s]
    afterwards. *)
Fixpoint GetTokenToSep_loop (s : cstring) (token : cstring) (tokenBuffSize : nat)
  (terminators : cstring) : cstring * cstring :=
  match s with
  | [] => (token, [])
  | c :: s' =>
      if strchr terminators c then (token, s)
      else
        let token' :=
          if (tokenBuffSize <=? List.length token + 1)%nat
          then token               (* token truncated *)
          else token ++ [c] in
        GetTokenToSep_loop s' token' tokenBuffSize terminators
  end.

Definition GetTokenToSep (s : cstring) (tokenBuffSize : nat) (terminators : cstring)
  : cstring * ascii * cstring :=
  let '(token, rest) := GetTokenToSep_loop s [] tokenBuffSize terminators in
  match rest with
  | [] => (token, NUL, [])
  | c :: s' => (token, c, s')
  end.

(** [mysprintf(ruleName, sizeof(ruleName), "Rule%d", n)] with the ten bytes
    of [ruleName]. *)
Definition ruleName (n : Z) : cstring := firstn 9 (cs "Rule" ++ decimal n).

Section WithHeader.

Variable H : main_h.

(** [n == CONF_INT_UNINIT_VALUE] *)
Definition is_uninit (n : Z) : bool := n =? CONF_INT_UNINIT_VALUE H.

Definition ConfIntValueOrDefault (n defaultVal : Z) : Z :=
  if is_uninit n then defaultVal else n.

(** [ParseOutputInit(name, &parseOutput)] *)
Definition ParseOutputInit (st : conf) (name : cstring) : bool * PmLogParseOutput_t :=
  if (g_numOutputs st =? 0) && negb (strcmp_eq PMLOG_OUTPUT_STDLOG name)
  then (false, zero_ParseOutput)
  else
    (true,
     {| po_name := mystrcpy_field (PMLOG_OUTPUT_MAX_NAME_LENGTH H + 1) name;
        po_File := [];
        po_MaxSize := CONF_INT_UNINIT_VALUE H;
        po_Rotations := CONF_INT_UNINIT_VALUE H |}).

Definition set_rotations (o : PmLogFile_t) (r : Z) : PmLogFile_t :=
  {| outputName := outputName o; path := path o; maxSize := maxSize o; rotations := r |}.

Fixpoint update_nth {A : Type} (n : nat) (f : A -> A) (l : list A) : list A :=
  match l, n with
  | [], _ => []
  | x :: l', O => f x :: l'
  | x :: l', S n' => x :: update_nth n' f l'
  end.

(** [MakeOutputConf(&parseOutput)]: the result, [parseOutput] afterwards and
    the configuration afterwards. *)
Definition MakeOutputConf (st : conf) (po : PmLogParseOutput_t)
  : bool * PmLogParseOutput_t * conf :=
  let file_ok :=
    match po_File po with
    | [] => false
    | c :: _ => Ascii.eqb c "/"
    end in
  if negb file_ok then (false, po, st)
  else
    (* outputConfP, as the index of the entry it points to *)
    let found :=
      match FindOutputByName st (po_name po) with
      | (Some _, i) => Some (Z.to_nat i, st)
      | (None, _) =>
          if (PMLOG_MAX_NUM_OUTPUTS H <=? List.length (g_outputConfs st))%nat
          then None
          else
            Some (List.length (g_outputConfs st),
                  {| g_outputConfs :=
                       g_outputConfs st ++
                       [ {| outputName := Some (po_name po);
                            path := Some (po_File po);
                            maxSize := 0;
                            rotations := 0 |} ];
                     g_numContexts := g_numContexts st;
                     g_contextConfs := g_contextConfs st |})
      end in
    match found with
    | None => (false, po, st)
    | Some (idx, st1) =>
        let MaxSize :=
          if is_uninit (po_MaxSize po) then PMLOG_DEFAULT_LOG_SIZE
          else if po_MaxSize po <? PMLOG_MIN_LOG_SIZE then PMLOG_MIN_LOG_SIZE
          else if PMLOG_MAX_LOG_SIZE <? po_MaxSize po then PMLOG_MAX_LOG_SIZE
          else po_MaxSize po in
        let '(Rotations, st2) :=
          if is_uninit (po_Rotations po) then
            (po_Rotations po,
             {| g_outputConfs :=
                  update_nth idx (fun o => set_rotations o PMLOG_DEFAULT_LOG_ROTATIONS)
                    (g_outputConfs st1);
                g_numContexts := g_numContexts st1;
                g_contextConfs := g_contextConfs st1 |})
          else if po_Rotations po <? PMLOG_MIN_NUM_ROTATIONS then (PMLOG_MIN_NUM_ROTATIONS, st1)
          else if PMLOG_MAX_NUM_ROTATIONS <? po_Rotations po then (PMLOG_MAX_NUM_ROTATIONS, st1)
          else (po_Rotations po, st1) in
        (true,
         {| po_name := po_name po; po_File := po_File po;
            po_MaxSize := MaxSize; po_Rotations := Rotations |},
         st2)
    end.

(** [ParseContextInit(name, &parseContext)] *)
Definition ParseContextInit (st : conf) (name : cstring) : bool * PmLogParseContext_t :=
  if (g_numContexts st =? 0) && negb (strcmp_eq PMLOG_CONTEXT_GLOBAL name)
  then (false, zero_ParseContext)
  else
    (true,
     {| pc_name := mystrcpy_field (PMLOG_MAX_CONTEXT_NAME_LEN H + 1) name;
        pc_rules := [];
        pc_bufferSize := 0;
        pc_flushLevel := 0 |}).

(** [ParseContextData(&parseContext, key, val)]: [Some] of [parseContext]
    afterwards when it returns true, [None] when it returns false (the rule
    it was filling is then not counted in [numRules]). *)
Definition ParseContextData (st : conf) (pc : PmLogParseContext_t)
  (key val : cstring) : option PmLogParseContext_t :=
  let s := val in
  (* get facility *)
  let '(token, sep, s) := GetTokenToSep s 32 (cs ".,") in
  match ParseRuleFacility H token with
  | None => None
  | Some fac =>
      (* get level (optional) *)
      let level_part :=
        if Ascii.eqb sep "." then
          let '(inv, s) := skip_char "!" s in
          let '(token, sep, s) := GetTokenToSep s 32 (cs ".,") in
          match ParseRuleLevel H token with
          | None => None
          | Some lvl => Some (inv, lvl, sep, s)
          end
        else Some (false, -1, sep, s) in
      match level_part with
      | None => None
      | Some (inv, lvl, sep, s) =>
          (* get program (optional) *)
          let '(prog, sep, s) :=
            if Ascii.eqb sep "." then
              let '(token, sep, s) := GetTokenToSep s 32 (cs ".,") in
              (mystrcpy_field (PMLOG_PROGRAM_MAX_NAME_LENGTH H + 1) token, sep, s)
            else ([], sep, s) in
          if negb (Ascii.eqb sep ",") then None
          else
            let '(omit, s) := skip_char "-" s in
            let '(token, sep, s) := GetTokenToSep s 32 (cs ".,") in
            match FindOutputByName st token with
            | (None, _) => None
            | (Some _, idx) =>
                if negb (Ascii.eqb sep NUL) then None
                else
                  Some {| pc_name := pc_name pc;
                          pc_rules :=
                            pc_rules pc ++
                            [ {| pr_facility := fac;
                                 pr_level := lvl;
                                 pr_levelInvert := inv;
                                 pr_program := prog;
                                 pr_outputIndex := idx;
                                 pr_omitOutput := omit |} ];
                          pc_bufferSize := pc_bufferSize pc;
                          pc_flushLevel := pc_flushLevel pc |}
            end
      end
  end.

Definition rule_of_parse (r : PmLogParseRule_t) : PmLogRule_t :=
  {| facility := pr_facility r;
     level := pr_level r;
     levelInvert := pr_levelInvert r;
     program := match pr_program r with [] => None | _ :: _ => Some (pr_program r) end;
     outputIndex := pr_outputIndex r;
     omitOutput := pr_omitOutput r |}.

(** [CreateContext(name)]: the object it returns and the configuration
    afterwards. *)
Definition CreateContext (st : conf) (name : cstring) : PmLogContextConf_t * conf :=
  let contextConfP := {| contextName := name; rules := []; rb := rb_NULL |} in
  let tree := g_tree_insert (g_contextConfs st) name contextConfP in
  (contextConfP,
   {| g_outputConfs := g_outputConfs st;
      g_numContexts := g_tree_nnodes tree;
      g_contextConfs := tree |}).

(** [MakeContextConf(&parseContext)] *)
Definition MakeContextConf (st : conf) (pc : PmLogParseContext_t) : bool * conf :=
  let '(contextConfP, st1) :=
    match g_tree_lookup (g_contextConfs st) (pc_name pc) with
    | Some c => (c, st)
    | None => CreateContext st (pc_name pc)
    end in
  (* copy over the rules, copy buffer info *)
  let c :=
    {| contextName := contextName contextConfP;
       rules := map rule_of_parse (pc_rules pc);
       rb := RBNew (pc_bufferSize pc) (pc_flushLevel pc) |} in
  (true,
   {| g_outputConfs := g_outputConfs st1;
      g_numContexts := g_numContexts st1;
      g_contextConfs := tree_store (g_contextConfs st1) (pc_name pc) c |}).

(** [ClearConf()] *)
Definition ClearConf (st : conf) : conf :=
  {| g_outputConfs := []; g_numContexts := 0; g_contextConfs := None |}.

(** [ParseLevel(s, &level)] of util.c: the result and the level stored. *)
Definition ParseLevel (s : cstring) : bool * Z :=
  match PmLogStringToLevel H s with
  | Some n => (true, n)
  | None => (false, -1)
  end.

(** The local variables of [ReadConfFile] that live across groups:
    [retVal], and whether [gerror] is other than NULL.  Once the file is
    loaded, [gerror] is other than NULL only where it still points to a
    [GError] that [g_error_free] was given. *)
Record locals := {
  retVal : bool;
  gerror : bool
}.

(** The keys of an [OUTPUT=] group, read into [parseOutput]; with it whether
    [gerror] is left other than NULL.  [gerror] is set to NULL before each
    of the three keys is read and is not set to NULL after the error of a
    key is freed, so it is left other than NULL, pointing to the error that
    was freed, exactly when Rotations could not be read. *)
Definition read_output_keys (kf : GKeyFile) (group : cstring)
  (parseOutput : PmLogParseOutput_t) : PmLogParseOutput_t * bool :=
  let po1 :=
    match g_key_file_get_string kf group (cs "File") with
    | Some str =>
        {| po_name := po_name parseOutput;
           po_File := strncpy_field (PATH_MAX - 1) str;
           po_MaxSize := po_MaxSize parseOutput;
           po_Rotations := po_Rotations parseOutput |}
    | None => parseOutput
    end in
  let po2 :=
    match g_key_file_get_string kf group (cs "MaxSize") with
    | Some str =>
        match ParseSize str with
        | Some n =>
            {| po_name := po_name po1; po_File := po_File po1;
               po_MaxSize := n; po_Rotations := po_Rotations po1 |}
        | None => po1
        end
    | None => po1
    end in
  match g_key_file_get_integer kf group (cs "Rotations") with
  | Some rots =>
      ({| po_name := po_name po2; po_File := po_File po2;
          po_MaxSize := po_MaxSize po2; po_Rotations := rots |}, false)
  | None => (po2, true)
  end.

(** The loop that reads the rules: [n] iterations are left and [j] is the
    loop variable.  The result is [parseContext] and [retVal]. *)
Fixpoint read_rules (st : conf) (kf : GKeyFile) (group : cstring) (n : nat) (j : Z)
  (parseContext : PmLogParseContext_t) (retVal : bool)
  : PmLogParseContext_t * bool :=
  match n with
  | O => (parseContext, retVal)
  | S n' =>
      let name := ruleName (j + 1) in
      match g_key_file_get_string kf group name with
      | Some str =>
          match ParseContextData st parseContext name str with
          | Some pc' => read_rules st kf group n' (j + 1) pc' retVal
          | None => (parseContext, false)
          end
      | None => (parseContext, retVal)
      end
  end.

(** The ring buffer keys of a [CONTEXT=] group.  BufferSize is read with
    the [gerror] of the function, which the group does not set to NULL
    first.  When an [OUTPUT=] group before left it other than NULL, the
    test [!gerror] fails, whether the key is there or not
    ([g_key_file_get_string] leaves an error that is already set as it is),
    and the branch [else if (gerror)] gives the error to [g_error_free] a
    second time.  Otherwise [gerror] is NULL again when each key has been
    read. *)
Definition read_buffer_keys (kf : GKeyFile) (group : cstring)
  (parseContext : PmLogParseContext_t) (l : locals)
  : run (PmLogParseContext_t * locals) :=
  if gerror l then FreedTwice
  else
    let '(pc1, retVal1) :=
      match g_key_file_get_string kf group (cs "BufferSize") with
      | Some str =>
          match ParseSize str with
          | Some n =>
              ({| pc_name := pc_name parseContext; pc_rules := pc_rules parseContext;
                  pc_bufferSize := n; pc_flushLevel := pc_flushLevel parseContext |},
               retVal l)
          | None => (parseContext, false)
          end
      | None => (parseContext, retVal l)
      end in
    let '(pc2, retVal2) :=
      match g_key_file_get_string kf group (cs "FlushLevel") with
      | Some str =>
          let '(ok, lvl) := ParseLevel str in
          ({| pc_name := pc_name pc1; pc_rules := pc_rules pc1;
              pc_bufferSize := pc_bufferSize pc1; pc_flushLevel := lvl |},
           if ok then retVal1 else false)
      | None => (pc1, retVal1)
      end in
    Returns (pc2, {| retVal := retVal2; gerror := false |}).

(** The loop over the groups of [ReadConfFile]. *)
Fixpoint groups_loop (kf : GKeyFile) (groups : list cstring) (l : locals) (st : conf)
  : run (locals * conf) :=
  match groups with
  | [] => Returns (l, st)
  | g :: groups' =>
      if g_str_has_prefix g (cs "OUTPUT=") then
        (* OUTPUT parsing *)
        let name := skipn 7 g in
        let '(_, parseOutput) := ParseOutputInit st name in
        let '(parseOutput, gerr) := read_output_keys kf g parseOutput in
        match MakeOutputConf st parseOutput with
        | (false, _, st') => Returns ({| retVal := false; gerror := gerr |}, st')
        | (true, _, st') => groups_loop kf groups' {| retVal := retVal l; gerror := gerr |} st'
        end
      else if g_str_has_prefix g (cs "CONTEXT=") then
        (* CONTEXT parsing *)
        let name := skipn 8 g in
        let '(_, parseContext) := ParseContextInit st name in
        let '(parseContext, rv) :=
          read_rules st kf g (PMLOG_CONTEXT_MAX_NUM_RULES H) 0 parseContext (retVal l) in
        match read_buffer_keys kf g parseContext {| retVal := rv; gerror := gerror l |} with
        | FreedTwice => FreedTwice
        | Returns (parseContext, l1) =>
            match MakeContextConf st parseContext with
            | (false, st') => Returns ({| retVal := false; gerror := gerror l1 |}, st')
            | (true, st') => groups_loop kf groups' l1 st'
            end
        end
      else groups_loop kf groups' l st
  end.

(** [ReadConfFile(config_path)]; [file] is what [g_key_file_load_from_file]
    makes of the file at that path, [None] when it fails.  After the loop
    the function frees what [gerror] points to when it is other than NULL:
    the error of the load when that failed, and otherwise an error that the
    last [OUTPUT=] group read has freed. *)
Definition ReadConfFile (file : option GKeyFile) (st : conf) : run (bool * conf) :=
  match file with
  | None => Returns (false, st)
  | Some kf =>
      match groups_loop kf (g_key_file_get_groups kf)
              {| retVal := true; gerror := false |} st with
      | FreedTwice => FreedTwice
      | Returns (l, st') => if gerror l then FreedTwice else Returns (retVal l, st')
      end
  end.

(** [SetDefaultConf()] *)
Definition SetDefaultConf (st : conf) : conf :=
  let st1 := ClearConf st in
  let st2 :=
    {| g_outputConfs :=
         [ {| outputName := Some PMLOG_OUTPUT_STDLOG;
              path := Some DEFAULT_LOG_FILE_PATH;
              maxSize := PMLOG_DEFAULT_LOG_SIZE;
              rotations := PMLOG_DEFAULT_LOG_ROTATIONS |} ];
       g_numContexts := g_numContexts st1;
       g_contextConfs := g_contextConfs st1 |} in
  let '(contextConfP, st3) :=
    match g_tree_lookup (g_contextConfs st2) PMLOG_CONTEXT_GLOBAL with
    | Some c => (c, st2)
    | None => CreateContext st2 PMLOG_CONTEXT_GLOBAL
    end in
  let contextRule :=
    {| facility := -1; level := -1; levelInvert := false; program := None;
       outputIndex := 0; omitOutput := false |} in
  let c :=
    {| contextName := contextName contextConfP;
       rules := [contextRule];
       rb := rb contextConfP |} in
  {| g_outputConfs := g_outputConfs st3;
     g_numContexts := g_numContexts st3;
     g_contextConfs := tree_store (g_contextConfs st3) PMLOG_CONTEXT_GLOBAL c |}.

End WithHeader.

End Config.
Export Config.

(** ** A header to run the loader with *)

(** Modelled from the spec: the facility and level names with their syslog
    codes, and the token [*] for any (-1).  "Facility/level tokens accept
    either the canonical syslog names (kern, user, mail, daemon, auth,
    syslog, lpr, news, uucp, cron, authpriv, ftp, local0...local7; levels as
    above) or the literal token * meaning any (sentinel -1)." *)
Definition facility_names : list (cstring * Z) :=
  [ (cs "kern", 0); (cs "user", 1); (cs "mail", 2); (cs "daemon", 3);
    (cs "auth", 4); (cs "syslog", 5); (cs "lpr", 6); (cs "news", 7);
    (cs "uucp", 8); (cs "cron", 9); (cs "authpriv", 10); (cs "ftp", 11);
    (cs "local0", 16); (cs "local1", 17); (cs "local2", 18); (cs "local3", 19);
    (cs "local4", 20); (cs "local5", 21); (cs "local6", 22); (cs "local7", 23) ].

Definition level_names : list (cstring * Z) :=
  [ (cs "emerg", 0); (cs "alert", 1); (cs "crit", 2); (cs "err", 3);
    (cs "warning", 4); (cs "notice", 5); (cs "info", 6); (cs "debug", 7) ].

Definition spec_ParseRuleFacility (s : cstring) : option Z :=
  if cstring_eqb s (cs "*") then Some (-1) else assoc s facility_names.

Definition spec_ParseRuleLevel (s : cstring) : option Z :=
  if cstring_eqb s (cs "*") then Some (-1) else assoc s level_names.

Definition spec_PmLogStringToLevel (s : cstring) : option Z := assoc s level_names.

(** Modelled from the spec: the sizes it calls typical (outputs "<= ~8",
    output names 32, context names 31, 32 rules); the program name, for
    which it gives none, is taken as long as an output name.  The sentinel
    of main.h is left open. *)
Definition spec_main_h (uninit : Z) : main_h :=
  {| CONF_INT_UNINIT_VALUE := uninit;
     PMLOG_MAX_NUM_OUTPUTS := 8;
     PMLOG_OUTPUT_MAX_NAME_LENGTH := 32;
     PMLOG_MAX_CONTEXT_NAME_LEN := 31;
     PMLOG_PROGRAM_MAX_NAME_LENGTH := 32;
     PMLOG_CONTEXT_MAX_NUM_RULES := 32;
     ParseRuleFacility := spec_ParseRuleFacility;
     ParseRuleLevel := spec_ParseRuleLevel;
     PmLogStringToLevel := spec_PmLogStringToLevel |}.

(** The configuration before anything is loaded, with the tree of contexts
    created and empty. *)
Definition empty_conf : conf :=
  {| g_outputConfs := []; g_numContexts := 0; g_contextConfs := Some [] |}.

(** A group of a key file, written with strings. *)
Definition group (name : string) (kvs : list (string * string))
  : cstring * list (cstring * cstring) :=
  (cs name, map (fun kv => (cs (fst kv), cs (snd kv))) kvs).


(** ** The vocabulary of the statements *)

(** Texts. *)
Definition nonzero_digits : list ascii := ["1"; "2"; "3"; "4"; "5"; "6"; "7"; "8"; "9"]%char.

(** No byte of [s] is NUL. *)
Definition no_NUL (s : cstring) : bool := forallb (fun c => negb (Ascii.eqb c NUL)) s.

(** The text ends in a decimal digit; no character of the suffix is a digit. *)
Definition ends_in_digit (s : cstring) : Prop :=
  exists front d, s = front ++ [d] /\ is_dec_digit d = true.

Definition no_digit (sfx : cstring) : bool :=
  forallb (fun c => negb (is_dec_digit (tolower c))) sfx.

(** No character of [s] is a dot or a comma. *)
Definition no_sep (s : cstring) : bool :=
  forallb (fun c => negb (strchr (cs ".,") c)) s.

(** The text behind the first comma of a rule value, and the output name
    of the rule: that text without the optional leading '-'. *)
Fixpoint after_comma (val : cstring) : option cstring :=
  match val with
  | [] => None
  | c :: r => if Ascii.eqb c "," then Some r else after_comma r
  end.

Definition after_comma_name (s : cstring) : cstring := snd (skip_char "-" s).

Definition rule_output_name (val : cstring) : cstring :=
  match after_comma val with
  | None => []
  | Some s => after_comma_name s
  end.

Section Vocabulary.

Variable H : main_h.

(** The two halves of [ParseContextData]: the filter up to the comma, which
    yields facility, level, levelInvert, program and the text behind the
    comma, and the output behind it. *)
Definition parse_filter (val : cstring) : option (Z * Z * bool * cstring * cstring) :=
  let '(token, sep, s) := GetTokenToSep val 32 (cs ".,") in
  match ParseRuleFacility H token with
  | None => None
  | Some fac =>
      let level_part :=
        if Ascii.eqb sep "." then
          let '(inv, s) := skip_char "!" s in
          let '(token, sep, s) := GetTokenToSep s 32 (cs ".,") in
          match ParseRuleLevel H token with
          | None => None
          | Some lvl => Some (inv, lvl, sep, s)
          end
        else Some (false, -1, sep, s) in
      match level_part with
      | None => None
      | Some (inv, lvl, sep, s) =>
          let '(prog, sep, s) :=
            if Ascii.eqb sep "." then
              let '(token, sep, s) := GetTokenToSep s 32 (cs ".,") in
              (mystrcpy_field (PMLOG_PROGRAM_MAX_NAME_LENGTH H + 1) token, sep, s)
            else ([], sep, s) in
          if negb (Ascii.eqb sep ",") then None
          else Some (fac, lvl, inv, prog, s)
      end
  end.

Definition parse_output (st : conf) (pc : PmLogParseContext_t)
  (f : Z * Z * bool * cstring * cstring) : option PmLogParseContext_t :=
  let '(fac, lvl, inv, prog, s) := f in
  let '(omit, s) := skip_char "-" s in
  let '(token, sep, s) := GetTokenToSep s 32 (cs ".,") in
  match FindOutputByName st token with
  | (None, _) => None
  | (Some _, idx) =>
      if negb (Ascii.eqb sep NUL) then None
      else
        Some {| pc_name := pc_name pc;
                pc_rules :=
                  pc_rules pc ++
                  [ {| pr_facility := fac;
                       pr_level := lvl;
                       pr_levelInvert := inv;
                       pr_program := prog;
                       pr_outputIndex := idx;
                       pr_omitOutput := omit |} ];
                pc_bufferSize := pc_bufferSize pc;
                pc_flushLevel := pc_flushLevel pc |}
  end.

(** [<facility>[.[!]<level>[.<program>]],[-]<outputName>] *)
Inductive filter_tail :=
| NoLevel
| Level (invert : bool) (level : cstring)
| LevelProgram (invert : bool) (level program : cstring).

Record rule_text := {
  rt_facility : cstring;
  rt_tail : filter_tail;
  rt_omit : bool;
  rt_output : cstring
}.

(** An optional character. *)
Definition opt_char (c : ascii) (b : bool) : cstring := if b then [c] else [].

Definition render_tail (t : filter_tail) : cstring :=
  match t with
  | NoLevel => []
  | Level inv l => "."%char :: opt_char "!" inv ++ l
  | LevelProgram inv l p => "."%char :: opt_char "!" inv ++ l ++ "."%char :: p
  end.

Definition render_rule (r : rule_text) : cstring :=
  rt_facility r ++ render_tail (rt_tail r) ++ ","%char :: opt_char "-" (rt_omit r) ++ rt_output r.

(** A token of the grammar: no dot, no comma, no more than the 31
    characters the token array holds, and not beginning with [c]. *)
Definition token_ok (c : ascii) (t : cstring) : Prop :=
  no_sep t = true /\ (List.length t <= 31)%nat
  /\ match t with [] => True | x :: _ => x <> c end.

Definition tail_ok (t : filter_tail) : Prop :=
  match t with
  | NoLevel => True
  | Level _ l => token_ok "!" l
  | LevelProgram _ l p =>
      token_ok "!" l /\ token_ok NUL p /\ no_NUL p = true
      /\ (List.length p <= PMLOG_PROGRAM_MAX_NAME_LENGTH H)%nat
  end.

Definition rule_text_ok (r : rule_text) : Prop :=
  token_ok NUL (rt_facility r) /\ tail_ok (rt_tail r) /\ token_ok "-" (rt_output r).

Definition tail_level (t : filter_tail) : option cstring :=
  match t with
  | NoLevel => None
  | Level _ l | LevelProgram _ l _ => Some l
  end.

(** The rule a rule text stands for, given the codes of its facility and
    level names and the index of its output. *)
Definition rule_of_text (r : rule_text) (fac lvl idx : Z) : PmLogParseRule_t :=
  {| pr_facility := fac;
     pr_level := match rt_tail r with NoLevel => -1 | _ => lvl end;
     pr_levelInvert :=
       match rt_tail r with
       | NoLevel => false
       | Level inv _ | LevelProgram inv _ _ => inv
       end;
     pr_program := match rt_tail r with LevelProgram _ _ p => p | _ => [] end;
     pr_outputIndex := idx;
     pr_omitOutput := rt_omit r |}.

(** The values of the rules of a group parsed in sequence, the first of
    them being the value of the key [Rule(j+1)]. *)
Fixpoint parse_rule_values (st : conf) (j : Z) (vs : list cstring)
  (pc : PmLogParseContext_t) : option PmLogParseContext_t :=
  match vs with
  | [] => Some pc
  | v :: vs' =>
      match ParseContextData H st pc (ruleName (j + 1)) v with
      | Some pc' => parse_rule_values st (j + 1) vs' pc'
      | None => None
      end
  end.

(** The size and the flush level that a [CONTEXT=] group gives to [RBNew]:
    what [ParseSize] yields for the BufferSize value, and 0 when the key is
    missing or its value does not parse; the level of the FlushLevel value,
    -1 when it has none and 0 when the key is missing. *)
Definition group_bufferSize (kf : GKeyFile) (g : cstring) : Z :=
  match g_key_file_get_string kf g (cs "BufferSize") with
  | Some str => match ParseSize str with Some n => n | None => 0 end
  | None => 0
  end.

Definition group_flushLevel (kf : GKeyFile) (g : cstring) : Z :=
  match g_key_file_get_string kf g (cs "FlushLevel") with
  | Some str => match PmLogStringToLevel H str with Some v => v | None => -1 end
  | None => 0
  end.

(** Whether the ring buffer keys of the group parse. *)
Definition group_buffer_ok (kf : GKeyFile) (g : cstring) : bool :=
  match g_key_file_get_string kf g (cs "BufferSize") with
  | Some str => match ParseSize str with Some _ => true | None => false end
  | None => true
  end
  && match g_key_file_get_string kf g (cs "FlushLevel") with
     | Some str => match PmLogStringToLevel H str with Some _ => true | None => false end
     | None => true
     end.

(** The File key of an [OUTPUT=] group is missing, or its value does not
    begin with a slash. *)
Definition bad_File (kf : GKeyFile) (g : cstring) : Prop :=
  match g_key_file_get_string kf g (cs "File") with
  | None => True
  | Some [] => True
  | Some (c :: _) => c <> "/"%char
  end.

(** Every [OUTPUT=] group of the file has a Rotations key that reads as an
    integer. *)
Definition Rotations_readable (kf : GKeyFile) : Prop :=
  forall g, In g (g_key_file_get_groups kf) ->
            g_str_has_prefix g (cs "OUTPUT=") = true ->
            g_key_file_get_integer kf g (cs "Rotations") <> None.



End Vocabulary.

(** ** Files to run the loader on *)

Definition stdlog_section : cstring * list (cstring * cstring) :=
  group "OUTPUT=stdlog"
    [("File", "/var/log/messages"); ("MaxSize", "1M"); ("Rotations", "2")].

(** The first output is not stdlog. *)
Definition file_first_output_foo : GKeyFile :=
  [ group "OUTPUT=foo" [("File", "/x"); ("MaxSize", "1M"); ("Rotations", "2")] ].

(** The first context is not the global context. *)
Definition file_first_context_foo : GKeyFile :=
  [ stdlog_section;
    group "CONTEXT=foo" [("Rule1", "*.*,stdlog")] ].

(** Limits in range, and limits out of range. *)
Definition file_limits_in_range : GKeyFile := [ stdlog_section ].

Definition file_limits_out_of_range : GKeyFile :=
  [ group "OUTPUT=stdlog"
      [("File", "/var/log/messages"); ("MaxSize", "100"); ("Rotations", "12")] ].

(** An output with a name of 31 characters, and a rule that names an output
    of 32 characters with the same first 31. *)
Definition file_long_output_name : GKeyFile :=
  [ stdlog_section;
    group "OUTPUT=aaaaaaaaaaaaaaaaaaaaaaaaaaaaaaa"
      [("File", "/var/log/a.log"); ("MaxSize", "1M"); ("Rotations", "1")];
    group "CONTEXT=<global>"
      [("Rule1", "*.*,aaaaaaaaaaaaaaaaaaaaaaaaaaaaaaaX")] ].

(** A rule that names an output that no section declares. *)
Definition file_unknown_output : GKeyFile :=
  [ stdlog_section;
    group "CONTEXT=<global>" [("Rule1", "*.*,nolog")] ].

(** An output section without a File, with a section behind it: with a
    Rotations key, and without one. *)
Definition file_no_File : GKeyFile :=
  [ stdlog_section;
    group "OUTPUT=kernlog" [("MaxSize", "100K"); ("Rotations", "1")];
    group "CONTEXT=<global>" [("Rule1", "*.*,stdlog")] ].

Definition file_no_File_no_Rotations : GKeyFile :=
  [ stdlog_section;
    group "OUTPUT=kernlog" [("MaxSize", "100K")];
    group "CONTEXT=<global>" [("Rule1", "*.*,stdlog")] ].

(** A rule with all the parts of the grammar. *)
Definition file_full_rule : GKeyFile :=
  [ stdlog_section;
    group "CONTEXT=<global>" [("Rule1", "kern.!err.init,-stdlog"); ("Rule3", "*.*,stdlog")] ].

(** A negative size of the ring buffer. *)
Definition file_negative_BufferSize : GKeyFile :=
  [ stdlog_section;
    group "CONTEXT=<global>"
      [("Rule1", "*.*,stdlog"); ("BufferSize", "-1"); ("FlushLevel", "warning")] ].

(** The example of the specification. *)
Definition file_example : GKeyFile :=
  [ stdlog_section;
    group "CONTEXT=<global>"
      [("Rule1", "*.*,stdlog"); ("Rule2", "kern.err,-stdlog");
       ("BufferSize", "16K"); ("FlushLevel", "warning")] ].

(** Two output sections and two context sections whose names are the same
    in the characters that are kept. *)
Definition file_same_names : GKeyFile :=
  [ stdlog_section;
    group "OUTPUT=bbbbbbbbbbbbbbbbbbbbbbbbbbbbbbbbX"
      [("File", "/var/log/b1.log"); ("MaxSize", "1M"); ("Rotations", "1")];
    group "OUTPUT=bbbbbbbbbbbbbbbbbbbbbbbbbbbbbbbbY"
      [("File", "/var/log/b2.log"); ("MaxSize", "1M"); ("Rotations", "1")];
    group "CONTEXT=<global>" [("Rule1", "*.*,stdlog")];
    group "CONTEXT=ccccccccccccccccccccccccccccccccX" [("Rule1", "*.*,stdlog")];
    group "CONTEXT=cccccccccccccccccccccccccccccccY" [("Rule1", "kern.*,stdlog")] ].

(** An output that is declared twice, with another File, MaxSize and
    Rotations the second time. *)
Definition file_output_twice : GKeyFile :=
  [ stdlog_section;
    group "OUTPUT=kernlog"
      [("File", "/var/log/kern.log"); ("MaxSize", "1M"); ("Rotations", "2")];
    group "OUTPUT=kernlog"
      [("File", "/var/log/kernel.log"); ("MaxSize", "2M"); ("Rotations", "5")] ].

(** The configuration after the stdlog section. *)
Definition conf_stdlog (uninit : Z) : conf :=
  snd (MakeOutputConf (spec_main_h uninit) empty_conf
         (fst (read_output_keys [stdlog_section] (cs "OUTPUT=stdlog")
                 (snd (ParseOutputInit (spec_main_h uninit) empty_conf (cs "stdlog")))))).

(** ** The vocabulary of the further properties *)

(** What [ReadConfFile] leaves of an output as it is: the name, the path
    and the maximum size. *)
Definition output_key (o : PmLogFile_t) : option cstring * option cstring * Z :=
  (outputName o, path o, maxSize o).

(** An output of before in the table of afterwards: the name, the path and
    the maximum size are as they were, and the rotations are as they were
    or the default. *)
Definition output_kept (o o' : PmLogFile_t) : Prop :=
  output_key o' = output_key o
  /\ (rotations o' = rotations o \/ rotations o' = PMLOG_DEFAULT_LOG_ROTATIONS).

(** An output that a section added: it has the maximum size 0, the
    rotations 0 or the default, a name and an absolute path. *)
Definition output_added (o : PmLogFile_t) : Prop :=
  maxSize o = 0
  /\ (rotations o = 0 \/ rotations o = PMLOG_DEFAULT_LOG_ROTATIONS)
  /\ exists n p, outputName o = Some n /\ path o = Some ("/"%char :: p).

(** The table of afterwards is the table of before, each output kept, and
    the outputs added behind them. *)
Definition outputs_extend (old new : list PmLogFile_t) : Prop :=
  exists kept added,
    new = kept ++ added /\ Forall2 output_kept old kept /\ Forall output_added added.

(** A group that [ReadConfFile] looks at. *)
Definition recognised (g : cstring) : bool :=
  g_str_has_prefix g (cs "OUTPUT=") || g_str_has_prefix g (cs "CONTEXT=").


(** Every context of the tree has the property [R]. *)
Definition contexts_satisfy (R : PmLogContextConf_t -> Prop) (st : conf) : Prop :=
  forall t name c, g_contextConfs st = Some t -> In (name, c) t -> R c.

(** Every rule of every context has the index of an output of the table. *)
Definition rules_in_range (st : conf) : Prop :=
  contexts_satisfy
    (fun c => Forall (fun r => 0 <= outputIndex r < g_numOutputs st) (rules c)) st.

(** [g_numContexts] is the number of nodes of the tree. *)
Definition contexts_counted (st : conf) : Prop :=
  g_numContexts st = g_tree_nnodes (g_contextConfs st).

Section SectionsOfAFile.

Variable H : main_h.

(** No context has more rules than the rule array holds. *)
Definition rules_bounded (st : conf) : Prop :=
  contexts_satisfy
    (fun c => (List.length (rules c) <= PMLOG_CONTEXT_MAX_NUM_RULES H)%nat) st.

(** What [ReadConfFile] hands to [MakeOutputConf] for an [OUTPUT=] group:
    [parseOutput], and whether [gerror] is left other than NULL. *)
Definition output_section (kf : GKeyFile) (g : cstring) (st : conf)
  : PmLogParseOutput_t * bool :=
  read_output_keys kf g (snd (ParseOutputInit H st (skipn 7 g))).

(** What [ReadConfFile] hands to [MakeContextConf] for a [CONTEXT=] group:
    [parseContext], and [retVal] and [gerror] afterwards, unless the group
    frees the error of an [OUTPUT=] group a second time. *)
Definition context_section (kf : GKeyFile) (g : cstring) (l : locals) (st : conf)
  : run (PmLogParseContext_t * locals) :=
  let '(parseContext, rv) :=
    read_rules H st kf g (PMLOG_CONTEXT_MAX_NUM_RULES H) 0
      (snd (ParseContextInit H st (skipn 8 g))) (retVal l) in
  read_buffer_keys H kf g parseContext {| retVal := rv; gerror := gerror l |}.

End SectionsOfAFile.

(** Sections that no part of the loader knows, around the example. *)
Definition file_unknown_groups : GKeyFile :=
  [ group "GENERAL" [("Verbose", "1")];
    stdlog_section;
    group "FILTER=x" [("Rule1", "*.*,nolog")];
    group "CONTEXT=<global>"
      [("Rule1", "*.*,stdlog"); ("Rule2", "kern.err,-stdlog");
       ("BufferSize", "16K"); ("FlushLevel", "warning")] ].

(** Nine outputs, one more than the table of the header holds. *)
Definition file_nine_outputs : GKeyFile :=
  [ stdlog_section;
    group "OUTPUT=o1" [("File", "/var/log/o1"); ("Rotations", "1")];
    group "OUTPUT=o2" [("File", "/var/log/o2"); ("Rotations", "1")];
    group "OUTPUT=o3" [("File", "/var/log/o3"); ("Rotations", "1")];
    group "OUTPUT=o4" [("File", "/var/log/o4"); ("Rotations", "1")];
    group "OUTPUT=o5" [("File", "/var/log/o5"); ("Rotations", "1")];
    group "OUTPUT=o6" [("File", "/var/log/o6"); ("Rotations", "1")];
    group "OUTPUT=o7" [("File", "/var/log/o7"); ("Rotations", "1")];
    group "OUTPUT=o8" [("File", "/var/log/o8"); ("Rotations", "1")];
    group "CONTEXT=<global>" [("Rule1", "*.*,stdlog")] ].

(** A context with a rule that does not parse, and sections behind it. *)
Definition file_bad_rule_then_more : GKeyFile :=
  [ stdlog_section;
    group "CONTEXT=<global>" [("Rule1", "*.*;stdlog")];
    group "OUTPUT=kernlog" [("File", "/var/log/kern.log"); ("Rotations", "1")];
    group "CONTEXT=kernel" [("Rule1", "kern.*,kernlog")] ].



Section NamesOfAFile.

Variable H : main_h.

(** The names of the outputs and of the contexts are no longer than the
    name arrays of the parse structures hold. *)
Definition names_fit (st : conf) : Prop :=
  (forall n, In (Some n) (map outputName (g_outputConfs st)) ->
             (List.length n <= PMLOG_OUTPUT_MAX_NAME_LENGTH H)%nat)
  /\ (forall t k, g_contextConfs st = Some t -> In k (map fst t) ->
                  (List.length k <= PMLOG_MAX_CONTEXT_NAME_LEN H)%nat).

End NamesOfAFile.
(** * Properties *)

(** ** Buffers and [mystrcpy] *)

Section Buffers.

Lemma strlen_le (s : buffer) : (strlen s <= List.length s)%nat.
Proof.
  induction s as [|c s IH]; simpl; [lia|].
  destruct (Ascii.eqb c NUL); simpl; lia.
Qed.

Lemma strlen_firstn_NUL (s r : buffer) (n : nat) :
  (n <= strlen s)%nat -> strlen (firstn n s ++ NUL :: r) = n.
Proof.
  revert n; induction s as [|c s IH]; intros n Hn; simpl in Hn.
  - assert (n = 0%nat) by lia; subst; reflexivity.
  - destruct n as [|n]; [reflexivity|].
    simpl. destruct (Ascii.eqb c NUL); [lia|].
    rewrite IH by lia. reflexivity.
Qed.

Lemma c_str_firstn_NUL (s r : buffer) (n : nat) :
  (n <= strlen s)%nat -> c_str (firstn n s ++ NUL :: r) = firstn n s.
Proof.
  intros Hn. unfold c_str. rewrite strlen_firstn_NUL by exact Hn.
  rewrite firstn_app, firstn_firstn, Nat.min_id.
  pose proof (strlen_le s).
  rewrite length_firstn, Nat.min_l by lia.
  rewrite Nat.sub_diag. simpl. apply List.app_nil_r.
Qed.

Lemma c_str_idem (s : buffer) : c_str (c_str s) = c_str s.
Proof.
  unfold c_str at 2 3.
  induction s as [|c s IH]; [reflexivity|]. simpl.
  destruct (Ascii.eqb c NUL) eqn:E; [reflexivity|].
  unfold c_str in *. simpl. rewrite E. simpl. f_equal. exact IH.
Qed.

Lemma firstn_c_str (s : buffer) (n : nat) :
  firstn n (c_str s) = firstn (Nat.min n (strlen s)) s.
Proof. unfold c_str. apply firstn_firstn. Qed.

(** The destination after [mystrcpy], in closed form. *)
Lemma mystrcpy_some (d : buffer) (dstSize : nat) (s : cstring) :
  (1 <= dstSize <= List.length d)%nat ->
  mystrcpy (Some d) dstSize (Some s) =
  Some (firstn (Nat.min (strlen s) (dstSize - 1)) s
        ++ NUL :: skipn (S (Nat.min (strlen s) (dstSize - 1))) d).
Proof.
  intros [H1 H2]. unfold mystrcpy.
  destruct (dstSize <? 1)%nat eqn:E; [apply Nat.ltb_lt in E; lia|].
  set (k := Nat.min (strlen s) (dstSize - 1)).
  assert (Hk : (if (dstSize <=? strlen s)%nat then (dstSize - 1)%nat else strlen s) = k).
  { unfold k. destruct (dstSize <=? strlen s)%nat eqn:E2.
    - apply Nat.leb_le in E2. lia.
    - apply Nat.leb_gt in E2. lia. }
  rewrite Hk. f_equal.
  pose proof (strlen_le s) as Hs.
  assert (Hks : (k <= List.length s)%nat) by (unfold k; lia).
  assert (Hkd : (k < List.length d)%nat) by (unfold k; lia).
  clearbody k. clear Hk.
  destruct d as [|c d]; [simpl in H2; lia|].
  assert (Hd0 : store (c :: d) 0 NUL = NUL :: d) by reflexivity.
  rewrite Hd0. unfold memcpy.
  rewrite length_firstn, Nat.min_l by exact Hks.
  assert (Hskip : forall x, skipn (S k) (firstn k s ++ skipn k (x :: d)) = skipn k d).
  { intros x. rewrite skipn_app.
    rewrite length_firstn, Nat.min_l by exact Hks.
    rewrite skipn_all2 by (rewrite length_firstn; lia).
    replace (S k - k)%nat with 1%nat by lia.
    change (skipn 1 (skipn k (x :: d)) = skipn k d).
    rewrite skipn_skipn. reflexivity. }
  assert (Hlen : List.length (firstn k s ++ skipn k (NUL :: d)) = S (List.length d)).
  { rewrite length_app, length_firstn, Nat.min_l by exact Hks.
    rewrite length_skipn. cbn [List.length] in *. lia. }
  unfold store. rewrite Hlen.
  destruct (k <? S (List.length d))%nat eqn:E3;
    [|apply Nat.ltb_ge in E3; cbn [List.length] in Hkd; lia].
  rewrite firstn_app, firstn_firstn, Nat.min_id.
  rewrite length_firstn, Nat.min_l by exact Hks.
  rewrite Nat.sub_diag. simpl firstn at 2. rewrite List.app_nil_r.
  rewrite Hskip. reflexivity.
Qed.

Lemma mystrcpy_null_src (d : buffer) (dstSize : nat) :
  (1 <= dstSize <= List.length d)%nat ->
  mystrcpy (Some d) dstSize None = Some (NUL :: skipn 1 d).
Proof.
  intros [H1 H2]. unfold mystrcpy.
  destruct (dstSize <? 1)%nat eqn:E; [apply Nat.ltb_lt in E; lia|].
  unfold store. destruct d as [|c d]; [simpl in H2; lia|]. reflexivity.
Qed.

(** A name array that was cleared holds, after [mystrcpy], the first
    [size - 1] characters of the source. *)
Lemma mystrcpy_field_spec (size : nat) (src : cstring) :
  (1 <= size)%nat ->
  mystrcpy_field size src = firstn (size - 1) (c_str src).
Proof.
  intros Hs. unfold mystrcpy_field.
  rewrite mystrcpy_some by (rewrite repeat_length; lia).
  rewrite c_str_firstn_NUL by lia.
  rewrite firstn_c_str. f_equal. lia.
Qed.

End Buffers.

(** ** Decimal text and [strtol] *)

Section Decimal.

Lemma dec_digit_cases (c : ascii) :
  is_dec_digit c = true ->
  In c ["0"; "1"; "2"; "3"; "4"; "5"; "6"; "7"; "8"; "9"]%char.
Proof.
  destruct c as [[] [] [] [] [] [] [] []]; vm_compute; intros E;
    try discriminate; tauto.
Qed.

Lemma digit_in_base_dec (c : ascii) :
  is_dec_digit c = true ->
  digit_in_base 10 c = Some (Z.of_nat (nat_of_ascii c) - 48)
  /\ 0 <= Z.of_nat (nat_of_ascii c) - 48 <= 9.
Proof.
  intros E. apply dec_digit_cases in E. simpl in E.
  repeat (destruct E as [E|E]; [subst c; vm_compute; repeat split; congruence|]).
  contradiction.
Qed.

Lemma strtol_digits_app (ds rest : cstring) (acc : Z) (any : bool) :
  forallb is_dec_digit ds = true ->
  strtol_digits 10 (ds ++ rest) acc any =
  strtol_digits 10 rest (dec_value ds acc) (any || negb (match ds with [] => true | _ => false end)).
Proof.
  revert acc any. induction ds as [|c ds IH]; intros acc any E.
  - simpl. rewrite orb_false_r. reflexivity.
  - simpl in E. apply andb_true_iff in E. destruct E as [Ec Eds].
    destruct (digit_in_base_dec c Ec) as [Hd _].
    cbn [app strtol_digits]. rewrite Hd. rewrite IH by exact Eds.
    cbn [dec_value negb]. rewrite orb_true_r.
    destruct ds; reflexivity.
Qed.

Lemma dec_value_bounds (ds : cstring) (acc : Z) :
  forallb is_dec_digit ds = true -> 0 <= acc ->
  acc * 10 ^ Z.of_nat (List.length ds) <= dec_value ds acc
  < (acc + 1) * 10 ^ Z.of_nat (List.length ds).
Proof.
  revert acc. induction ds as [|c ds IH]; intros acc E Hacc.
  - simpl. lia.
  - simpl in E. apply andb_true_iff in E. destruct E as [Ec Eds].
    destruct (digit_in_base_dec c Ec) as [_ Hd].
    cbn [dec_value List.length].
    specialize (IH (acc * 10 + (Z.of_nat (nat_of_ascii c) - 48)) Eds ltac:(lia)).
    rewrite Nat2Z.inj_succ, Z.pow_succ_r by lia.
    assert (0 < 10 ^ Z.of_nat (List.length ds)) by (apply Z.pow_pos_nonneg; lia).
    nia.
Qed.

Lemma uint_chars_digits (d : Decimal.uint) : forallb is_dec_digit (uint_chars d) = true.
Proof. induction d; simpl; auto. Qed.

Ltac eval_ascii_codes :=
  repeat match goal with
  | |- context [Z.of_nat (nat_of_ascii ?c)] =>
      let v := eval vm_compute in (Z.of_nat (nat_of_ascii c)) in
      change (Z.of_nat (nat_of_ascii c)) with v
  end.

Lemma dec_value_uint_pos (d : Decimal.uint) (p : positive) :
  dec_value (uint_chars d) (Zpos p) = Zpos (Pos.of_uint_acc d p).
Proof.
  revert p. induction d; intros p; cbn [uint_chars NilEmpty.string_of_uint
    list_ascii_of_string dec_value Pos.of_uint_acc]; [reflexivity|..];
    fold (uint_chars d);
    match goal with
    | |- dec_value _ ?a = Zpos (Pos.of_uint_acc _ ?q) =>
        replace a with (Zpos q) by (eval_ascii_codes; lia)
    end; apply IHd.
Qed.

Lemma dec_value_uint_0 (d : Decimal.uint) :
  dec_value (uint_chars d) 0 = Z.of_N (Pos.of_uint d).
Proof.
  induction d; cbn [uint_chars NilEmpty.string_of_uint
    list_ascii_of_string dec_value Pos.of_uint]; [reflexivity|..];
    fold (uint_chars d); [exact IHd|..];
    match goal with
    | |- dec_value _ ?a = Z.of_N (Npos (Pos.of_uint_acc _ ?q)) =>
        replace a with (Zpos q) by (eval_ascii_codes; lia)
    end; apply dec_value_uint_pos.
Qed.

(** The text of a positive number: a digit other than 0, then digits,
    which denote the number. *)
Lemma pos_chars (p : positive) :
  exists c ds,
    uint_chars (Pos.to_uint p) = c :: ds
    /\ In c ["1"; "2"; "3"; "4"; "5"; "6"; "7"; "8"; "9"]%char
    /\ forallb is_dec_digit ds = true
    /\ dec_value (c :: ds) 0 = Zpos p
    /\ NilZero.string_of_uint (Pos.to_uint p) = NilEmpty.string_of_uint (Pos.to_uint p).
Proof.
  pose proof (DecimalPos.Unsigned.of_to p) as Hof.
  pose proof (DecimalPos.Unsigned.to_of (Pos.to_uint p)) as Hto.
  rewrite Hof in Hto. simpl in Hto.
  pose proof (dec_value_uint_0 (Pos.to_uint p)) as Hv. rewrite Hof in Hv. simpl in Hv.
  pose proof (uint_chars_digits (Pos.to_uint p)) as Hd.
  pose proof (DecimalPos.Unsigned.to_uint_nonzero p) as Hnz.
  assert (Hhead : forall d', Pos.to_uint p <> Decimal.D0 d').
  { intros d' E. rewrite E in Hto. rewrite unorm_D0 in Hto.
    unfold Decimal.unorm in Hto.
    destruct (Decimal.nzhead d') eqn:En; try discriminate.
    - apply Hnz. rewrite E. exact Hto.
    - exact (nzhead_nonzero d' _ En). }
  destruct (Pos.to_uint p) as [|d|d|d|d|d|d|d|d|d|d] eqn:Ed;
    [exfalso; exact (DecimalPos.Unsigned.to_uint_nonnil p Ed)
    |exfalso; exact (Hhead d eq_refl)|..];
    (eexists; eexists; split; [reflexivity|];
     split; [simpl; tauto|]; split; [exact Hd|]; split; [exact Hv|reflexivity]).
Qed.

Lemma decimal_shape (n : Z) :
  n <> 0 ->
  exists c ds,
    decimal n = (if n <? 0 then ["-"%char] else []) ++ c :: ds
    /\ In c nonzero_digits
    /\ forallb is_dec_digit ds = true
    /\ dec_value (c :: ds) 0 = Z.abs n.
Proof.
  intros Hn. destruct n as [|p|p]; [congruence|..];
    destruct (pos_chars p) as (c & ds & Hc & Hin & Hds & Hv & Hs);
    exists c, ds; (split; [|split; [exact Hin|split; [exact Hds|exact Hv]]]).
  - unfold decimal. cbn [Z.to_int NilZero.string_of_int]. rewrite Hs. exact Hc.
  - unfold decimal. cbn [Z.to_int NilZero.string_of_int list_ascii_of_string].
    rewrite Hs. fold (uint_chars (Pos.to_uint p)). rewrite Hc. reflexivity.
Qed.

Lemma strtol_digits_stop (base : Z) (rest : cstring) (acc : Z) (any : bool) :
  match rest with [] => True | r :: _ => digit_in_base base r = None end ->
  strtol_digits base rest acc any = (acc, any, rest).
Proof. destruct rest as [|r rest]; simpl; [reflexivity|]. intros ->. reflexivity. Qed.

(** [strtol] in base 0 on a decimal text that something other than a digit
    follows. *)
Lemma strtol_dec_text (neg : bool) (c : ascii) (ds rest : cstring) :
  In c nonzero_digits ->
  forallb is_dec_digit ds = true ->
  match rest with [] => True | r :: _ => digit_in_base 10 r = None end ->
  strtol ((if neg then ["-"%char] else []) ++ c :: ds ++ rest) 0 =
  let sv := if neg then - dec_value (c :: ds) 0 else dec_value (c :: ds) 0 in
  if sv <? LONG_MIN then
    {| sr_value := LONG_MIN; sr_converted := true; sr_end := rest; sr_erange := true |}
  else if LONG_MAX <? sv then
    {| sr_value := LONG_MAX; sr_converted := true; sr_end := rest; sr_erange := true |}
  else
    {| sr_value := sv; sr_converted := true; sr_end := rest; sr_erange := false |}.
Proof.
  intros Hc Hds Hrest.
  assert (Hdig : forallb is_dec_digit (c :: ds) = true).
  { cbn [forallb]. rewrite Hds, andb_true_r.
    unfold nonzero_digits in Hc. simpl in Hc.
    repeat (destruct Hc as [Hc|Hc]; [subst c; reflexivity|]). contradiction. }
  pose proof (strtol_digits_app (c :: ds) rest 0 false Hdig) as Happ.
  rewrite (strtol_digits_stop 10 rest _ _ Hrest) in Happ.
  cbn [orb negb] in Happ.
  change ((c :: ds) ++ rest) with (c :: ds ++ rest) in Happ.
  unfold nonzero_digits in Hc. simpl in Hc.
  destruct neg;
    repeat (destruct Hc as [Hc|Hc];
      [subst c; unfold strtol; cbn [app];
       match goal with
       | |- context [skip_space ?l] => change (skip_space l) with l
       end;
       cbv beta iota zeta delta [Z.eqb]; rewrite Happ; reflexivity|]);
    contradiction.
Qed.

End Decimal.

(** ** [TrimSuffixCaseInsensitive], [ParseInt] and [ParseSize] *)

Section Sizes.

Lemma cstring_eqb_eq (a b : cstring) : cstring_eqb a b = true <-> a = b.
Proof.
  unfold cstring_eqb. destruct (list_eq_dec ascii_dec a b); split; congruence.
Qed.

Lemma cstring_eqb_refl (a : cstring) : cstring_eqb a a = true.
Proof. apply cstring_eqb_eq. reflexivity. Qed.

Lemma cstring_eqb_neq (a b : cstring) : cstring_eqb a b = false <-> a <> b.
Proof.
  unfold cstring_eqb. destruct (list_eq_dec ascii_dec a b); split; congruence.
Qed.

Lemma strlen_no_NUL (s : cstring) : no_NUL s = true -> strlen s = List.length s.
Proof.
  induction s as [|c s IH]; simpl; [reflexivity|].
  intros E. apply andb_true_iff in E. destruct E as [Ec Es].
  destruct (Ascii.eqb c NUL); [discriminate|]. rewrite IH by exact Es. reflexivity.
Qed.

Lemma c_str_no_NUL (s : cstring) : no_NUL s = true -> c_str s = s.
Proof.
  intros E. unfold c_str. rewrite strlen_no_NUL by exact E. apply firstn_all.
Qed.

Lemma no_NUL_app (a b : cstring) : no_NUL (a ++ b) = no_NUL a && no_NUL b.
Proof. unfold no_NUL. apply forallb_app. Qed.

Lemma digits_no_NUL (ds : cstring) : forallb is_dec_digit ds = true -> no_NUL ds = true.
Proof.
  induction ds as [|c ds IH]; simpl; [reflexivity|].
  intros E. apply andb_true_iff in E. destruct E as [Ec Es].
  rewrite IH by exact Es. rewrite andb_true_r.
  apply dec_digit_cases in Ec. simpl in Ec.
  repeat (destruct Ec as [Ec|Ec]; [subst c; reflexivity|]). contradiction.
Qed.

Lemma nonzero_digit_is_digit (c : ascii) : In c nonzero_digits -> is_dec_digit c = true.
Proof.
  unfold nonzero_digits. simpl. intros Hc.
  repeat (destruct Hc as [Hc|Hc]; [subst c; reflexivity|]). contradiction.
Qed.

(** The text of an integer: no NUL, at least one character, a digit last. *)
Lemma decimal_facts (n : Z) :
  no_NUL (decimal n) = true
  /\ exists front d, decimal n = front ++ [d] /\ is_dec_digit d = true.
Proof.
  destruct (Z.eq_dec n 0) as [->|Hn].
  - split; [reflexivity|]. exists [], "0"%char. split; reflexivity.
  - destruct (decimal_shape n Hn) as (c & ds & Hdec & Hc & Hds & _).
    pose proof (nonzero_digit_is_digit c Hc) as Hcd.
    assert (Hall : forallb is_dec_digit (c :: ds) = true).
    { simpl. rewrite Hcd, Hds. reflexivity. }
    split.
    + rewrite Hdec, no_NUL_app. rewrite (digits_no_NUL _ Hall).
      destruct (n <? 0); reflexivity.
    + destruct (exists_last (l := c :: ds)) as (front & d & Hl); [discriminate|].
      exists ((if n <? 0 then ["-"%char] else []) ++ front), d.
      rewrite Hdec, Hl, app_assoc. split; [reflexivity|].
      rewrite Hl in Hall. rewrite forallb_app in Hall.
      apply andb_true_iff in Hall. destruct Hall as [_ Hd].
      simpl in Hd. rewrite andb_true_r in Hd. exact Hd.
Qed.

(** A suffix as long as the end [t] of the string is trimmed exactly when it
    matches [t]. *)
Lemma Trim_app (pre t suffix : cstring) :
  List.length t = List.length suffix ->
  TrimSuffixCaseInsensitive (pre ++ t) suffix =
  if strcasecmp_eq t suffix then (true, pre) else (false, pre ++ t).
Proof.
  intros Hlen. unfold TrimSuffixCaseInsensitive.
  rewrite length_app, <- Hlen.
  destruct (List.length pre + List.length t <? List.length t)%nat eqn:E;
    [apply Nat.ltb_lt in E; lia|].
  replace (List.length pre + List.length t - List.length t)%nat
    with (List.length pre) by lia.
  rewrite skipn_app, skipn_all, Nat.sub_diag. simpl.
  rewrite firstn_app, firstn_all, Nat.sub_diag. simpl. rewrite List.app_nil_r.
  destruct (strcasecmp_eq t suffix); reflexivity.
Qed.

(** Nothing is trimmed when the last characters differ. *)
Lemma Trim_miss_last (pre sp : cstring) (c x : ascii) :
  tolower c <> tolower x ->
  TrimSuffixCaseInsensitive (pre ++ [c]) (sp ++ [x]) = (false, pre ++ [c]).
Proof.
  intros Hne. unfold TrimSuffixCaseInsensitive.
  destruct (List.length (pre ++ [c]) <? List.length (sp ++ [x]))%nat eqn:E;
    [reflexivity|].
  apply Nat.ltb_ge in E.
  assert (Hne2 : strcasecmp_eq
            (skipn (List.length (pre ++ [c]) - List.length (sp ++ [x])) (pre ++ [c]))
            (sp ++ [x]) = false).
  { apply cstring_eqb_neq. intros Heq.
    rewrite !length_app in *. simpl in *.
    rewrite skipn_app in Heq.
    replace (List.length pre + 1 - (List.length sp + 1) - List.length pre)%nat
      with 0%nat in Heq by lia.
    simpl in Heq. rewrite !map_app in Heq. simpl in Heq.
    apply app_inj_tail in Heq. destruct Heq as [_ Heq]. exact (Hne Heq). }
  rewrite Hne2. reflexivity.
Qed.

(** A text that ends in a digit has none of the suffixes. *)
Lemma Trim_digit_last (front : cstring) (d : ascii) (sp : cstring) (x : ascii) :
  is_dec_digit d = true -> is_dec_digit (tolower x) = false ->
  TrimSuffixCaseInsensitive (front ++ [d]) (sp ++ [x]) = (false, front ++ [d]).
Proof.
  intros Hd Hx. apply Trim_miss_last. intros E.
  apply dec_digit_cases in Hd. simpl in Hd.
  repeat (destruct Hd as [Hd|Hd];
          [subst d; rewrite <- E in Hx; vm_compute in Hx; discriminate|]).
  contradiction.
Qed.

Lemma tolower_cases (c : ascii) :
  (tolower c = "k"%char -> c = "K"%char \/ c = "k"%char)
  /\ (tolower c = "m"%char -> c = "M"%char \/ c = "m"%char)
  /\ (tolower c = "b"%char -> c = "B"%char \/ c = "b"%char).
Proof.
  destruct c as [[] [] [] [] [] [] [] []]; vm_compute;
    repeat split; intros E; try discriminate; tauto.
Qed.

Lemma strtol_decimal (n : Z) (rest : cstring) :
  n <> 0 ->
  match rest with [] => True | r :: _ => digit_in_base 10 r = None end ->
  strtol (decimal n ++ rest) 0 =
  if n <? LONG_MIN then
    {| sr_value := LONG_MIN; sr_converted := true; sr_end := rest; sr_erange := true |}
  else if LONG_MAX <? n then
    {| sr_value := LONG_MAX; sr_converted := true; sr_end := rest; sr_erange := true |}
  else
    {| sr_value := n; sr_converted := true; sr_end := rest; sr_erange := false |}.
Proof.
  intros Hn Hrest.
  destruct (decimal_shape n Hn) as (c & ds & Hdec & Hc & Hds & Hv).
  rewrite Hdec, <- app_assoc.
  change ((c :: ds) ++ rest) with (c :: ds ++ rest).
  rewrite (strtol_dec_text (n <? 0) c ds rest Hc Hds Hrest).
  cbv zeta. rewrite Hv.
  assert (Hsv : (if n <? 0 then - Z.abs n else Z.abs n) = n).
  { destruct (n <? 0) eqn:E; [apply Z.ltb_lt in E|apply Z.ltb_ge in E]; lia. }
  rewrite Hsv. reflexivity.
Qed.

Lemma ParseInt_decimal (n : Z) :
  ParseInt (decimal n) =
  if (LONG_MIN <=? n) && (n <=? LONG_MAX) then Some (wrap32 n) else None.
Proof.
  destruct (Z.eq_dec n 0) as [->|Hn]; [reflexivity|].
  unfold ParseInt.
  rewrite <- (List.app_nil_r (decimal n)).
  rewrite (strtol_decimal n [] Hn I).
  destruct (n <? LONG_MIN) eqn:E1; [apply Z.ltb_lt in E1|apply Z.ltb_ge in E1].
  - cbn [sr_converted sr_end sr_erange negb orb].
    destruct (LONG_MIN <=? n) eqn:E2; [apply Z.leb_le in E2; lia|reflexivity].
  - destruct (LONG_MAX <? n) eqn:E3; [apply Z.ltb_lt in E3|apply Z.ltb_ge in E3];
      cbn [sr_converted sr_end sr_erange sr_value negb orb].
    + destruct (n <=? LONG_MAX) eqn:E4; [apply Z.leb_le in E4; lia|].
      rewrite andb_false_r. reflexivity.
    + destruct (LONG_MIN <=? n) eqn:E2; [|apply Z.leb_gt in E2; lia].
      destruct (n <=? LONG_MAX) eqn:E4; [|apply Z.leb_gt in E4; lia].
      reflexivity.
Qed.

(** A number with a letter after it is not an integer for [ParseInt]. *)
Lemma ParseInt_decimal_letter (n : Z) (r : ascii) :
  In r ["K"; "k"; "M"; "m"; "B"; "b"]%char ->
  ParseInt (decimal n ++ [r]) = None.
Proof.
  intros Hr.
  assert (Hd : digit_in_base 10 r = None).
  { simpl in Hr. repeat (destruct Hr as [Hr|Hr]; [subst r; reflexivity|]). contradiction. }
  destruct (Z.eq_dec n 0) as [->|Hn].
  - simpl in Hr. repeat (destruct Hr as [Hr|Hr]; [subst r; reflexivity|]). contradiction.
  - unfold ParseInt. rewrite (strtol_decimal n [r] Hn Hd).
    destruct (n <? LONG_MIN); [reflexivity|].
    destruct (LONG_MAX <? n); reflexivity.
Qed.

(** The text of a [long] has at most 20 characters. *)
Lemma decimal_length (n : Z) (k : nat) :
  Z.abs n < 10 ^ Z.of_nat k -> (List.length (decimal n) <= S k)%nat.
Proof.
  intros Hb.
  destruct (Z.eq_dec n 0) as [->|Hn]; [simpl; lia|].
  destruct (decimal_shape n Hn) as (c & ds & Hdec & Hc & Hds & Hv).
  rewrite Hdec, length_app. cbn [List.length].
  cbn [dec_value] in Hv.
  pose proof (nonzero_digit_is_digit c Hc) as Hcd.
  assert (H1 : 1 <= 0 * 10 + (Z.of_nat (nat_of_ascii c) - 48)).
  { unfold nonzero_digits in Hc. simpl in Hc.
    repeat (destruct Hc as [Hc|Hc]; [subst c; vm_compute; congruence|]). contradiction. }
  pose proof (dec_value_bounds ds (0 * 10 + (Z.of_nat (nat_of_ascii c) - 48)) Hds
                ltac:(lia)) as [Hlo _].
  rewrite Hv in Hlo.
  assert (Hpow : 10 ^ Z.of_nat (List.length ds) < 10 ^ Z.of_nat k).
  { assert (0 < 10 ^ Z.of_nat (List.length ds)) by (apply Z.pow_pos_nonneg; lia). nia. }
  apply Z.pow_lt_mono_r_iff in Hpow; [|lia|lia].
  destruct (n <? 0); cbn [List.length]; lia.
Qed.

Lemma tolower_digit (d : ascii) : is_dec_digit d = true -> tolower d = d.
Proof.
  intros Hd. apply dec_digit_cases in Hd. simpl in Hd.
  repeat (destruct Hd as [Hd|Hd]; [subst d; reflexivity|]). contradiction.
Qed.

(** [TrimSuffixCaseInsensitive] on a text [pre] that ends in a digit and is
    followed by [t], for a suffix without digits: all is decided in [t]. *)
Lemma Trim_tail (pre t sfx : cstring) (b : bool) :
  ends_in_digit pre ->
  no_digit sfx = true ->
  b = ((List.length sfx <=? List.length t)%nat
       && strcasecmp_eq (skipn (List.length t - List.length sfx) t) sfx) ->
  TrimSuffixCaseInsensitive (pre ++ t) sfx =
  if b then (true, pre ++ firstn (List.length t - List.length sfx) t)
  else (false, pre ++ t).
Proof.
  intros (front & d & Hpre & Hd) Hsfx ->.
  destruct (List.length sfx <=? List.length t)%nat eqn:E.
  - apply Nat.leb_le in E. cbn [andb].
    set (k := (List.length t - List.length sfx)%nat).
    rewrite <- (firstn_skipn k t) at 1.
    rewrite app_assoc, Trim_app.
    + destruct (strcasecmp_eq (skipn k t) sfx); [reflexivity|].
      rewrite <- app_assoc, firstn_skipn. reflexivity.
    + rewrite length_skipn. unfold k. lia.
  - apply Nat.leb_gt in E. cbn [andb].
    unfold TrimSuffixCaseInsensitive.
    destruct (List.length (pre ++ t) <? List.length sfx)%nat eqn:E2; [reflexivity|].
    apply Nat.ltb_ge in E2.
    match goal with |- context [negb ?c] => assert (Hc : c = false) end.
    { apply cstring_eqb_neq. intros Heq. subst pre.
      rewrite !length_app in *. cbn [List.length] in *.
      rewrite <- app_assoc in Heq. rewrite skipn_app in Heq.
      replace (List.length front + 1 + List.length t - List.length sfx
               - List.length front)%nat with 0%nat in Heq by lia.
      cbn [skipn app] in Heq. rewrite map_app in Heq. cbn [map] in Heq.
      assert (Hin : In (tolower d) (map tolower sfx)).
      { rewrite <- Heq. apply in_or_app. right. left. reflexivity. }
      apply in_map_iff in Hin. destruct Hin as (c & Hc & Hcin).
      unfold no_digit in Hsfx. rewrite forallb_forall in Hsfx.
      specialize (Hsfx c Hcin). rewrite Hc, (tolower_digit d Hd), Hd in Hsfx.
      discriminate. }
    rewrite Hc. reflexivity.
Qed.

Lemma wrap32_small (z : Z) : INT_MIN <= z <= INT_MAX -> wrap32 z = z.
Proof.
  unfold INT_MIN, INT_MAX, wrap32. intros Hz.
  rewrite Z.mod_small by lia. lia.
Qed.

Lemma decimal_ends_in_digit (n : Z) : ends_in_digit (decimal n).
Proof. exact (proj2 (decimal_facts n)). Qed.

(** The 32 bytes of [s] in [ParseSize] hold a text of up to 31 characters
    as it is. *)
Lemma field32_small (s : cstring) :
  no_NUL s = true -> (List.length s <= 31)%nat -> mystrcpy_field 32 s = s.
Proof.
  intros Hn Hl. rewrite mystrcpy_field_spec by lia.
  rewrite c_str_no_NUL by exact Hn. apply firstn_all2. simpl. lia.
Qed.

Ltac trim_steps Hend :=
  repeat (erewrite Trim_tail by first [exact Hend | (vm_compute; reflexivity)];
          cbn [firstn List.length Nat.sub]; cbv beta iota zeta).

(** [ParseSize] on a number and a tail of letters, when the whole fits the
    array: what the four trimming steps leave for each tail. *)
Lemma ParseSize_tail (n : Z) (t : cstring) (mult : Z) :
  (List.length (decimal n) + List.length t <= 31)%nat ->
  In (t, mult)
     [ (cs "K", 1024); (cs "k", 1024);
       (cs "KB", 1024); (cs "Kb", 1024); (cs "kB", 1024); (cs "kb", 1024);
       (cs "M", 1048576); (cs "m", 1048576);
       (cs "MB", 1048576); (cs "Mb", 1048576); (cs "mB", 1048576); (cs "mb", 1048576);
       (cs "MK", 1048576); (cs "Mk", 1048576); (cs "mK", 1048576); (cs "mk", 1048576) ] ->
  ParseSize (decimal n ++ t) =
  match ParseInt (decimal n) with Some v => Some (wrap32 (v * mult)) | None => None end.
Proof.
  intros Hlen Ht.
  pose proof (decimal_ends_in_digit n) as Hend.
  pose proof (proj1 (decimal_facts n)) as Hnn.
  unfold ParseSize.
  rewrite field32_small;
    [|rewrite no_NUL_app, Hnn; simpl in Ht;
      repeat (destruct Ht as [Ht|Ht]; [inversion Ht; subst t; reflexivity|]);
      contradiction
     |rewrite length_app; exact Hlen].
  simpl in Ht.
  repeat (destruct Ht as [Ht|Ht];
          [inversion Ht; subst t mult; unfold cs; cbn [list_ascii_of_string];
           trim_steps Hend; rewrite List.app_nil_r; reflexivity|]).
  contradiction.
Qed.

Lemma ParseSize_tail_KM (n : Z) (t : cstring) :
  (List.length (decimal n) + List.length t <= 31)%nat ->
  In t [cs "KM"; cs "Km"; cs "kM"; cs "km"] ->
  ParseSize (decimal n ++ t) = None.
Proof.
  intros Hlen Ht.
  pose proof (decimal_ends_in_digit n) as Hend.
  pose proof (proj1 (decimal_facts n)) as Hnn.
  unfold ParseSize.
  rewrite field32_small;
    [|rewrite no_NUL_app, Hnn; simpl in Ht;
      repeat (destruct Ht as [Ht|Ht]; [subst t; reflexivity|]); contradiction
     |rewrite length_app; exact Hlen].
  simpl in Ht.
  repeat (destruct Ht as [Ht|Ht];
          [subst t; unfold cs; cbn [list_ascii_of_string];
           trim_steps Hend; rewrite ParseInt_decimal_letter by (simpl; tauto);
           reflexivity|]).
  contradiction.
Qed.

Lemma map_one_char (s : cstring) (x : ascii) :
  map tolower s = [x] -> exists a, s = [a] /\ tolower a = x.
Proof.
  destruct s as [|a [|b s]]; cbn [map]; intros E; try discriminate E.
  injection E as Ha. exists a. split; [reflexivity|exact Ha].
Qed.

Lemma map_two_chars (s : cstring) (x y : ascii) :
  map tolower s = [x; y] -> exists a b, s = [a; b] /\ tolower a = x /\ tolower b = y.
Proof.
  destruct s as [|a [|b [|c s]]]; cbn [map]; intros E; try discriminate E.
  injection E as Ha Hb. exists a, b. repeat split; assumption.
Qed.

(** The spellings of the suffixes that [strcasecmp] takes for equal. *)
Lemma suffix_variants (s : cstring) :
  (strcasecmp_eq s (cs "K") = true -> In s [cs "K"; cs "k"])
  /\ (strcasecmp_eq s (cs "KB") = true -> In s [cs "KB"; cs "Kb"; cs "kB"; cs "kb"])
  /\ (strcasecmp_eq s (cs "M") = true -> In s [cs "M"; cs "m"])
  /\ (strcasecmp_eq s (cs "MB") = true -> In s [cs "MB"; cs "Mb"; cs "mB"; cs "mb"])
  /\ (strcasecmp_eq s (cs "MK") = true -> In s [cs "MK"; cs "Mk"; cs "mK"; cs "mk"])
  /\ (strcasecmp_eq s (cs "KM") = true -> In s [cs "KM"; cs "Km"; cs "kM"; cs "km"]).
Proof.
  repeat split; intros E; apply cstring_eqb_eq in E;
    change (map tolower (cs "K")) with ["k"%char] in E;
    change (map tolower (cs "M")) with ["m"%char] in E;
    change (map tolower (cs "KB")) with ["k"%char; "b"%char] in E;
    change (map tolower (cs "MB")) with ["m"%char; "b"%char] in E;
    change (map tolower (cs "MK")) with ["m"%char; "k"%char] in E;
    change (map tolower (cs "KM")) with ["k"%char; "m"%char] in E.
  - apply map_one_char in E. destruct E as (a & -> & Ha).
    destruct (proj1 (tolower_cases a) Ha); subst; simpl; tauto.
  - apply map_two_chars in E. destruct E as (a & b & -> & Ha & Hb).
    destruct (proj1 (tolower_cases a) Ha);
      destruct (proj2 (proj2 (tolower_cases b)) Hb); subst; simpl; tauto.
  - apply map_one_char in E. destruct E as (a & -> & Ha).
    destruct (proj1 (proj2 (tolower_cases a)) Ha); subst; simpl; tauto.
  - apply map_two_chars in E. destruct E as (a & b & -> & Ha & Hb).
    destruct (proj1 (proj2 (tolower_cases a)) Ha);
      destruct (proj2 (proj2 (tolower_cases b)) Hb); subst; simpl; tauto.
  - apply map_two_chars in E. destruct E as (a & b & -> & Ha & Hb).
    destruct (proj1 (proj2 (tolower_cases a)) Ha);
      destruct (proj1 (tolower_cases b) Hb); subst; simpl; tauto.
  - apply map_two_chars in E. destruct E as (a & b & -> & Ha & Hb).
    destruct (proj1 (tolower_cases a) Ha);
      destruct (proj1 (proj2 (tolower_cases b)) Hb); subst; simpl; tauto.
Qed.

(** Twenty digits and more are out of the range of [long]. *)
Lemma ParseInt_big (neg : bool) (c : ascii) (ds : cstring) :
  In c nonzero_digits -> forallb is_dec_digit ds = true ->
  (19 <= List.length ds)%nat ->
  ParseInt ((if neg then ["-"%char] else []) ++ c :: ds) = None.
Proof.
  intros Hc Hds Hlen. unfold ParseInt.
  rewrite <- (List.app_nil_r ds).
  rewrite (strtol_dec_text neg c ds [] Hc Hds I).
  cbv zeta. cbn [dec_value].
  assert (H1 : 1 <= 0 * 10 + (Z.of_nat (nat_of_ascii c) - 48)).
  { unfold nonzero_digits in Hc. simpl in Hc.
    repeat (destruct Hc as [Hc|Hc]; [subst c; vm_compute; congruence|]). contradiction. }
  pose proof (dec_value_bounds ds (0 * 10 + (Z.of_nat (nat_of_ascii c) - 48)) Hds
                ltac:(lia)) as [Hlo _].
  assert (Hpow : 10 ^ 19 <= 10 ^ Z.of_nat (List.length ds))
    by (apply Z.pow_le_mono_r; lia).
  set (v := dec_value ds (0 * 10 + (Z.of_nat (nat_of_ascii c) - 48))) in *.
  assert (Hv : 10 ^ 19 <= v) by nia.
  assert (Hmax : LONG_MAX < 10 ^ 19) by (vm_compute; reflexivity).
  assert (Hmin : - 10 ^ 19 < LONG_MIN) by (vm_compute; reflexivity).
  destruct neg.
  - destruct (- v <? LONG_MIN) eqn:E; [reflexivity|apply Z.ltb_ge in E; lia].
  - destruct (v <? LONG_MIN) eqn:E; [reflexivity|].
    destruct (LONG_MAX <? v) eqn:E2; [reflexivity|apply Z.ltb_ge in E2; lia].
Qed.

Lemma forallb_firstn {A : Type} (f : A -> bool) (l : list A) (k : nat) :
  forallb f l = true -> forallb f (firstn k l) = true.
Proof.
  revert k. induction l as [|x l IH]; intros [|k] E; simpl; try reflexivity.
  simpl in E. apply andb_true_iff in E. destruct E as [Ex El].
  rewrite Ex, IH by exact El. reflexivity.
Qed.

Lemma digits_end_in_digit (pre ds : cstring) :
  forallb is_dec_digit ds = true -> ds <> [] -> ends_in_digit (pre ++ ds).
Proof.
  intros Hds Hne. destruct (exists_last Hne) as (front & d & ->).
  exists (pre ++ front), d. rewrite app_assoc. split; [reflexivity|].
  rewrite forallb_app in Hds. apply andb_true_iff in Hds. destruct Hds as [_ Hd].
  simpl in Hd. rewrite andb_true_r in Hd. exact Hd.
Qed.

(** The text of a number of 30 characters and more, cut to the 31
    characters the array of [ParseSize] holds: digits out of the range of
    [long]. *)
Lemma decimal_cut (n : Z) :
  (30 <= List.length (decimal n))%nat ->
  ends_in_digit (firstn 31 (decimal n))
  /\ ParseInt (firstn 31 (decimal n)) = None
  /\ ParseInt (decimal n) = None.
Proof.
  intros Hlen.
  assert (Hn : n <> 0) by (intros ->; simpl in Hlen; lia).
  destruct (decimal_shape n Hn) as (c & ds & Hdec & Hc & Hds & Hv).
  pose proof (nonzero_digit_is_digit c Hc) as Hcd.
  rewrite Hdec in *. clear Hdec Hv.
  destruct (n <? 0); cbn [app List.length] in Hlen; cbn [app firstn].
  - repeat split.
    + apply (digits_end_in_digit ["-"%char] (c :: firstn 29 ds)); [|discriminate].
      cbn [forallb]. rewrite Hcd, forallb_firstn by exact Hds. reflexivity.
    + apply (ParseInt_big true c (firstn 29 ds) Hc (forallb_firstn _ _ _ Hds)).
      rewrite length_firstn. lia.
    + apply (ParseInt_big true c ds Hc Hds). lia.
  - repeat split.
    + apply (digits_end_in_digit [] (c :: firstn 30 ds)); [|discriminate].
      cbn [forallb]. rewrite Hcd, forallb_firstn by exact Hds. reflexivity.
    + apply (ParseInt_big false c (firstn 30 ds) Hc (forallb_firstn _ _ _ Hds)).
      rewrite length_firstn. lia.
    + apply (ParseInt_big false c ds Hc Hds). lia.
Qed.

(** A number followed by [KM], in any spelling, is rejected, however long
    the number is. *)
Lemma ParseSize_KM (n : Z) (t : cstring) :
  In t [cs "KM"; cs "Km"; cs "kM"; cs "km"] ->
  ParseSize (decimal n ++ t) = None.
Proof.
  intros Ht.
  destruct (Nat.le_gt_cases (List.length (decimal n) + List.length t) 31) as [Hl|Hl];
    [exact (ParseSize_tail_KM n t Hl Ht)|].
  pose proof (proj1 (decimal_facts n)) as Hnn.
  assert (Ht2 : List.length t = 2%nat /\ no_NUL t = true).
  { simpl in Ht. repeat (destruct Ht as [Ht|Ht]; [subst t; split; reflexivity|]).
    contradiction. }
  destruct Ht2 as [Ht2 Htn]. rewrite Ht2 in Hl.
  destruct (decimal_cut n ltac:(lia)) as (Hend & Hcut & Hall).
  unfold ParseSize.
  rewrite mystrcpy_field_spec by lia.
  rewrite c_str_no_NUL by (rewrite no_NUL_app, Hnn, Htn; reflexivity).
  change (32 - 1)%nat with 31%nat.
  destruct (Nat.eq_dec (List.length (decimal n)) 30) as [H30|H30].
  - (* the array holds the number and the first letter *)
    rewrite firstn_app, H30. change (31 - 30)%nat with 1%nat.
    rewrite firstn_all2 by lia.
    pose proof (decimal_ends_in_digit n) as Hend'.
    simpl in Ht.
    repeat (destruct Ht as [Ht|Ht];
            [subst t; unfold cs; cbn [list_ascii_of_string firstn];
             trim_steps Hend'; rewrite List.app_nil_r, Hall; reflexivity|]).
    contradiction.
  - (* the array holds digits of the number only *)
    rewrite firstn_app.
    replace (31 - List.length (decimal n))%nat with 0%nat by lia.
    set (p31 := firstn 31 (decimal n)) in *. clearbody p31.
    cbn [firstn].
    trim_steps Hend. rewrite List.app_nil_r, Hcut. reflexivity.
Qed.

End Sizes.

(** ** [mystrcpy] stays inside the destination *)

Section Names.

Lemma mystrcpy_bounded (d : buffer) (dstSize : nat) (src : option cstring) :
  (1 <= dstSize <= List.length d)%nat ->
  exists d',
    mystrcpy (Some d) dstSize src = Some d'
    /\ List.length d' = List.length d
    /\ (forall i, (dstSize <= i)%nat -> nth_error d' i = nth_error d i)
    /\ (strlen d' < dstSize)%nat
    /\ c_str d' = firstn (dstSize - 1)
                    (match src with Some s => c_str s | None => [] end).
Proof.
  intros Hsz.
  assert (Hgen : forall k s, (k <= strlen s)%nat -> (k < dstSize)%nat ->
            let d' := firstn k s ++ NUL :: skipn (S k) d in
            List.length d' = List.length d
            /\ (forall i, (dstSize <= i)%nat -> nth_error d' i = nth_error d i)
            /\ (strlen d' < dstSize)%nat
            /\ c_str d' = firstn k s).
  { intros k s Hk Hkd d'. pose proof (strlen_le s) as Hs.
    assert (Hfl : List.length (firstn k s) = k) by (rewrite length_firstn; lia).
    repeat split.
    - unfold d'. rewrite length_app, Hfl. cbn [List.length]. rewrite length_skipn. lia.
    - intros i Hi. unfold d'.
      rewrite nth_error_app2 by lia. rewrite Hfl.
      replace (i - k)%nat with (S (i - k - 1)) by lia. cbn [nth_error].
      rewrite nth_error_skipn. f_equal. lia.
    - unfold d'. rewrite strlen_firstn_NUL by exact Hk. exact Hkd.
    - unfold d'. apply c_str_firstn_NUL. exact Hk. }
  destruct src as [s|].
  - rewrite mystrcpy_some by exact Hsz. eexists. split; [reflexivity|].
    destruct (Hgen (Nat.min (strlen s) (dstSize - 1)) s ltac:(lia) ltac:(lia))
      as (H1 & H2 & H3 & H4).
    repeat split; try assumption.
    rewrite H4, firstn_c_str. f_equal. lia.
  - rewrite mystrcpy_null_src by exact Hsz. eexists. split; [reflexivity|].
    destruct (Hgen 0%nat [] ltac:(simpl; lia) ltac:(lia)) as (H1 & H2 & H3 & H4).
    cbn [firstn app] in *. repeat split; try assumption.
    rewrite H4. destruct (dstSize - 1)%nat; reflexivity.
Qed.

End Names.

(** ** The tables: lookups and constructors *)

Section Tables.

Variable H : main_h.

Lemma assoc_None {A : Type} (k : cstring) (l : list (cstring * A)) :
  assoc k l = None <-> ~ In k (map fst l).
Proof.
  induction l as [|[k' v] l IH]; simpl; [tauto|].
  destruct (cstring_eqb k k') eqn:E.
  - apply cstring_eqb_eq in E. split; [discriminate|]. intros Hn. exfalso. auto.
  - apply cstring_eqb_neq in E. rewrite IH. split.
    + intros Hn [Hk|Hk]; [congruence|auto].
    + intros Hn Hk. auto.
Qed.

Lemma assoc_Some_In {A : Type} (k : cstring) (l : list (cstring * A)) (v : A) :
  assoc k l = Some v -> In (k, v) l.
Proof.
  induction l as [|[k' v'] l IH]; simpl; [discriminate|].
  destruct (cstring_eqb k k') eqn:E.
  - apply cstring_eqb_eq in E. intros [= ->]. left. congruence.
  - intros Hs. right. auto.
Qed.

Lemma tree_replace_keys {V : Type} (k : cstring) (v : V) (t : GTree V) :
  map fst (tree_replace k v t) = map fst t.
Proof.
  induction t as [|[k' v'] t IH]; simpl; [reflexivity|].
  destruct (cstring_eqb k k'); simpl; [reflexivity|]. rewrite IH. reflexivity.
Qed.

Lemma assoc_tree_replace {V : Type} (k : cstring) (v : V) (t : GTree V) :
  In k (map fst t) -> assoc k (tree_replace k v t) = Some v.
Proof.
  induction t as [|[k' v'] t IH]; simpl; [tauto|].
  destruct (cstring_eqb k k') eqn:E; simpl; rewrite E; [reflexivity|].
  apply cstring_eqb_neq in E. intros [Hk|Hk]; [congruence|auto].
Qed.

Lemma assoc_app_new {V : Type} (k : cstring) (v : V) (t : GTree V) :
  assoc k t = None -> assoc k (t ++ [(k, v)]) = Some v.
Proof.
  induction t as [|[k' v'] t IH]; simpl.
  - rewrite cstring_eqb_refl. reflexivity.
  - destruct (cstring_eqb k k'); [discriminate|]. exact IH.
Qed.

Lemma update_nth_map {A B : Type} (g : A -> B) (f : A -> A) (n : nat) (l : list A) :
  (forall x, g (f x) = g x) -> map g (update_nth n f l) = map g l.
Proof.
  intros Hf. revert n. induction l as [|x l IH]; intros [|n]; simpl;
    rewrite ?Hf, ?IH; reflexivity.
Qed.

Lemma update_nth_length {A : Type} (f : A -> A) (n : nat) (l : list A) :
  List.length (update_nth n f l) = List.length l.
Proof.
  revert n. induction l as [|x l IH]; intros [|n]; simpl; rewrite ?IH; reflexivity.
Qed.

(** [FindOutputByName] finds an entry exactly when the name is in the
    table; the index it stores is then that of an entry with the name, and
    -1 otherwise. *)
Lemma FindOutputByName_from_spec (i : Z) (l : list PmLogFile_t) (name : cstring) :
  match FindOutputByName_from i l name with
  | (Some o, j) =>
      i <= j < i + Z.of_nat (List.length l)
      /\ nth_error l (Z.to_nat (j - i)) = Some o
      /\ outputName o = Some name
  | (None, j) => j = -1 /\ ~ In (Some name) (map outputName l)
  end.
Proof.
  revert i. induction l as [|o l IH]; intros i; cbn [FindOutputByName_from].
  - split; [reflexivity|]. simpl. tauto.
  - assert (Hrec :
      outputName o <> Some name ->
      match FindOutputByName_from (i + 1) l name with
      | (Some o', j) =>
          i <= j < i + Z.of_nat (List.length (o :: l))
          /\ nth_error (o :: l) (Z.to_nat (j - i)) = Some o'
          /\ outputName o' = Some name
      | (None, j) => j = -1 /\ ~ In (Some name) (map outputName (o :: l))
      end).
    { intros Hne. specialize (IH (i + 1)).
      destruct (FindOutputByName_from (i + 1) l name) as [[o'|] j].
      - destruct IH as (Hj & Hn & Ho). cbn [List.length]. repeat split; try lia.
        + replace (Z.to_nat (j - i)) with (S (Z.to_nat (j - (i + 1)))) by lia.
          exact Hn.
        + exact Ho.
      - destruct IH as (Hj & Hn). split; [exact Hj|].
        simpl. intros [Ho|Ho]; [congruence|auto]. }
    destruct (outputName o) as [n|] eqn:En.
    + unfold strcmp_eq. destruct (cstring_eqb n name) eqn:E.
      * apply cstring_eqb_eq in E. subst n. cbn [List.length].
        repeat split; try lia.
        -- rewrite Z.sub_diag. reflexivity.
        -- exact En.
      * apply cstring_eqb_neq in E. apply Hrec. congruence.
    + apply Hrec. discriminate.
Qed.


Lemma FindOutputByName_missing (st : conf) (name : cstring) :
  ~ In (Some name) (map outputName (g_outputConfs st)) ->
  FindOutputByName st name = (None, -1).
Proof.
  intros Hin. unfold FindOutputByName.
  pose proof (FindOutputByName_from_spec 0 (g_outputConfs st) name) as Hs.
  destruct (FindOutputByName_from 0 (g_outputConfs st) name) as [[o|] j].
  - destruct Hs as (_ & Hn & Ho). exfalso. apply Hin.
    apply nth_error_In in Hn. rewrite <- Ho. apply in_map. exact Hn.
  - destruct Hs as [-> _]. reflexivity.
Qed.

(** What [MakeOutputConf] does to the configuration: nothing when it fails;
    when it succeeds the file is an absolute path and the names of the
    table are those of before, with the new name behind them when it was
    not among them. *)
Lemma MakeOutputConf_spec (st st' : conf) (po po' : PmLogParseOutput_t) (b : bool) :
  MakeOutputConf H st po = (b, po', st') ->
  g_numContexts st' = g_numContexts st
  /\ g_contextConfs st' = g_contextConfs st
  /\ ((b = false /\ st' = st)
      \/ (b = true
          /\ (exists p, po_File po = "/"%char :: p)
          /\ ((In (Some (po_name po)) (map outputName (g_outputConfs st))
               /\ map outputName (g_outputConfs st') = map outputName (g_outputConfs st))
              \/ (~ In (Some (po_name po)) (map outputName (g_outputConfs st))
                  /\ (List.length (g_outputConfs st) < PMLOG_MAX_NUM_OUTPUTS H)%nat
                  /\ map outputName (g_outputConfs st') =
                     map outputName (g_outputConfs st) ++ [Some (po_name po)])))).
Proof.
  unfold MakeOutputConf.
  destruct (po_File po) as [|c p] eqn:EF; cbn [negb].
  { intros [= <- <- <-]. auto. }
  destruct (Ascii.eqb c "/") eqn:Ec; cbn [negb];
    [apply Ascii.eqb_eq in Ec; subst c|intros [= <- <- <-]; auto].
  pose proof (FindOutputByName_from_spec 0 (g_outputConfs st) (po_name po)) as Hf.
  unfold FindOutputByName.
  destruct (FindOutputByName_from 0 (g_outputConfs st) (po_name po)) as [[o|] j].
  - destruct Hf as (Hj & Hn & Ho).
    assert (Hin : In (Some (po_name po)) (map outputName (g_outputConfs st))).
    { apply nth_error_In in Hn. rewrite <- Ho. apply in_map. exact Hn. }
    destruct (is_uninit H (po_Rotations po));
      [|destruct (po_Rotations po <? PMLOG_MIN_NUM_ROTATIONS);
        [|destruct (PMLOG_MAX_NUM_ROTATIONS <? po_Rotations po)]];
      intros [= <- <- <-]; cbn [g_numContexts g_contextConfs g_outputConfs];
      (split; [reflexivity|split; [reflexivity|right]]);
      (split; [reflexivity|split; [eexists; reflexivity|left; split; [exact Hin|]]]);
      try reflexivity.
    apply update_nth_map. reflexivity.
  - destruct Hf as (_ & Hnin).
    destruct (PMLOG_MAX_NUM_OUTPUTS H <=? List.length (g_outputConfs st))%nat eqn:Em.
    { intros [= <- <- <-]. auto. }
    apply Nat.leb_gt in Em.
    destruct (is_uninit H (po_Rotations po));
      [|destruct (po_Rotations po <? PMLOG_MIN_NUM_ROTATIONS);
        [|destruct (PMLOG_MAX_NUM_ROTATIONS <? po_Rotations po)]];
      intros [= <- <- <-]; cbn [g_numContexts g_contextConfs g_outputConfs];
      (split; [reflexivity|split; [reflexivity|right]]);
      (split; [reflexivity|split; [eexists; reflexivity|right; split; [exact Hnin|]]]);
      (split; [exact Em|]);
      rewrite ?(update_nth_map outputName) by reflexivity;
      rewrite map_app; reflexivity.
Qed.

(** What [MakeContextConf] does: it returns true and leaves the outputs;
    with a tree, the context is then in the tree under its name, with the
    rules and the ring buffer of [parseContext], the keys of the tree being
    those of before with the name behind them when it was not among them;
    without a tree nothing is stored. *)
Lemma MakeContextConf_spec (st : conf) (pc : PmLogParseContext_t) :
  fst (MakeContextConf st pc) = true
  /\ g_outputConfs (snd (MakeContextConf st pc)) = g_outputConfs st
  /\ match g_contextConfs st with
     | None => g_contextConfs (snd (MakeContextConf st pc)) = None
     | Some t =>
         exists t' c,
           g_contextConfs (snd (MakeContextConf st pc)) = Some t'
           /\ assoc (pc_name pc) t' = Some c
           /\ rules c = map rule_of_parse (pc_rules pc)
           /\ rb c = RBNew (pc_bufferSize pc) (pc_flushLevel pc)
           /\ ((In (pc_name pc) (map fst t) /\ map fst t' = map fst t)
               \/ (~ In (pc_name pc) (map fst t)
                   /\ map fst t' = map fst t ++ [pc_name pc]))
     end.
Proof.
  unfold MakeContextConf.
  destruct (g_contextConfs st) as [t|] eqn:Et; cbn [g_tree_lookup].
  - destruct (assoc (pc_name pc) t) as [c|] eqn:Ea.
    + cbn [fst snd g_outputConfs g_contextConfs]. rewrite Et. cbn [tree_store].
      split; [reflexivity|split; [reflexivity|]].
      assert (Hin : In (pc_name pc) (map fst t)).
      { apply assoc_Some_In in Ea. apply (in_map fst) in Ea. exact Ea. }
      eexists; eexists. split; [reflexivity|].
      split; [apply assoc_tree_replace; exact Hin|].
      split; [reflexivity|split; [reflexivity|]].
      left. split; [exact Hin|apply tree_replace_keys].
    + unfold CreateContext. rewrite Et. cbn [g_tree_insert]. rewrite Ea.
      cbn [fst snd g_outputConfs g_contextConfs tree_store].
      split; [reflexivity|split; [reflexivity|]].
      assert (Hnin : ~ In (pc_name pc) (map fst t)) by (apply assoc_None; exact Ea).
      eexists; eexists. split; [reflexivity|].
      split.
      { apply assoc_tree_replace. rewrite map_app. apply in_or_app. right.
        left. reflexivity. }
      split; [reflexivity|split; [reflexivity|]].
      right. split; [exact Hnin|].
      rewrite tree_replace_keys, map_app. reflexivity.
  - unfold CreateContext. rewrite Et.
    cbn [g_tree_insert fst snd g_outputConfs g_contextConfs tree_store].
    auto.
Qed.




Lemma read_rules_retVal (st : conf) (kf : GKeyFile) (g : cstring) (n : nat) (j : Z)
  (pc : PmLogParseContext_t) :
  snd (read_rules H st kf g n j pc false) = false.
Proof.
  revert j pc. induction n as [|n IH]; intros j pc; cbn [read_rules]; [reflexivity|].
  destruct (g_key_file_get_string kf g (ruleName (j + 1))); [|reflexivity].
  destruct (ParseContextData H st pc (ruleName (j + 1)) c); [apply IH|reflexivity].
Qed.

(** The ring buffer keys of a group: freed twice exactly when [gerror] is
    other than NULL; otherwise [gerror] is NULL afterwards and [retVal] is
    not set back to true. *)
Lemma read_buffer_keys_gerror (kf : GKeyFile) (g : cstring)
  (pc : PmLogParseContext_t) (l : locals) :
  gerror l = true -> read_buffer_keys H kf g pc l = FreedTwice.
Proof. unfold read_buffer_keys. intros ->. reflexivity. Qed.

Lemma read_buffer_keys_returns (kf : GKeyFile) (g : cstring)
  (pc : PmLogParseContext_t) (l : locals) :
  gerror l = false ->
  exists pc' l',
    read_buffer_keys H kf g pc l = Returns (pc', l')
    /\ gerror l' = false
    /\ (retVal l = false -> retVal l' = false).
Proof.
  unfold read_buffer_keys. intros ->.
  destruct (g_key_file_get_string kf g (cs "BufferSize")) as [s|];
    try destruct (ParseSize s);
    destruct (g_key_file_get_string kf g (cs "FlushLevel")) as [s'|];
    try destruct (ParseLevel H s') as [[] ?];
    eexists; eexists; (split; [reflexivity|split; [reflexivity|]]);
    cbn [retVal]; auto.
Qed.

Lemma read_buffer_keys_Returns_inv (kf : GKeyFile) (g : cstring)
  (pc pc' : PmLogParseContext_t) (l l' : locals) :
  read_buffer_keys H kf g pc l = Returns (pc', l') ->
  gerror l = false /\ gerror l' = false /\ (retVal l = false -> retVal l' = false).
Proof.
  intros E. destruct (gerror l) eqn:Eg.
  - rewrite (read_buffer_keys_gerror kf g pc l Eg) in E. discriminate E.
  - destruct (read_buffer_keys_returns kf g pc l Eg) as (pc2 & l2 & E2 & Hg & Hr).
    rewrite E2 in E. injection E as <- <-. auto.
Qed.

Lemma MakeContextConf_fst (st : conf) (pc : PmLogParseContext_t) :
  MakeContextConf st pc = (true, snd (MakeContextConf st pc)).
Proof.
  unfold MakeContextConf.
  destruct (match g_tree_lookup (g_contextConfs st) (pc_name pc) with
            | Some c => (c, st)
            | None => CreateContext st (pc_name pc)
            end) as [c st1].
  reflexivity.
Qed.

Lemma CONTEXT_not_OUTPUT (g : cstring) :
  g_str_has_prefix g (cs "CONTEXT=") = true -> g_str_has_prefix g (cs "OUTPUT=") = false.
Proof.
  unfold g_str_has_prefix. simpl.
  destruct g as [|c g]; [discriminate|].
  destruct (Ascii.eqb c "C") eqn:E; [|discriminate].
  apply Ascii.eqb_eq in E. subst c. reflexivity.
Qed.

(** *** The loop over the groups, section by section *)

(** The three kinds of group. *)
Lemma groups_loop_output (kf : GKeyFile) (g : cstring) (groups : list cstring)
  (l : locals) (st : conf) :
  g_str_has_prefix g (cs "OUTPUT=") = true ->
  groups_loop H kf (g :: groups) l st =
  match MakeOutputConf H st (fst (output_section H kf g st)) with
  | (false, _, st') =>
      Returns ({| retVal := false; gerror := snd (output_section H kf g st) |}, st')
  | (true, _, st') =>
      groups_loop H kf groups
        {| retVal := retVal l; gerror := snd (output_section H kf g st) |} st'
  end.
Proof.
  intros Hp. cbn [groups_loop]. rewrite Hp. unfold output_section.
  destruct (ParseOutputInit H st (skipn 7 g)) as [b0 po0]. cbn [snd].
  destruct (read_output_keys kf g po0) as [po1 gerr]. reflexivity.
Qed.

Lemma groups_loop_context (kf : GKeyFile) (g : cstring) (groups : list cstring)
  (l : locals) (st : conf) :
  g_str_has_prefix g (cs "CONTEXT=") = true ->
  groups_loop H kf (g :: groups) l st =
  match context_section H kf g l st with
  | FreedTwice => FreedTwice
  | Returns (pc, l1) => groups_loop H kf groups l1 (snd (MakeContextConf st pc))
  end.
Proof.
  intros Hp. cbn [groups_loop].
  rewrite (CONTEXT_not_OUTPUT g Hp), Hp. unfold context_section.
  destruct (ParseContextInit H st (skipn 8 g)) as [b0 pc0]. cbn [snd].
  destruct (read_rules H st kf g (PMLOG_CONTEXT_MAX_NUM_RULES H) 0 pc0 (retVal l))
    as [pc1 rv].
  destruct (read_buffer_keys H kf g pc1 {| retVal := rv; gerror := gerror l |})
    as [[pc2 l1]|]; [|reflexivity].
  rewrite (MakeContextConf_fst st pc2). reflexivity.
Qed.

Lemma groups_loop_other (kf : GKeyFile) (g : cstring) (groups : list cstring)
  (l : locals) (st : conf) :
  recognised g = false ->
  groups_loop H kf (g :: groups) l st = groups_loop H kf groups l st.
Proof.
  unfold recognised. intros Hr. apply orb_false_iff in Hr. destruct Hr as [Ho Hc].
  cbn [groups_loop]. rewrite Ho, Hc. reflexivity.
Qed.

Lemma recognised_cases (g : cstring) :
  g_str_has_prefix g (cs "OUTPUT=") = true
  \/ g_str_has_prefix g (cs "CONTEXT=") = true
  \/ recognised g = false.
Proof.
  unfold recognised.
  destruct (g_str_has_prefix g (cs "OUTPUT=")); [tauto|].
  destruct (g_str_has_prefix g (cs "CONTEXT=")); tauto.
Qed.

(** A context section: it frees twice exactly when [gerror] is other than
    NULL, and otherwise leaves [gerror] NULL and [retVal] false when it was
    false. *)
Lemma context_section_gerror (kf : GKeyFile) (g : cstring) (l : locals) (st : conf) :
  gerror l = true -> context_section H kf g l st = FreedTwice.
Proof.
  intros Hg. unfold context_section.
  destruct (read_rules H st kf g (PMLOG_CONTEXT_MAX_NUM_RULES H) 0
              (snd (ParseContextInit H st (skipn 8 g))) (retVal l)) as [pc1 rv].
  apply read_buffer_keys_gerror. exact Hg.
Qed.

Lemma context_section_returns (kf : GKeyFile) (g : cstring) (l : locals) (st : conf) :
  gerror l = false ->
  exists pc l1,
    context_section H kf g l st = Returns (pc, l1)
    /\ gerror l1 = false
    /\ (retVal l = false -> retVal l1 = false).
Proof.
  intros Hg. unfold context_section.
  pose proof (read_rules_retVal st kf g (PMLOG_CONTEXT_MAX_NUM_RULES H) 0
                (snd (ParseContextInit H st (skipn 8 g)))) as Hrr.
  destruct (retVal l) eqn:Er.
  - destruct (read_rules H st kf g (PMLOG_CONTEXT_MAX_NUM_RULES H) 0
                (snd (ParseContextInit H st (skipn 8 g))) true) as [pc1 rv].
    destruct (read_buffer_keys_returns kf g pc1 {| retVal := rv; gerror := gerror l |} Hg)
      as (pc2 & l2 & E & Hg2 & _).
    exists pc2, l2. split; [exact E|]. split; [exact Hg2|discriminate].
  - destruct (read_rules H st kf g (PMLOG_CONTEXT_MAX_NUM_RULES H) 0
                (snd (ParseContextInit H st (skipn 8 g))) false) as [pc1 rv].
    cbn [snd] in Hrr. subst rv.
    destruct (read_buffer_keys_returns kf g pc1 {| retVal := false; gerror := gerror l |} Hg)
      as (pc2 & l2 & E & Hg2 & Hr2).
    exists pc2, l2. split; [exact E|]. split; [exact Hg2|]. intros _. apply Hr2. reflexivity.
Qed.

Lemma context_section_Returns_inv (kf : GKeyFile) (g : cstring) (l l1 : locals) (st : conf)
  (pc : PmLogParseContext_t) :
  context_section H kf g l st = Returns (pc, l1) ->
  gerror l = false /\ gerror l1 = false /\ (retVal l = false -> retVal l1 = false).
Proof.
  intros E. destruct (gerror l) eqn:Eg.
  - rewrite (context_section_gerror kf g l st Eg) in E. discriminate E.
  - destruct (context_section_returns kf g l st Eg) as (pc2 & l2 & E2 & Hg & Hr).
    rewrite E2 in E. injection E as <- <-. auto.
Qed.

(** [retVal] is never set back to true. *)
Lemma groups_loop_sticky (kf : GKeyFile) (groups : list cstring) (l l' : locals)
  (st st' : conf) :
  retVal l = false -> groups_loop H kf groups l st = Returns (l', st') -> retVal l' = false.
Proof.
  revert l st. induction groups as [|g groups IH]; intros l st Hr.
  - cbn [groups_loop]. intros [= <- <-]. exact Hr.
  - destruct (recognised_cases g) as [Hp|[Hp|Hp]].
    + rewrite (groups_loop_output kf g _ l st Hp).
      destruct (MakeOutputConf H st (fst (output_section H kf g st))) as [[[] po'] st1].
      * apply IH. exact Hr.
      * intros [= <- <-]. reflexivity.
    + rewrite (groups_loop_context kf g _ l st Hp).
      destruct (context_section H kf g l st) as [[pc l1]|] eqn:Ec; [|discriminate].
      apply IH. exact (proj2 (proj2 (context_section_Returns_inv _ _ _ _ _ _ Ec)) Hr).
    + rewrite (groups_loop_other kf g _ l st Hp). apply IH. exact Hr.
Qed.

(** The loop on a list of groups and on those behind it: it goes on from
    where it was after the first list, unless it has left the loop there,
    with [retVal] false, or has freed twice there. *)
Lemma groups_loop_app_cases (kf : GKeyFile) (pre post : list cstring)
  (l : locals) (st : conf) :
  match groups_loop H kf pre l st with
  | FreedTwice => groups_loop H kf (pre ++ post) l st = FreedTwice
  | Returns (l1, st1) =>
      groups_loop H kf (pre ++ post) l st = groups_loop H kf post l1 st1
      \/ (groups_loop H kf (pre ++ post) l st = Returns (l1, st1) /\ retVal l1 = false)
  end.
Proof.
  revert l st. induction pre as [|g pre IH]; intros l st; [left; reflexivity|].
  cbn [app].
  destruct (recognised_cases g) as [Hp|[Hp|Hp]].
  - rewrite !(groups_loop_output kf g _ l st Hp).
    destruct (MakeOutputConf H st (fst (output_section H kf g st))) as [[[] po'] st'].
    + apply IH.
    + right. split; reflexivity.
  - rewrite !(groups_loop_context kf g _ l st Hp).
    destruct (context_section H kf g l st) as [[pc l1]|]; [apply IH|reflexivity].
  - rewrite !(groups_loop_other kf g _ l st Hp). apply IH.
Qed.

(** When [retVal] is true after the groups of [pre], the loop has not been
    left there. *)
Lemma groups_loop_app_true (kf : GKeyFile) (pre post : list cstring)
  (l l1 : locals) (st st1 : conf) :
  groups_loop H kf pre l st = Returns (l1, st1) ->
  retVal l1 = true ->
  groups_loop H kf (pre ++ post) l st = groups_loop H kf post l1 st1.
Proof.
  intros E Hr. pose proof (groups_loop_app_cases kf pre post l st) as Hc.
  rewrite E in Hc. destruct Hc as [Hc|[_ Hf]]; [exact Hc|congruence].
Qed.

(** A property of the configuration that every section keeps holds of the
    configuration that the loop leaves when it returns. *)
Lemma groups_loop_invariant (P : conf -> Prop) (kf : GKeyFile) (groups : list cstring)
  (l l' : locals) (st st' : conf) :
  (forall st po b po' st', P st -> MakeOutputConf H st po = (b, po', st') -> P st') ->
  (forall g l st pc l1, P st -> context_section H kf g l st = Returns (pc, l1) ->
     P (snd (MakeContextConf st pc))) ->
  P st -> groups_loop H kf groups l st = Returns (l', st') -> P st'.
Proof.
  intros Hout Hctx. revert l st. induction groups as [|g groups IH]; intros l st HP.
  - cbn [groups_loop]. intros [= <- <-]. exact HP.
  - destruct (recognised_cases g) as [Hp|[Hp|Hp]].
    + rewrite (groups_loop_output kf g _ l st Hp).
      destruct (MakeOutputConf H st (fst (output_section H kf g st)))
        as [[b po'] st1] eqn:Em.
      pose proof (Hout _ _ _ _ _ HP Em) as HP'.
      destruct b; [apply IH; exact HP'|intros [= <- <-]; exact HP'].
    + rewrite (groups_loop_context kf g _ l st Hp).
      destruct (context_section H kf g l st) as [[pc l1]|] eqn:Ec; [|discriminate].
      apply IH. exact (Hctx _ _ _ _ _ HP Ec).
    + rewrite (groups_loop_other kf g _ l st Hp). apply IH. exact HP.
Qed.

(** What [ReadConfFile] returns is what the loop returns, with [gerror]
    NULL at its end. *)
Lemma ReadConfFile_Returns_inv (kf : GKeyFile) (st st' : conf) (b : bool) :
  ReadConfFile H (Some kf) st = Returns (b, st') ->
  exists l,
    groups_loop H kf (g_key_file_get_groups kf) {| retVal := true; gerror := false |} st
    = Returns (l, st')
    /\ retVal l = b /\ gerror l = false.
Proof.
  unfold ReadConfFile.
  destruct (groups_loop H kf (g_key_file_get_groups kf)
              {| retVal := true; gerror := false |} st) as [[l st1]|]; [|discriminate].
  destruct (gerror l) eqn:Eg; [discriminate|].
  intros [= <- <-]. exists l. auto.
Qed.

Lemma ReadConfFile_invariant (P : conf -> Prop) (file : option GKeyFile) (st st' : conf)
  (b : bool) :
  (forall st po b po' st', P st -> MakeOutputConf H st po = (b, po', st') -> P st') ->
  (forall kf g l st pc l1, P st -> context_section H kf g l st = Returns (pc, l1) ->
     P (snd (MakeContextConf st pc))) ->
  P st -> ReadConfFile H file st = Returns (b, st') -> P st'.
Proof.
  intros Hout Hctx HP. destruct file as [kf|].
  - intros E. destruct (ReadConfFile_Returns_inv kf st st' b E) as (l & El & _).
    exact (groups_loop_invariant P kf _ _ _ _ _ Hout (Hctx kf) HP El).
  - cbn [ReadConfFile]. intros [= <- <-]. exact HP.
Qed.

(** The loop returns, with [gerror] NULL, when every [OUTPUT=] group has a
    Rotations key that reads as an integer. *)
Lemma output_section_gerror (kf : GKeyFile) (g : cstring) (st : conf) :
  snd (output_section H kf g st) =
  match g_key_file_get_integer kf g (cs "Rotations") with
  | Some _ => false
  | None => true
  end.
Proof.
  unfold output_section, read_output_keys.
  destruct (g_key_file_get_integer kf g (cs "Rotations")); reflexivity.
Qed.

Lemma groups_loop_returns (kf : GKeyFile) (groups : list cstring) (l : locals) (st : conf) :
  (forall g, In g groups -> g_str_has_prefix g (cs "OUTPUT=") = true ->
             g_key_file_get_integer kf g (cs "Rotations") <> None) ->
  gerror l = false ->
  exists l' st', groups_loop H kf groups l st = Returns (l', st') /\ gerror l' = false.
Proof.
  revert l st. induction groups as [|g groups IH]; intros l st Hrot Hg.
  - exists l, st. split; [reflexivity|exact Hg].
  - assert (Hrot' : forall g', In g' groups -> g_str_has_prefix g' (cs "OUTPUT=") = true ->
                               g_key_file_get_integer kf g' (cs "Rotations") <> None).
    { intros g' Hin. apply Hrot. right. exact Hin. }
    destruct (recognised_cases g) as [Hp|[Hp|Hp]].
    + rewrite (groups_loop_output kf g _ l st Hp).
      assert (Hge : snd (output_section H kf g st) = false).
      { rewrite output_section_gerror.
        destruct (g_key_file_get_integer kf g (cs "Rotations")) eqn:Er; [reflexivity|].
        exfalso. exact (Hrot g (or_introl eq_refl) Hp Er). }
      rewrite Hge.
      destruct (MakeOutputConf H st (fst (output_section H kf g st))) as [[[] po'] st1].
      * apply IH; [exact Hrot'|reflexivity].
      * eexists; eexists. split; reflexivity.
    + rewrite (groups_loop_context kf g _ l st Hp).
      destruct (context_section_returns kf g l st Hg) as (pc & l1 & -> & Hg1 & _).
      apply IH; [exact Hrot'|exact Hg1].
    + rewrite (groups_loop_other kf g _ l st Hp). apply IH; [exact Hrot'|exact Hg].
Qed.

Lemma ReadConfFile_returns (kf : GKeyFile) (st : conf) :
  Rotations_readable kf -> exists b st', ReadConfFile H (Some kf) st = Returns (b, st').
Proof.
  intros Hrot. unfold ReadConfFile.
  destruct (groups_loop_returns kf (g_key_file_get_groups kf)
              {| retVal := true; gerror := false |} st Hrot eq_refl) as (l & st' & -> & ->).
  eexists; eexists. reflexivity.
Qed.


End Tables.

(** ** The sections of a file *)

Section Sections.

Variable H : main_h.

Lemma ParseOutputInit_File (st : conf) (name : cstring) :
  po_File (snd (ParseOutputInit H st name)) = [].
Proof.
  unfold ParseOutputInit.
  destruct ((g_numOutputs st =? 0) && negb (strcmp_eq PMLOG_OUTPUT_STDLOG name));
    reflexivity.
Qed.

Lemma read_output_keys_fields (kf : GKeyFile) (g : cstring) (po : PmLogParseOutput_t) :
  po_name (fst (read_output_keys kf g po)) = po_name po
  /\ po_File (fst (read_output_keys kf g po)) =
     match g_key_file_get_string kf g (cs "File") with
     | Some str => strncpy_field (PATH_MAX - 1) str
     | None => po_File po
     end.
Proof.
  unfold read_output_keys.
  destruct (g_key_file_get_string kf g (cs "File")) as [f|];
    destruct (g_key_file_get_string kf g (cs "MaxSize")) as [m|];
    try destruct (ParseSize m);
    destruct (g_key_file_get_integer kf g (cs "Rotations")); split; reflexivity.
Qed.

Lemma strncpy_field_head (c : ascii) (s : cstring) :
  exists s', strncpy_field (PATH_MAX - 1) (c :: s) = c :: s'.
Proof.
  unfold strncpy_field. change (PATH_MAX - 1)%nat with (S (PATH_MAX - 2)).
  cbn [firstn]. eexists. reflexivity.
Qed.

(** A section with a missing or relative File fails in [MakeOutputConf],
    whatever the configuration is. *)
Lemma MakeOutputConf_bad_File (kf : GKeyFile) (g : cstring) (st : conf) :
  bad_File kf g ->
  exists po,
    MakeOutputConf H st
      (fst (read_output_keys kf g (snd (ParseOutputInit H st (skipn 7 g)))))
    = (false, po, st).
Proof.
  intros Hbad. unfold bad_File in Hbad.
  destruct (read_output_keys_fields kf g (snd (ParseOutputInit H st (skipn 7 g))))
    as [_ HF].
  rewrite ParseOutputInit_File in HF.
  unfold MakeOutputConf.
  destruct (g_key_file_get_string kf g (cs "File")) as [[|c s]|].
  - unfold strncpy_field in HF. rewrite firstn_nil in HF. rewrite HF.
    eexists. reflexivity.
  - destruct (strncpy_field_head c s) as [s' Hs]. rewrite Hs in HF. rewrite HF.
    destruct (Ascii.eqb c "/") eqn:E; [apply Ascii.eqb_eq in E; contradiction|].
    eexists. reflexivity.
  - rewrite HF. eexists. reflexivity.
Qed.

(** The loop ends at such a section with [retVal] false: the groups behind
    it are not looked at. *)
Lemma groups_loop_bad_File (kf : GKeyFile) (pre post : list cstring) (g : cstring)
  (l : locals) (st : conf) :
  g_str_has_prefix g (cs "OUTPUT=") = true ->
  bad_File kf g ->
  groups_loop H kf (pre ++ g :: post) l st = groups_loop H kf (pre ++ [g]) l st
  /\ forall l' st', groups_loop H kf (pre ++ g :: post) l st = Returns (l', st') ->
                    retVal l' = false.
Proof.
  intros Hp Hbad. revert l st.
  induction pre as [|p pre IH]; intros l st.
  - cbn [app]. rewrite !(groups_loop_output H kf g _ l st Hp).
    destruct (MakeOutputConf_bad_File kf g st Hbad) as [po Hm].
    unfold output_section. rewrite Hm.
    split; [reflexivity|]. intros l' st' [= <- <-]. reflexivity.
  - cbn [app].
    destruct (recognised_cases p) as [Hq|[Hq|Hq]].
    + rewrite !(groups_loop_output H kf p _ l st Hq).
      destruct (MakeOutputConf H st (fst (output_section H kf p st))) as [[[] po'] st1];
        [apply IH|].
      split; [reflexivity|]. intros l' st' [= <- <-]. reflexivity.
    + rewrite !(groups_loop_context H kf p _ l st Hq).
      destruct (context_section H kf p l st) as [[pc l1]|]; [apply IH|].
      split; [reflexivity|]. intros l' st' E. discriminate E.
    + rewrite !(groups_loop_other H kf p _ l st Hq). apply IH.
Qed.

(** When the loop comes to such a section it is left there, with [gerror]
    other than NULL exactly when the Rotations of the section could not be
    read. *)
Lemma groups_loop_bad_File_reached (kf : GKeyFile) (pre post : list cstring) (g : cstring)
  (l l1 : locals) (st st1 : conf) :
  g_str_has_prefix g (cs "OUTPUT=") = true ->
  bad_File kf g ->
  groups_loop H kf pre l st = Returns (l1, st1) ->
  retVal l1 = true ->
  groups_loop H kf (pre ++ g :: post) l st =
  Returns ({| retVal := false;
              gerror := match g_key_file_get_integer kf g (cs "Rotations") with
                        | Some _ => false
                        | None => true
                        end |}, st1).
Proof.
  intros Hp Hbad E Hr.
  rewrite (groups_loop_app_true H kf pre (g :: post) l l1 st st1 E Hr).
  rewrite (groups_loop_output H kf g _ l1 st1 Hp).
  destruct (MakeOutputConf_bad_File kf g st1 Hbad) as [po Hm].
  unfold output_section in *. rewrite Hm.
  unfold read_output_keys.
  destruct (g_key_file_get_integer kf g (cs "Rotations")); reflexivity.
Qed.

Lemma MakeOutputConf_true (st : conf) (po : PmLogParseOutput_t) (p : cstring) :
  po_File po = "/"%char :: p ->
  (List.length (g_outputConfs st) < PMLOG_MAX_NUM_OUTPUTS H)%nat ->
  exists po' st', MakeOutputConf H st po = (true, po', st').
Proof.
  intros HF Hroom. unfold MakeOutputConf. rewrite HF. cbn [Ascii.eqb Bool.eqb negb].
  destruct (FindOutputByName st (po_name po)) as [[o|] j].
  - destruct (is_uninit H (po_Rotations po));
      [|destruct (po_Rotations po <? PMLOG_MIN_NUM_ROTATIONS);
        [|destruct (PMLOG_MAX_NUM_ROTATIONS <? po_Rotations po)]];
      eexists; eexists; reflexivity.
  - destruct (PMLOG_MAX_NUM_OUTPUTS H <=? List.length (g_outputConfs st))%nat eqn:E;
      [apply Nat.leb_le in E; lia|].
    destruct (is_uninit H (po_Rotations po));
      [|destruct (po_Rotations po <? PMLOG_MIN_NUM_ROTATIONS);
        [|destruct (PMLOG_MAX_NUM_ROTATIONS <? po_Rotations po)]];
      eexists; eexists; reflexivity.
Qed.

(** An [OUTPUT=] group that is not the first: its name is cut to the length
    of the name array and the section goes on with the name so cut. *)
Lemma output_group_name_cut (kf : GKeyFile) (g p : cstring) (l : locals) (st : conf) :
  g_str_has_prefix g (cs "OUTPUT=") = true ->
  g_outputConfs st <> [] ->
  g_key_file_get_string kf g (cs "File") = Some ("/"%char :: p) ->
  (List.length (g_outputConfs st) < PMLOG_MAX_NUM_OUTPUTS H)%nat ->
  fst (ParseOutputInit H st (skipn 7 g)) = true
  /\ po_name (snd (ParseOutputInit H st (skipn 7 g))) =
     firstn (PMLOG_OUTPUT_MAX_NAME_LENGTH H) (c_str (skipn 7 g))
  /\ exists l' st',
       groups_loop H kf [g] l st = Returns (l', st')
       /\ retVal l' = retVal l
       /\ In (Some (firstn (PMLOG_OUTPUT_MAX_NAME_LENGTH H) (c_str (skipn 7 g))))
             (map outputName (g_outputConfs st')).
Proof.
  intros Hp Hne HF Hroom.
  assert (Hinit : ParseOutputInit H st (skipn 7 g) =
            (true,
             {| po_name := firstn (PMLOG_OUTPUT_MAX_NAME_LENGTH H) (c_str (skipn 7 g));
                po_File := [];
                po_MaxSize := CONF_INT_UNINIT_VALUE H;
                po_Rotations := CONF_INT_UNINIT_VALUE H |})).
  { unfold ParseOutputInit, g_numOutputs.
    destruct (g_outputConfs st) as [|o os]; [congruence|].
    cbn [List.length]. rewrite Nat2Z.inj_succ.
    destruct (Z.succ (Z.of_nat (List.length os)) =? 0) eqn:E;
      [apply Z.eqb_eq in E; lia|].
    cbn [andb]. rewrite mystrcpy_field_spec by lia.
    replace (PMLOG_OUTPUT_MAX_NAME_LENGTH H + 1 - 1)%nat
      with (PMLOG_OUTPUT_MAX_NAME_LENGTH H) by lia.
    reflexivity. }
  rewrite Hinit. cbn [fst snd po_name].
  split; [reflexivity|split; [reflexivity|]].
  cbn [groups_loop]. rewrite Hp, Hinit.
  match goal with
  | |- context [read_output_keys kf g ?po0] =>
      destruct (read_output_keys_fields kf g po0) as [Hn Hf];
      destruct (read_output_keys kf g po0) as [po1 gerr]
  end.
  cbn [fst po_name po_File] in Hn, Hf. rewrite HF in Hf.
  destruct (strncpy_field_head "/" p) as [p' Hp']. rewrite Hp' in Hf.
  destruct (MakeOutputConf_true st po1 p' Hf Hroom) as (po' & st' & Hm).
  rewrite Hm. eexists; eexists. split; [reflexivity|]. split; [reflexivity|].
  destruct (MakeOutputConf_spec H _ _ _ _ _ Hm) as (_ & _ & Hcase).
  destruct Hcase as [[Hb _]|(_ & _ & Hnames)]; [discriminate|].
  rewrite Hn in Hnames.
  destruct Hnames as [[Hin ->]|(_ & _ & ->)]; [exact Hin|].
  apply in_or_app. right. left. reflexivity.
Qed.

Lemma ParseContextData_name (st : conf) (pc pc' : PmLogParseContext_t) (key val : cstring) :
  ParseContextData H st pc key val = Some pc' ->
  pc_name pc' = pc_name pc
  /\ pc_bufferSize pc' = pc_bufferSize pc
  /\ pc_flushLevel pc' = pc_flushLevel pc.
Proof.
  unfold ParseContextData.
  repeat match goal with
         | |- context [match ?x with _ => _ end] => destruct x
         | |- context [if ?x then _ else _] => destruct x
         end;
    intros E; try discriminate E; injection E as <-; repeat split; reflexivity.
Qed.

Lemma read_rules_name (st : conf) (kf : GKeyFile) (g : cstring) (n : nat) (j : Z)
  (pc : PmLogParseContext_t) (rv : bool) :
  pc_name (fst (read_rules H st kf g n j pc rv)) = pc_name pc
  /\ pc_bufferSize (fst (read_rules H st kf g n j pc rv)) = pc_bufferSize pc
  /\ pc_flushLevel (fst (read_rules H st kf g n j pc rv)) = pc_flushLevel pc.
Proof.
  revert j pc. induction n as [|n IH]; intros j pc; cbn [read_rules];
    [repeat split; reflexivity|].
  destruct (g_key_file_get_string kf g (ruleName (j + 1))) as [str|];
    [|repeat split; reflexivity].
  destruct (ParseContextData H st pc (ruleName (j + 1)) str) as [pc'|] eqn:E;
    [|repeat split; reflexivity].
  destruct (ParseContextData_name _ _ _ _ _ E) as (E1 & E2 & E3).
  destruct (IH (j + 1) pc') as (I1 & I2 & I3).
  rewrite I1, I2, I3. repeat split; assumption.
Qed.

Lemma read_buffer_keys_name (kf : GKeyFile) (g : cstring)
  (pc pc' : PmLogParseContext_t) (l l' : locals) :
  read_buffer_keys H kf g pc l = Returns (pc', l') ->
  pc_name pc' = pc_name pc /\ pc_rules pc' = pc_rules pc.
Proof.
  unfold read_buffer_keys.
  destruct (gerror l); [discriminate|].
  destruct (g_key_file_get_string kf g (cs "BufferSize")) as [s|];
    try destruct (ParseSize s);
    destruct (g_key_file_get_string kf g (cs "FlushLevel")) as [s'|];
    try destruct (ParseLevel H s') as [[] ?];
    intros [= <- <-]; split; reflexivity.
Qed.

(** A [CONTEXT=] group that is not the first: its name is cut to the length
    of the name array and the context is stored under the name so cut. *)
Lemma context_group_name_cut (kf : GKeyFile) (g : cstring) (l : locals) (st : conf)
  (t : GTree PmLogContextConf_t) :
  g_str_has_prefix g (cs "CONTEXT=") = true ->
  g_numContexts st <> 0 ->
  g_contextConfs st = Some t ->
  gerror l = false ->
  fst (ParseContextInit H st (skipn 8 g)) = true
  /\ pc_name (snd (ParseContextInit H st (skipn 8 g))) =
     firstn (PMLOG_MAX_CONTEXT_NAME_LEN H) (c_str (skipn 8 g))
  /\ exists l' st' c,
       groups_loop H kf [g] l st = Returns (l', st')
       /\ g_tree_lookup (g_contextConfs st')
            (firstn (PMLOG_MAX_CONTEXT_NAME_LEN H) (c_str (skipn 8 g))) = Some c.
Proof.
  intros Hp Hn Ht Hg.
  assert (Hinit : ParseContextInit H st (skipn 8 g) =
            (true,
             {| pc_name := firstn (PMLOG_MAX_CONTEXT_NAME_LEN H) (c_str (skipn 8 g));
                pc_rules := []; pc_bufferSize := 0; pc_flushLevel := 0 |})).
  { unfold ParseContextInit.
    destruct (g_numContexts st =? 0) eqn:E; [apply Z.eqb_eq in E; contradiction|].
    cbn [andb]. rewrite mystrcpy_field_spec by lia.
    replace (PMLOG_MAX_CONTEXT_NAME_LEN H + 1 - 1)%nat
      with (PMLOG_MAX_CONTEXT_NAME_LEN H) by lia.
    reflexivity. }
  rewrite Hinit. cbn [fst snd pc_name].
  split; [reflexivity|split; [reflexivity|]].
  rewrite (groups_loop_context H kf g [] l st Hp).
  destruct (context_section_returns H kf g l st Hg) as (pc2 & l1 & Ec & _).
  rewrite Ec. cbn [groups_loop].
  assert (Hname : pc_name pc2 = firstn (PMLOG_MAX_CONTEXT_NAME_LEN H) (c_str (skipn 8 g))).
  { unfold context_section in Ec. rewrite Hinit in Ec. cbn [snd] in Ec.
    match type of Ec with
    | context [read_rules H st kf g ?n ?j ?pc0 ?rv] =>
        destruct (read_rules_name st kf g n j pc0 rv) as (Hn1 & _);
        destruct (read_rules H st kf g n j pc0 rv) as [pc1 rv1]
    end.
    cbn [fst pc_name] in Hn1.
    destruct (read_buffer_keys_name _ _ _ _ _ _ Ec) as [Hn2 _].
    rewrite Hn2. exact Hn1. }
  destruct (MakeContextConf_spec st pc2) as (_ & _ & Htree).
  rewrite Ht in Htree. destruct Htree as (t' & c & Ht' & Ha & _).
  exists l1, (snd (MakeContextConf st pc2)), c. split; [reflexivity|].
  rewrite Ht'. cbn [g_tree_lookup]. rewrite <- Hname. exact Ha.
Qed.

End Sections.

(** ** Rule values *)

Section Rules.

Variable H : main_h.

Lemma GetTokenToSep_loop_token (tok rest token : cstring) (size : nat) :
  no_sep tok = true ->
  match rest with [] => True | c :: _ => strchr (cs ".,") c = true end ->
  GetTokenToSep_loop (tok ++ rest) token size (cs ".,") =
  (token ++ firstn (size - 1 - List.length token) tok, rest).
Proof.
  revert token. induction tok as [|c tok IH]; intros token Hns Hrest.
  - cbn [app]. rewrite firstn_nil, List.app_nil_r.
    destruct rest as [|r rest]; [reflexivity|].
    cbn [GetTokenToSep_loop]. rewrite Hrest. reflexivity.
  - cbn [no_sep forallb] in Hns. apply andb_true_iff in Hns. destruct Hns as [Hc Hns].
    apply negb_true_iff in Hc.
    cbn [app GetTokenToSep_loop]. rewrite Hc.
    rewrite IH by assumption.
    destruct (size <=? List.length token + 1)%nat eqn:E.
    + apply Nat.leb_le in E.
      replace (size - 1 - List.length token)%nat with 0%nat by lia. reflexivity.
    + apply Nat.leb_gt in E. rewrite length_app. cbn [List.length].
      replace (size - 1 - List.length token)%nat
        with (S (size - 1 - (List.length token + 1))) by lia.
      cbn [firstn]. rewrite <- app_assoc. reflexivity.
Qed.

(** A token that a separator follows, and a token at the end of the
    string: the token is cut to 31 characters. *)
Lemma GetTokenToSep_sep (tok rest : cstring) (sep : ascii) :
  no_sep tok = true -> strchr (cs ".,") sep = true ->
  GetTokenToSep (tok ++ sep :: rest) 32 (cs ".,") = (firstn 31 tok, sep, rest).
Proof.
  intros Hns Hsep. unfold GetTokenToSep.
  rewrite (GetTokenToSep_loop_token tok (sep :: rest) [] 32 Hns Hsep). reflexivity.
Qed.

Lemma GetTokenToSep_end (tok : cstring) :
  no_sep tok = true ->
  GetTokenToSep tok 32 (cs ".,") = (firstn 31 tok, NUL, []).
Proof.
  intros Hns. unfold GetTokenToSep.
  rewrite <- (List.app_nil_r tok) at 1.
  rewrite (GetTokenToSep_loop_token tok [] [] 32 Hns I). reflexivity.
Qed.

(** Every string is a token without separators and then either nothing or
    a separator and a rest. *)
Lemma split_at_sep (s : cstring) :
  exists tok, no_sep tok = true
    /\ (s = tok \/ exists sep rest, strchr (cs ".,") sep = true /\ s = tok ++ sep :: rest).
Proof.
  induction s as [|c s IH].
  - exists []. split; [reflexivity|left; reflexivity].
  - destruct (strchr (cs ".,") c) eqn:Ec.
    + exists []. split; [reflexivity|]. right. exists c, s. split; [exact Ec|reflexivity].
    + destruct IH as (tok & Hns & Hs). exists (c :: tok). split.
      * cbn [no_sep forallb]. rewrite Ec. exact Hns.
      * destruct Hs as [->|(sep & rest & Hsep & ->)]; [left; reflexivity|].
        right. exists sep, rest. split; [exact Hsep|reflexivity].
Qed.

Lemma sep_cases (c : ascii) : strchr (cs ".,") c = true -> c = "."%char \/ c = ","%char.
Proof.
  cbn [strchr cs list_ascii_of_string existsb]. intros E.
  apply orb_true_iff in E. destruct E as [E|E]; [left; apply Ascii.eqb_eq; exact E|].
  apply orb_true_iff in E. destruct E as [E|E]; [right; apply Ascii.eqb_eq; exact E|].
  discriminate.
Qed.

Lemma ParseContextData_stages (st : conf) (pc : PmLogParseContext_t) (key val : cstring) :
  ParseContextData H st pc key val =
  match parse_filter H val with
  | None => None
  | Some f => parse_output st pc f
  end.
Proof.
  unfold ParseContextData, parse_filter, parse_output.
  repeat match goal with
         | |- context [match ?x with _ => _ end] => destruct x
         | |- context [if ?x then _ else _] => destruct x
         end; reflexivity.
Qed.

Lemma after_comma_token (tok rest : cstring) :
  no_sep tok = true -> after_comma (tok ++ rest) = after_comma rest.
Proof.
  induction tok as [|c tok IH]; intros Hns; [reflexivity|].
  cbn [no_sep forallb] in Hns. apply andb_true_iff in Hns. destruct Hns as [Hc Hns].
  cbn [app after_comma].
  destruct (Ascii.eqb c ",") eqn:E; [|apply IH; exact Hns].
  apply Ascii.eqb_eq in E. subst c. discriminate Hc.
Qed.

(** When the filter parses, the text it leaves is what follows the first
    comma of the value. *)
Lemma parse_filter_after_comma (val s prog : cstring) (fac lvl : Z) (inv : bool) :
  parse_filter H val = Some (fac, lvl, inv, prog, s) -> after_comma val = Some s.
Proof.
  unfold parse_filter.
  destruct (split_at_sep val) as (tok1 & Hn1 & [->|(sep1 & rest1 & Hs1 & ->)]).
  { rewrite (GetTokenToSep_end tok1 Hn1).
    destruct (ParseRuleFacility H (firstn 31 tok1)); [|discriminate].
    cbn. discriminate. }
  rewrite (GetTokenToSep_sep tok1 rest1 sep1 Hn1 Hs1).
  destruct (ParseRuleFacility H (firstn 31 tok1)) as [f|]; [|discriminate].
  rewrite (after_comma_token tok1 _ Hn1).
  destruct (sep_cases sep1 Hs1) as [->| ->].
  2:{ cbn. intros [= _ _ _ _ <-]. reflexivity. }
  change (Ascii.eqb "." ".") with true. cbv beta iota.
  assert (Hlevel : forall (i : bool) (s2 : cstring),
    match
      (let '(token, sep, s0) := GetTokenToSep s2 32 (cs ".,") in
       match ParseRuleLevel H token with
       | Some lvl0 => Some (i, lvl0, sep, s0)
       | None => None
       end)
    with
    | Some (inv0, lvl0, sep, s0) =>
        let '(prog0, sep0, s1) :=
          if Ascii.eqb sep "."
          then
            let '(token, sep0, s1) := GetTokenToSep s0 32 (cs ".,") in
            (mystrcpy_field (PMLOG_PROGRAM_MAX_NAME_LENGTH H + 1) token, sep0, s1)
          else ([], sep, s0) in
        if negb (Ascii.eqb sep0 ",") then None else Some (f, lvl0, inv0, prog0, s1)
    | None => None
    end = Some (fac, lvl, inv, prog, s) -> after_comma s2 = Some s).
  { intros i s2.
    destruct (split_at_sep s2) as (tok2 & Hn2 & [->|(sep2 & rest2 & Hs2 & ->)]).
    { rewrite (GetTokenToSep_end tok2 Hn2).
      destruct (ParseRuleLevel H (firstn 31 tok2)); [|discriminate]. cbn. discriminate. }
    rewrite (GetTokenToSep_sep tok2 rest2 sep2 Hn2 Hs2).
    destruct (ParseRuleLevel H (firstn 31 tok2)) as [l|]; [|discriminate].
    rewrite (after_comma_token tok2 _ Hn2).
    destruct (sep_cases sep2 Hs2) as [->| ->].
    2:{ cbn. intros [= _ _ _ _ <-]. reflexivity. }
    change (Ascii.eqb "." ".") with true. cbv beta iota.
    destruct (split_at_sep rest2) as (tok3 & Hn3 & [->|(sep3 & rest3 & Hs3 & ->)]).
    { rewrite (GetTokenToSep_end tok3 Hn3). cbn. discriminate. }
    rewrite (GetTokenToSep_sep tok3 rest3 sep3 Hn3 Hs3).
    destruct (sep_cases sep3 Hs3) as [->| ->]; [cbn; discriminate|].
    cbn [after_comma]. change (Ascii.eqb "." ",") with false. cbv beta iota.
    rewrite (after_comma_token tok3 _ Hn3).
    cbn. intros [= _ _ _ _ <-]. reflexivity. }
  cbn [after_comma]. change (Ascii.eqb "." ",") with false. cbv beta iota.
  unfold skip_char.
  destruct rest1 as [|c1 r1]; [apply (Hlevel false [])|].
  destruct (Ascii.eqb c1 "!") eqn:Eb.
  - apply Ascii.eqb_eq in Eb. subst c1. intros Hp.
    cbn [after_comma]. change (Ascii.eqb "!" ",") with false. cbv beta iota.
    apply (Hlevel true r1). exact Hp.
  - apply (Hlevel false (c1 :: r1)).
Qed.

(** When the output parses, the text is a name without separators, maybe
    behind a '-', and its first 31 characters are the name of an output of
    the table. *)
Lemma parse_output_found (st : conf) (pc pc' : PmLogParseContext_t)
  (fac lvl : Z) (inv : bool) (prog s : cstring) :
  parse_output st pc (fac, lvl, inv, prog, s) = Some pc' ->
  In (Some (firstn 31 (after_comma_name s))) (map outputName (g_outputConfs st)).
Proof.
  unfold parse_output.
  assert (Hgen : forall (omit : bool) (name : cstring),
    (let '(token, sep, _) := GetTokenToSep name 32 (cs ".,") in
     match FindOutputByName st token with
     | (None, _) => None
     | (Some _, idx) =>
         if negb (Ascii.eqb sep NUL) then None
         else
           Some {| pc_name := pc_name pc;
                   pc_rules :=
                     pc_rules pc ++
                     [ {| pr_facility := fac; pr_level := lvl; pr_levelInvert := inv;
                          pr_program := prog; pr_outputIndex := idx;
                          pr_omitOutput := omit |} ];
                   pc_bufferSize := pc_bufferSize pc;
                   pc_flushLevel := pc_flushLevel pc |}
     end) = Some pc' ->
    In (Some (firstn 31 name)) (map outputName (g_outputConfs st))).
  { intros omit name.
    destruct (split_at_sep name) as (tok & Hn & [->|(sep & rest & Hs & ->)]).
    - rewrite (GetTokenToSep_end tok Hn). unfold FindOutputByName.
      pose proof (FindOutputByName_from_spec 0 (g_outputConfs st) (firstn 31 tok)) as Hf.
      destruct (FindOutputByName_from 0 (g_outputConfs st) (firstn 31 tok)) as [[o|] j];
        [|discriminate].
      intros _. destruct Hf as (_ & Hnth & Ho).
      apply nth_error_In in Hnth. apply in_map_iff. exists o. split; assumption.
    - rewrite (GetTokenToSep_sep tok rest sep Hn Hs).
      destruct (FindOutputByName st (firstn 31 tok)) as [[o|] j]; [|discriminate].
      destruct (sep_cases sep Hs) as [->| ->]; cbn; discriminate. }
  unfold after_comma_name, skip_char.
  destruct s as [|c r]; [apply (Hgen false [])|].
  destruct (Ascii.eqb c "-"); [apply (Hgen true r)|apply (Hgen false (c :: r))].
Qed.

(** A rule whose output name, cut to the 31 characters of a token, is not
    the name of an output of the table does not parse. *)
Lemma ParseContextData_unknown_output (st : conf) (pc : PmLogParseContext_t)
  (key val : cstring) :
  ~ In (Some (firstn 31 (rule_output_name val))) (map outputName (g_outputConfs st)) ->
  ParseContextData H st pc key val = None.
Proof.
  intros Hnin. rewrite ParseContextData_stages.
  destruct (parse_filter H val) as [[[[[fac lvl] inv] prog] s]|] eqn:Ef; [|reflexivity].
  destruct (parse_output st pc (fac, lvl, inv, prog, s)) as [pc'|] eqn:Eo; [|reflexivity].
  exfalso. apply Hnin.
  apply parse_filter_after_comma in Ef. apply parse_output_found in Eo.
  unfold rule_output_name. rewrite Ef. exact Eo.
Qed.

(** The loop over the rules ends with [retVal] false when one of the rules
    it comes to does not parse. *)
Lemma read_rules_fails (st : conf) (kf : GKeyFile) (g v : cstring) (k : Z)
  (n : nat) (j : Z) (pc : PmLogParseContext_t) (rv : bool) :
  j < k <= j + Z.of_nat n ->
  (forall i, j < i <= k -> g_key_file_get_string kf g (ruleName i) <> None) ->
  g_key_file_get_string kf g (ruleName k) = Some v ->
  (forall pc', ParseContextData H st pc' (ruleName k) v = None) ->
  snd (read_rules H st kf g n j pc rv) = false.
Proof.
  revert j pc. induction n as [|n IH]; intros j pc Hk Hpres Hv Hbad; [lia|].
  cbn [read_rules].
  destruct (g_key_file_get_string kf g (ruleName (j + 1))) as [str|] eqn:Es.
  2:{ exfalso. apply (Hpres (j + 1)); [lia|exact Es]. }
  destruct (ParseContextData H st pc (ruleName (j + 1)) str) as [pc'|] eqn:Ep;
    [|reflexivity].
  destruct (Z.eq_dec k (j + 1)) as [->|Hne].
  - rewrite Hv in Es. injection Es as <-. rewrite Hbad in Ep. discriminate.
  - apply IH; try assumption; [lia|]. intros i Hi. apply Hpres. lia.
Qed.

(** A [CONTEXT=] group with such a rule leaves [retVal] false at the end of
    the loop over the groups. *)
Lemma context_section_unknown_output (kf : GKeyFile) (g v : cstring) (k : Z)
  (l l1 : locals) (st : conf) (pc : PmLogParseContext_t) :
  1 <= k <= Z.of_nat (PMLOG_CONTEXT_MAX_NUM_RULES H) ->
  (forall i, 1 <= i <= k -> g_key_file_get_string kf g (ruleName i) <> None) ->
  g_key_file_get_string kf g (ruleName k) = Some v ->
  ~ In (Some (firstn 31 (rule_output_name v))) (map outputName (g_outputConfs st)) ->
  context_section H kf g l st = Returns (pc, l1) ->
  retVal l1 = false.
Proof.
  intros Hk Hpres Hv Hnin. unfold context_section.
  pose proof (read_rules_fails st kf g v k (PMLOG_CONTEXT_MAX_NUM_RULES H) 0
                (snd (ParseContextInit H st (skipn 8 g)))
                (retVal l) ltac:(lia) ltac:(intros i Hi; apply Hpres; lia) Hv
                (fun pc' => ParseContextData_unknown_output st pc' _ v Hnin)) as Hr.
  destruct (read_rules H st kf g (PMLOG_CONTEXT_MAX_NUM_RULES H) 0
              (snd (ParseContextInit H st (skipn 8 g))) (retVal l)) as [pc1 rv].
  cbn [snd] in Hr. subst rv. intros E.
  exact (proj2 (proj2 (read_buffer_keys_Returns_inv H _ _ _ _ _ _ E)) eq_refl).
Qed.

Lemma groups_loop_unknown_output (kf : GKeyFile) (pre post : list cstring) (g v : cstring)
  (k : Z) (l l' : locals) (st st' : conf) :
  g_str_has_prefix g (cs "CONTEXT=") = true ->
  1 <= k <= Z.of_nat (PMLOG_CONTEXT_MAX_NUM_RULES H) ->
  (forall i, 1 <= i <= k -> g_key_file_get_string kf g (ruleName i) <> None) ->
  g_key_file_get_string kf g (ruleName k) = Some v ->
  (forall l1 st1, groups_loop H kf pre l st = Returns (l1, st1) ->
     ~ In (Some (firstn 31 (rule_output_name v))) (map outputName (g_outputConfs st1))) ->
  groups_loop H kf (pre ++ g :: post) l st = Returns (l', st') ->
  retVal l' = false.
Proof.
  intros Hp Hk Hpres Hv Hnin.
  pose proof (groups_loop_app_cases H kf pre (g :: post) l st) as Hc.
  destruct (groups_loop H kf pre l st) as [[l1 st1]|].
  - destruct Hc as [Hc|[Hc Hf]]; rewrite Hc.
    + rewrite (groups_loop_context H kf g post l1 st1 Hp).
      destruct (context_section H kf g l1 st1) as [[pc l2]|] eqn:Ec; [|discriminate].
      apply groups_loop_sticky.
      exact (context_section_unknown_output kf g v k l1 l2 st1 pc Hk Hpres Hv
               (Hnin l1 st1 eq_refl) Ec).
    + intros [= <- <-]. exact Hf.
  - rewrite Hc. discriminate.
Qed.

End Rules.

(** ** The grammar of a rule value and the scan of the rule keys *)

Section Grammar.

Variable H : main_h.

Lemma skip_char_render (c : ascii) (t rest : cstring) (b : bool) :
  match t with [] => True | x :: _ => x <> c end ->
  match rest with [] => True | x :: _ => x <> c end ->
  skip_char c (opt_char c b ++ t ++ rest) = (b, t ++ rest).
Proof.
  intros Ht Hrest. unfold skip_char. destruct b; cbn [opt_char app].
  - rewrite Ascii.eqb_refl. reflexivity.
  - destruct t as [|x t]; cbn [app].
    + destruct rest as [|x rest]; [reflexivity|].
      destruct (Ascii.eqb x c) eqn:E; [apply Ascii.eqb_eq in E; contradiction|reflexivity].
    + destruct (Ascii.eqb x c) eqn:E; [apply Ascii.eqb_eq in E; contradiction|reflexivity].
Qed.

Lemma sep_dot : strchr (cs ".,") "." = true.
Proof. reflexivity. Qed.

Lemma sep_comma : strchr (cs ".,") "," = true.
Proof. reflexivity. Qed.

(** The filter of a rule text parses to its facility, level, levelInvert
    and program, and leaves the text behind the comma. *)
Lemma parse_filter_render (fac : cstring) (t : filter_tail) (rest : cstring) (f lv : Z) :
  token_ok NUL fac -> tail_ok H t ->
  ParseRuleFacility H fac = Some f ->
  (forall l, tail_level t = Some l -> ParseRuleLevel H l = Some lv) ->
  parse_filter H (fac ++ render_tail t ++ ","%char :: rest) =
  Some (f,
        match t with NoLevel => -1 | _ => lv end,
        match t with NoLevel => false | Level inv _ | LevelProgram inv _ _ => inv end,
        match t with LevelProgram _ _ p => p | _ => [] end,
        rest).
Proof.
  intros (Hfs & Hfl & _) Ht Hf Hl. unfold parse_filter.
  destruct t as [|inv l|inv l p]; cbn [render_tail app].
  - rewrite (GetTokenToSep_sep fac rest "," Hfs sep_comma).
    rewrite firstn_all2 by exact Hfl. rewrite Hf. reflexivity.
  - destruct Ht as (Hls & Hll & Hlb).
    rewrite <- app_assoc.
    rewrite (GetTokenToSep_sep fac _ "." Hfs sep_dot).
    rewrite firstn_all2 by exact Hfl. rewrite Hf.
    change (Ascii.eqb "." ".") with true. cbv beta iota.
    rewrite (skip_char_render "!" l (","%char :: rest) inv Hlb ltac:(discriminate)).
    rewrite (GetTokenToSep_sep l rest "," Hls sep_comma).
    rewrite firstn_all2 by exact Hll. rewrite (Hl l eq_refl). reflexivity.
  - destruct Ht as ((Hls & Hll & Hlb) & (Hps & Hpl & _) & Hpn & Hpm).
    rewrite <- !app_assoc. cbn [app].
    rewrite (GetTokenToSep_sep fac _ "." Hfs sep_dot).
    rewrite firstn_all2 by exact Hfl. rewrite Hf.
    change (Ascii.eqb "." ".") with true. cbv beta iota.
    rewrite (skip_char_render "!" l ("."%char :: p ++ ","%char :: rest) inv Hlb
               ltac:(discriminate)).
    rewrite (GetTokenToSep_sep l _ "." Hls sep_dot).
    rewrite firstn_all2 by exact Hll. rewrite (Hl l eq_refl).
    change (Ascii.eqb "." ".") with true. cbv beta iota.
    rewrite (GetTokenToSep_sep p rest "," Hps sep_comma).
    rewrite firstn_all2 by exact Hpl.
    rewrite mystrcpy_field_spec by lia.
    rewrite c_str_no_NUL by exact Hpn.
    rewrite firstn_all2 by lia. reflexivity.
Qed.

(** The output of a rule text parses to the index of the output and to
    omitOutput. *)
Lemma parse_output_render (st : conf) (pc : PmLogParseContext_t)
  (fac lvl : Z) (inv omit : bool) (prog out : cstring) (o : PmLogFile_t) (idx : Z) :
  token_ok "-" out ->
  FindOutputByName st out = (Some o, idx) ->
  parse_output st pc (fac, lvl, inv, prog, opt_char "-" omit ++ out) =
  Some {| pc_name := pc_name pc;
          pc_rules :=
            pc_rules pc ++
            [ {| pr_facility := fac; pr_level := lvl; pr_levelInvert := inv;
                 pr_program := prog; pr_outputIndex := idx; pr_omitOutput := omit |} ];
          pc_bufferSize := pc_bufferSize pc;
          pc_flushLevel := pc_flushLevel pc |}.
Proof.
  intros (Hos & Hol & Hob) Hfind. unfold parse_output.
  pose proof (skip_char_render "-" out [] omit Hob I) as Hs.
  rewrite !List.app_nil_r in Hs. rewrite Hs.
  rewrite (GetTokenToSep_end out Hos).
  rewrite firstn_all2 by exact Hol. rewrite Hfind. reflexivity.
Qed.

(** A rule value of the grammar parses to the rule it stands for. *)
Lemma ParseContextData_render (st : conf) (pc : PmLogParseContext_t) (key : cstring)
  (r : rule_text) (f lv idx : Z) (o : PmLogFile_t) :
  rule_text_ok H r ->
  ParseRuleFacility H (rt_facility r) = Some f ->
  (forall l, tail_level (rt_tail r) = Some l -> ParseRuleLevel H l = Some lv) ->
  FindOutputByName st (rt_output r) = (Some o, idx) ->
  ParseContextData H st pc key (render_rule r) =
  Some {| pc_name := pc_name pc;
          pc_rules := pc_rules pc ++ [rule_of_text r f lv idx];
          pc_bufferSize := pc_bufferSize pc;
          pc_flushLevel := pc_flushLevel pc |}.
Proof.
  intros (Hfac & Htail & Hout) Hf Hl Hfind.
  rewrite ParseContextData_stages. unfold render_rule.
  rewrite (parse_filter_render _ _ _ f lv Hfac Htail Hf Hl).
  rewrite (parse_output_render st pc _ _ _ _ _ _ o idx Hout Hfind).
  reflexivity.
Qed.

(** The loop over the rules reads [Rule1], [Rule2], ... in sequence up to
    the first key that is missing (and up to the size of the rule array). *)
Lemma read_rules_scan (st : conf) (kf : GKeyFile) (g : cstring) (vs : list cstring)
  (n : nat) (j : Z) (pc pc' : PmLogParseContext_t) (rv : bool) :
  (List.length vs <= n)%nat ->
  (forall i, (i < List.length vs)%nat ->
     g_key_file_get_string kf g (ruleName (j + Z.of_nat i + 1)) = nth_error vs i) ->
  ((List.length vs < n)%nat ->
     g_key_file_get_string kf g (ruleName (j + Z.of_nat (List.length vs) + 1)) = None) ->
  parse_rule_values H st j vs pc = Some pc' ->
  read_rules H st kf g n j pc rv = (pc', rv).
Proof.
  revert n j pc. induction vs as [|v vs IH]; intros n j pc Hlen Hpres Hmiss Hparse.
  - cbn [parse_rule_values] in Hparse. injection Hparse as <-.
    destruct n as [|n]; [reflexivity|]. cbn [read_rules].
    cbn [List.length] in Hmiss. rewrite Z.add_0_r in Hmiss.
    rewrite Hmiss by lia. reflexivity.
  - cbn [List.length] in *. destruct n as [|n]; [lia|]. cbn [read_rules].
    pose proof (Hpres 0%nat ltac:(lia)) as H0. cbn [nth_error] in H0.
    rewrite Z.add_0_r in H0. rewrite H0.
    cbn [parse_rule_values] in Hparse.
    destruct (ParseContextData H st pc (ruleName (j + 1)) v) as [pc1|]; [|discriminate].
    apply IH; [lia| | |exact Hparse].
    + intros i Hi. specialize (Hpres (S i) ltac:(lia)). cbn [nth_error] in Hpres.
      rewrite <- Hpres. f_equal. f_equal. lia.
    + intros Hlt. specialize (Hmiss ltac:(lia)). rewrite <- Hmiss. f_equal. f_equal. lia.
Qed.

End Grammar.

(** ** The ring buffer of a context *)

Section RingBuffer.

Variable H : main_h.

Lemma read_buffer_keys_spec (kf : GKeyFile) (g : cstring)
  (pc pc' : PmLogParseContext_t) (l l' : locals) :
  pc_bufferSize pc = 0 -> pc_flushLevel pc = 0 ->
  read_buffer_keys H kf g pc l = Returns (pc', l') ->
  pc_bufferSize pc' = group_bufferSize kf g
  /\ pc_flushLevel pc' = group_flushLevel H kf g
  /\ retVal l' = retVal l && group_buffer_ok H kf g.
Proof.
  intros Hb Hf.
  unfold read_buffer_keys, group_bufferSize, group_flushLevel, group_buffer_ok, ParseLevel.
  destruct (gerror l); [discriminate|].
  destruct (g_key_file_get_string kf g (cs "BufferSize")) as [s|];
    try destruct (ParseSize s);
    destruct (g_key_file_get_string kf g (cs "FlushLevel")) as [s'|];
    try destruct (PmLogStringToLevel H s');
    intros [= <- <-];
    cbn [fst snd pc_bufferSize pc_flushLevel retVal andb];
    rewrite ?Hb, ?Hf, ?andb_true_r, ?andb_false_r; repeat split; reflexivity.
Qed.

Lemma ParseContextInit_zero (st : conf) (name : cstring) :
  pc_bufferSize (snd (ParseContextInit H st name)) = 0
  /\ pc_flushLevel (snd (ParseContextInit H st name)) = 0.
Proof.
  unfold ParseContextInit.
  destruct ((g_numContexts st =? 0) && negb (strcmp_eq PMLOG_CONTEXT_GLOBAL name));
    split; reflexivity.
Qed.

(** After a [CONTEXT=] group that is read with [gerror] NULL, the context
    is in the tree under the name the group was given by
    [ParseContextInit], with what [RBNew] returned for the size and the
    flush level of the group; [retVal] stays true only when the keys of the
    ring buffer parse. *)
Lemma context_group_rb (kf : GKeyFile) (g : cstring) (l : locals) (st : conf)
  (t : GTree PmLogContextConf_t) :
  g_str_has_prefix g (cs "CONTEXT=") = true ->
  g_contextConfs st = Some t ->
  gerror l = false ->
  exists l' st' c,
    groups_loop H kf [g] l st = Returns (l', st')
    /\ g_tree_lookup (g_contextConfs st')
         (pc_name (snd (ParseContextInit H st (skipn 8 g)))) = Some c
    /\ rb c = RBNew (group_bufferSize kf g) (group_flushLevel H kf g)
    /\ (retVal l' = true -> group_buffer_ok H kf g = true).
Proof.
  intros Hp Ht Hg.
  rewrite (groups_loop_context H kf g [] l st Hp).
  destruct (context_section_returns H kf g l st Hg) as (pc2 & l1 & Ec & _).
  rewrite Ec. cbn [groups_loop].
  unfold context_section in Ec.
  destruct (ParseContextInit_zero st (skipn 8 g)) as [Hz1 Hz2].
  match type of Ec with
  | context [read_rules H st kf g ?n ?j ?pc0 ?rv] =>
      destruct (read_rules_name H st kf g n j pc0 rv) as (Hn1 & Hb1 & Hf1);
      destruct (read_rules H st kf g n j pc0 rv) as [pc1 rv1]
  end.
  cbn [fst] in Hn1, Hb1, Hf1. rewrite Hz1 in Hb1. rewrite Hz2 in Hf1.
  destruct (read_buffer_keys_spec kf g pc1 pc2 _ l1 Hb1 Hf1 Ec) as (Hbs & Hfl & Hrv).
  destruct (read_buffer_keys_name H _ _ _ _ _ _ Ec) as [Hn2 _].
  cbn [retVal] in Hrv.
  destruct (MakeContextConf_spec st pc2) as (_ & _ & Htree).
  rewrite Ht in Htree. destruct Htree as (t' & c & Ht' & Ha & _ & Hrb & _).
  exists l1, (snd (MakeContextConf st pc2)), c. split; [reflexivity|].
  rewrite Ht'. cbn [g_tree_lookup]. rewrite Hn2, Hn1 in Ha. split; [exact Ha|]. split.
  - rewrite Hrb, Hbs, Hfl. reflexivity.
  - intros Hr. rewrite Hr in Hrv. symmetry in Hrv.
    apply andb_true_iff in Hrv. exact (proj2 Hrv).
Qed.

End RingBuffer.
(** ** Writing into a buffer at an offset: [mystrcat], [mysprintf] and
    [ParseKeyValue] *)

Section MoreBuffers.

Lemma no_NUL_firstn_strlen (s : buffer) (n : nat) :
  (n <= strlen s)%nat -> no_NUL (firstn n s) = true.
Proof.
  revert n; induction s as [|c s IH]; intros [|n] Hn; try reflexivity.
  simpl in Hn. simpl.
  destruct (Ascii.eqb c NUL); [lia|]. simpl. apply IH. lia.
Qed.

Lemma no_NUL_c_str (b : buffer) : no_NUL (c_str b) = true.
Proof. apply no_NUL_firstn_strlen. lia. Qed.

Lemma strlen_app (a b : buffer) :
  no_NUL a = true -> strlen (a ++ b) = (List.length a + strlen b)%nat.
Proof.
  induction a as [|c a IH]; simpl; [reflexivity|].
  intros E. apply andb_true_iff in E. destruct E as [Ec Ea].
  destruct (Ascii.eqb c NUL); [discriminate|]. rewrite IH by exact Ea. reflexivity.
Qed.

Lemma c_str_app (a b : buffer) :
  no_NUL a = true -> c_str (a ++ b) = a ++ c_str b.
Proof.
  intros E. unfold c_str. rewrite strlen_app by exact E.
  rewrite firstn_app.
  rewrite firstn_all2 by lia.
  f_equal. f_equal. lia.
Qed.

Lemma length_c_str (b : buffer) : List.length (c_str b) = strlen b.
Proof.
  unfold c_str. rewrite length_firstn. pose proof (strlen_le b). lia.
Qed.

(** A store of what is there already. *)
Lemma store_same (b : buffer) (i : nat) (c : ascii) :
  nth_error b i = Some c -> store b i c = b.
Proof.
  intros E. unfold store.
  destruct (i <? List.length b)%nat; [|reflexivity].
  rewrite <- (firstn_skipn i b) at 3. f_equal.
  revert i E; induction b as [|x b IH]; intros [|i] E; try discriminate.
  - injection E as ->. reflexivity.
  - simpl in E. simpl. apply (IH i E).
Qed.

(** [n] bytes of [s] and a NUL written at offset [off], in closed form. *)
Lemma store_memcpy_at (d : buffer) (off : nat) (s : buffer) (n : nat) :
  (n <= List.length s)%nat -> (off + n < List.length d)%nat ->
  store (memcpy_at d off s n) (off + n) NUL =
  firstn off d ++ firstn n s ++ NUL :: skipn (S (off + n)) d.
Proof.
  intros Hn Hd. unfold memcpy_at, memcpy.
  rewrite length_firstn, Nat.min_l by exact Hn.
  rewrite skipn_skipn.
  set (pre := firstn off d ++ firstn n s).
  assert (Hpre : List.length pre = (off + n)%nat).
  { unfold pre. rewrite length_app, !length_firstn. lia. }
  rewrite List.app_assoc. fold pre.
  unfold store.
  rewrite length_app, Hpre, length_skipn.
  destruct (off + n <? off + n + (List.length d - (n + off)))%nat eqn:E;
    [|apply Nat.ltb_ge in E; lia].
  rewrite firstn_app, Hpre, Nat.sub_diag, firstn_all2 by lia.
  cbn [firstn]. rewrite List.app_nil_r.
  assert (Hrest : skipn (S (off + n)) (pre ++ skipn (n + off) d) = skipn (S (off + n)) d).
  { rewrite skipn_app, Hpre.
    rewrite skipn_all2 by lia.
    replace (S (off + n) - (off + n))%nat with 1%nat by lia.
    rewrite skipn_skipn. cbn [app]. f_equal. lia. }
  rewrite Hrest. unfold pre. rewrite <- List.app_assoc. reflexivity.
Qed.

(** The buffer that holds [a], then [t], then a NUL, where [d] held other
    bytes: its length, the bytes behind, and the string it holds. *)
Lemma written_buffer (d : buffer) (a t : buffer) :
  no_NUL a = true -> no_NUL t = true ->
  (List.length a + List.length t < List.length d)%nat ->
  let d' := a ++ t ++ NUL :: skipn (S (List.length a + List.length t)) d in
  List.length d' = List.length d
  /\ (forall i, (List.length a + List.length t < i)%nat -> nth_error d' i = nth_error d i)
  /\ strlen d' = (List.length a + List.length t)%nat
  /\ c_str d' = a ++ t.
Proof.
  intros Ha Ht Hl d'. repeat split.
  - unfold d'. rewrite !length_app. cbn [List.length]. rewrite length_skipn. lia.
  - intros i Hi. unfold d'. rewrite List.app_assoc.
    rewrite nth_error_app2 by (rewrite length_app; lia).
    rewrite length_app.
    replace (i - (List.length a + List.length t))%nat
      with (S (i - (List.length a + List.length t) - 1)) by lia.
    cbn [nth_error]. rewrite nth_error_skipn. f_equal. lia.
  - unfold d'. rewrite List.app_assoc, strlen_app by (rewrite no_NUL_app, Ha, Ht; reflexivity).
    rewrite length_app. simpl. lia.
  - unfold d'. rewrite List.app_assoc, c_str_app by (rewrite no_NUL_app, Ha, Ht; reflexivity).
    unfold c_str. simpl. apply List.app_nil_r.
Qed.

(** The destination after [mystrcat], in closed form. *)
Lemma mystrcat_some (d : buffer) (dstSize : nat) (s : cstring) :
  (1 <= dstSize <= List.length d)%nat ->
  (strlen d < dstSize)%nat ->
  let n := Nat.min (strlen s) (dstSize - 1 - strlen d) in
  mystrcat (Some d) dstSize (Some s) =
  Some (if (0 <? n)%nat
        then c_str d ++ firstn n s ++ NUL :: skipn (S (strlen d + n)) d
        else d).
Proof.
  intros [H1 H2] Hd n. unfold mystrcat.
  destruct (dstSize <? 1)%nat eqn:E; [apply Nat.ltb_lt in E; lia|].
  destruct (dstSize <=? strlen d)%nat eqn:E1; [apply Nat.leb_le in E1; lia|].
  destruct (strlen s <? 1)%nat eqn:E2.
  - apply Nat.ltb_lt in E2.
    assert (n = 0%nat) as -> by (unfold n; lia). reflexivity.
  - apply Nat.ltb_ge in E2.
    assert (Hn : (if (dstSize - 1 - strlen d <? strlen s)%nat
                  then (dstSize - 1 - strlen d)%nat else strlen s) = n).
    { unfold n. destruct (dstSize - 1 - strlen d <? strlen s)%nat eqn:E3;
        [apply Nat.ltb_lt in E3|apply Nat.ltb_ge in E3]; lia. }
    rewrite Hn. destruct (0 <? n)%nat eqn:E4; [|reflexivity].
    f_equal. pose proof (strlen_le s).
    rewrite store_memcpy_at by (unfold n; lia). reflexivity.
Qed.

Lemma mystrcat_bounded (d : buffer) (dstSize : nat) (src : option cstring) :
  (1 <= dstSize <= List.length d)%nat ->
  exists d',
    mystrcat (Some d) dstSize src = Some d'
    /\ List.length d' = List.length d
    /\ (forall i, (dstSize <= i)%nat -> nth_error d' i = nth_error d i)
    /\ ((strlen d < dstSize)%nat ->
        (strlen d' < dstSize)%nat
        /\ c_str d' =
           firstn (dstSize - 1)
             (c_str d ++ match src with Some s => c_str s | None => [] end))
    /\ ((dstSize <= strlen d)%nat -> d' = d).
Proof.
  intros Hsz.
  assert (Hkeep : (strlen d < dstSize)%nat -> forall t : cstring,
            (List.length t <= 0)%nat \/ (dstSize - 1 <= strlen d)%nat ->
            c_str d = firstn (dstSize - 1) (c_str d ++ t)).
  { intros Hd t Ht. rewrite firstn_app, length_c_str.
    rewrite (firstn_all2 (c_str d)) by (rewrite length_c_str; lia).
    destruct Ht as [Ht|Ht].
    - destruct t; [|simpl in Ht; lia]. rewrite firstn_nil, List.app_nil_r. reflexivity.
    - replace (dstSize - 1 - strlen d)%nat with 0%nat by lia.
      rewrite firstn_O, List.app_nil_r. reflexivity. }
  assert (Hsame : exists d',
            Some d = Some d' /\ List.length d' = List.length d
            /\ (forall i, (dstSize <= i)%nat -> nth_error d' i = nth_error d i)).
  { exists d. repeat split. }
  destruct (Nat.le_gt_cases dstSize (strlen d)) as [Hfull|Hd].
  - (* dst holds no string within dstSize *)
    exists d. split; [|repeat split; try reflexivity; intros; lia].
    unfold mystrcat.
    destruct (dstSize <? 1)%nat; [reflexivity|].
    destruct (dstSize <=? strlen d)%nat eqn:E; [reflexivity|apply Nat.leb_gt in E; lia].
  - destruct src as [s|].
    + rewrite (mystrcat_some d dstSize s Hsz Hd). cbv zeta.
      set (n := Nat.min (strlen s) (dstSize - 1 - strlen d)).
      destruct (0 <? n)%nat eqn:En; [apply Nat.ltb_lt in En|apply Nat.ltb_ge in En].
      * eexists. split; [reflexivity|].
        pose proof (written_buffer d (c_str d) (firstn n s) (no_NUL_c_str d)
                      (no_NUL_firstn_strlen s n ltac:(unfold n; lia))) as W.
        pose proof (strlen_le s) as Hs.
        rewrite length_c_str, length_firstn, (Nat.min_l n) in W by (unfold n; lia).
        specialize (W ltac:(unfold n; lia)). cbv zeta in W.
        destruct W as (W1 & W2 & W3 & W4).
        split; [exact W1|]. split; [intros i Hi; apply W2; unfold n; lia|].
        split; [|intros; lia].
        intros _. split; [rewrite W3; unfold n; lia|].
        rewrite W4. rewrite firstn_app, length_c_str.
        rewrite (firstn_all2 (c_str d)) by (rewrite length_c_str; lia).
        f_equal. rewrite firstn_c_str. f_equal. unfold n. lia.
      * exists d. split; [reflexivity|]. split; [reflexivity|].
        split; [reflexivity|]. split; [|intros; lia].
        intros _. split; [exact Hd|].
        apply (Hkeep Hd).
        rewrite length_c_str. unfold n in En. lia.
    + exists d. split.
      * unfold mystrcat.
        destruct (dstSize <? 1)%nat; [reflexivity|].
        destruct (dstSize <=? strlen d)%nat; reflexivity.
      * split; [reflexivity|]. split; [reflexivity|]. split; [|intros; lia].
        intros _. split; [exact Hd|]. apply (Hkeep Hd). left. simpl. lia.
Qed.

Lemma strlen_app_NUL (a r : buffer) : strlen (a ++ NUL :: r) = strlen a.
Proof.
  induction a as [|c a IH]; simpl; [reflexivity|].
  destruct (Ascii.eqb c NUL); [reflexivity|]. rewrite IH. reflexivity.
Qed.

Lemma c_str_app_NUL (a r : buffer) : c_str (a ++ NUL :: r) = c_str a.
Proof.
  unfold c_str. rewrite strlen_app_NUL.
  rewrite firstn_app.
  pose proof (strlen_le a).
  replace (strlen a - List.length a)%nat with 0%nat by lia.
  rewrite firstn_O. apply List.app_nil_r.
Qed.

Lemma strlen_firstn (s : buffer) (n : nat) :
  strlen (firstn n s) = Nat.min n (strlen s).
Proof.
  revert n; induction s as [|c s IH]; intros [|n]; try reflexivity.
  simpl. destruct (Ascii.eqb c NUL); [reflexivity|]. rewrite IH. reflexivity.
Qed.

Lemma c_str_firstn (s : buffer) (n : nat) : c_str (firstn n s) = firstn n (c_str s).
Proof.
  unfold c_str. rewrite strlen_firstn, !firstn_firstn. f_equal. lia.
Qed.

Lemma c_str_skipn (s : buffer) (n : nat) :
  (n <= strlen s)%nat -> c_str (skipn n s) = skipn n (c_str s).
Proof.
  revert n; induction s as [|c s IH]; intros [|n] Hn; try reflexivity.
  simpl in Hn. unfold c_str. simpl.
  destruct (Ascii.eqb c NUL); [lia|]. simpl. apply IH. lia.
Qed.

Lemma store_0 (d : buffer) : store d 0 NUL = match d with [] => [] | _ :: r => NUL :: r end.
Proof. destruct d; reflexivity. Qed.

(** The destination after [mysprintf]. *)
Lemma mysprintf_bounded (d : buffer) (dstSize : nat) (fmt : option formatted) :
  (1 <= dstSize <= List.length d)%nat ->
  exists d',
    mysprintf (Some d) dstSize fmt = Some d'
    /\ (strlen d' < dstSize)%nat
    /\ c_str d' =
       match fmt with
       | Some (FmtText out) => firstn (dstSize - 1) (c_str out)
       | _ => []
       end
    /\ match fmt with
       | Some (FmtError _) => True
       | _ =>
           List.length d' = List.length d
           /\ forall i, (dstSize <= i)%nat -> nth_error d' i = nth_error d i
       end.
Proof.
  intros [H1 H2]. unfold mysprintf.
  destruct (dstSize <? 1)%nat eqn:E; [apply Nat.ltb_lt in E; lia|].
  destruct d as [|c0 d]; [simpl in H2; lia|].
  rewrite store_0.
  destruct fmt as [[out|g]|].
  - (* the text of the format *)
    unfold vsnprintf.
    destruct (dstSize =? 0)%nat eqn:E0; [apply Nat.eqb_eq in E0; lia|].
    set (n := Nat.min (List.length out) (dstSize - 1)).
    assert (Hw : store (memcpy (NUL :: d) out n) n NUL =
                 firstn n out ++ NUL :: skipn n d).
    { pose proof (store_memcpy_at (NUL :: d) 0 out n ltac:(unfold n; lia)
                    ltac:(cbn [List.length] in *; unfold n; lia)) as W.
      unfold memcpy_at in W. cbn [firstn skipn app Nat.add] in W. exact W. }
    rewrite Hw.
    assert (Hnth : (dstSize <= List.length out)%nat ->
                   nth_error (firstn n out ++ NUL :: skipn n d) (dstSize - 1) = Some NUL).
    { intros Hl. assert (n = (dstSize - 1)%nat) as Hn by (unfold n; lia).
      rewrite nth_error_app2 by (rewrite length_firstn; lia).
      rewrite length_firstn. replace (dstSize - 1 - Nat.min n (List.length out))%nat
        with 0%nat by lia. reflexivity. }
    assert (Hres : (if Z.of_nat (List.length out) <? 0
                    then Some (store (firstn n out ++ NUL :: skipn n d) 0 NUL)
                    else if Z.of_nat dstSize <=? Z.of_nat (List.length out)
                         then Some (store (firstn n out ++ NUL :: skipn n d) (dstSize - 1) NUL)
                         else Some (firstn n out ++ NUL :: skipn n d))
                   = Some (firstn n out ++ NUL :: skipn n d)).
    { destruct (Z.of_nat (List.length out) <? 0) eqn:E1; [apply Z.ltb_lt in E1; lia|].
      destruct (Z.of_nat dstSize <=? Z.of_nat (List.length out)) eqn:E2; [|reflexivity].
      apply Z.leb_le in E2. rewrite store_same by (apply Hnth; lia). reflexivity. }
    cbv beta iota. eexists. split; [exact Hres|].
    split; [rewrite strlen_app_NUL, strlen_firstn; unfold n; lia|].
    split.
    + rewrite c_str_app_NUL, c_str_firstn.
      unfold n. rewrite <- firstn_firstn.
      rewrite (firstn_all2 (n := List.length out)); [reflexivity|].
      rewrite length_firstn, length_c_str. pose proof (strlen_le out). lia.
    + split.
      * rewrite length_app, length_firstn. cbn [List.length]. rewrite length_skipn.
        cbn [List.length] in H2. unfold n. lia.
      * intros i Hi.
        rewrite nth_error_app2 by (rewrite length_firstn; unfold n; lia).
        rewrite length_firstn.
        replace (i - Nat.min n (List.length out))%nat with (S (i - n - 1)) by (unfold n; lia).
        destruct i as [|i]; [lia|]. cbn [nth_error]. rewrite nth_error_skipn.
        f_equal. unfold n. lia.
  - (* an output error *)
    unfold vsnprintf.
    change (-1 <? 0) with true. cbv beta iota.
    eexists. split; [reflexivity|].
    rewrite store_0. destruct g as [|x g].
    + split; [simpl; lia|]. split; [reflexivity|exact I].
    + split; [simpl; lia|]. split; [reflexivity|exact I].
  - (* no format *)
    eexists. split; [reflexivity|].
    split; [simpl; lia|]. split; [reflexivity|].
    split; [reflexivity|]. intros [|i] Hi; [lia|reflexivity].
Qed.

(** [strchr_index] finds the first [c] of the string. *)
Lemma strchr_index_Some (s : buffer) (c : ascii) (k : nat) :
  strchr_index s c = Some k ->
  exists key rest,
    s = key ++ c :: rest /\ List.length key = k
    /\ no_NUL key = true /\ ~ In c key.
Proof.
  revert k; induction s as [|x s IH]; intros k E; [discriminate|].
  simpl in E. destruct (Ascii.eqb x NUL) eqn:Ex; [discriminate|].
  destruct (Ascii.eqb x c) eqn:Ec.
  - apply Ascii.eqb_eq in Ec. subst x. injection E as <-.
    exists [], s. repeat split. intros [].
  - destruct (strchr_index s c) as [k'|] eqn:Ek; [|discriminate].
    injection E as <-. destruct (IH k' eq_refl) as (key & rest & Hs & Hl & Hn & Hin).
    exists (x :: key), rest. subst s. repeat split.
    + simpl. rewrite Hl. reflexivity.
    + simpl. rewrite Ex. exact Hn.
    + intros [->|Hc]; [rewrite Ascii.eqb_refl in Ec; discriminate|contradiction].
Qed.

Lemma strchr_index_app (key rest : buffer) (c : ascii) :
  no_NUL key = true -> ~ In c key -> c <> NUL ->
  strchr_index (key ++ c :: rest) c = Some (List.length key).
Proof.
  intros Hn Hin Hc. induction key as [|x key IH]; simpl.
  - destruct (Ascii.eqb c NUL) eqn:E; [apply Ascii.eqb_eq in E; contradiction|].
    rewrite Ascii.eqb_refl. reflexivity.
  - simpl in Hn. apply andb_true_iff in Hn. destruct Hn as [Hx Hn].
    destruct (Ascii.eqb x NUL); [discriminate|].
    destruct (Ascii.eqb x c) eqn:E;
      [apply Ascii.eqb_eq in E; subst x; exfalso; apply Hin; left; reflexivity|].
    rewrite IH; [reflexivity|exact Hn|intros Hk; apply Hin; right; exact Hk].
Qed.

Lemma strchr_index_c_str (s : buffer) (c : ascii) :
  strchr_index (c_str s) c = strchr_index s c.
Proof.
  unfold c_str. induction s as [|x s IH]; [reflexivity|].
  simpl. destruct (Ascii.eqb x NUL) eqn:Ex; [reflexivity|].
  simpl. rewrite Ex. destruct (Ascii.eqb x c); [reflexivity|]. rewrite IH. reflexivity.
Qed.

Lemma c_str_split (s : buffer) : s = c_str s ++ skipn (strlen s) s.
Proof. unfold c_str. symmetry. apply firstn_skipn. Qed.

(** What [ParseKeyValue] does when the first [=] is at index [k]: [arg] is
    [key], [=], then the value and what else the array holds. *)
Lemma ParseKeyValue_at (key rest : buffer) (keyBuff valBuff : buffer)
  (keyBuffSize valBuffSize : nat) :
  no_NUL key = true -> ~ In "="%char key ->
  ParseKeyValue (key ++ "="%char :: rest) keyBuff keyBuffSize valBuff valBuffSize =
  if (List.length key <=? 0)%nat then (false, keyBuff, valBuff)
  else if (keyBuffSize <=? List.length key)%nat then (false, keyBuff, valBuff)
  else if (valBuffSize <=? strlen rest)%nat
       then (false, store (memcpy keyBuff key (List.length key)) (List.length key) NUL,
             valBuff)
       else (true, store (memcpy keyBuff key (List.length key)) (List.length key) NUL,
             store (memcpy valBuff rest (strlen rest)) (strlen rest) NUL).
Proof.
  intros Hn Hin. unfold ParseKeyValue.
  rewrite strchr_index_app by (assumption || discriminate).
  destruct (List.length key <=? 0)%nat; [reflexivity|].
  destruct (keyBuffSize <=? List.length key)%nat; [reflexivity|].
  assert (Hm : memcpy keyBuff (key ++ "="%char :: rest) (List.length key) =
               memcpy keyBuff key (List.length key)).
  { unfold memcpy. rewrite firstn_app, Nat.sub_diag, firstn_O, List.app_nil_r.
    reflexivity. }
  rewrite Hm.
  assert (Hs : skipn (List.length key + 1) (key ++ "="%char :: rest) = rest).
  { rewrite skipn_app. rewrite skipn_all2 by lia.
    replace (List.length key + 1 - List.length key)%nat with 1%nat by lia. reflexivity. }
  rewrite Hs. reflexivity.
Qed.

(** [n] bytes of [s] and a NUL written at the head of a buffer. *)
Lemma store_memcpy (d s : buffer) (n : nat) :
  (n <= List.length s)%nat -> (n < List.length d)%nat ->
  store (memcpy d s n) n NUL = firstn n s ++ NUL :: skipn (S n) d.
Proof.
  intros Hn Hd.
  pose proof (store_memcpy_at d 0 s n Hn ltac:(lia)) as W.
  unfold memcpy_at in W. cbn [firstn skipn app Nat.add] in W. exact W.
Qed.

(** [TrimSuffixCaseInsensitive] *)
Lemma strcasecmp_eq_length (a b : cstring) :
  strcasecmp_eq a b = true -> List.length a = List.length b.
Proof.
  unfold strcasecmp_eq. intros E. apply cstring_eqb_eq in E.
  rewrite <- (length_map tolower a), E. apply length_map.
Qed.

End MoreBuffers.

(** ** Decimal texts once more *)

Section MoreDecimal.

(** The text of a number that is not negative has no sign. *)
Lemma decimal_length_nonneg (n : Z) (k : nat) :
  (1 <= k)%nat -> 0 <= n < 10 ^ Z.of_nat k -> (List.length (decimal n) <= k)%nat.
Proof.
  intros Hk Hb.
  destruct (Z.eq_dec n 0) as [->|Hn]; [simpl; lia|].
  destruct (decimal_shape n Hn) as (c & ds & Hdec & Hc & Hds & Hv).
  rewrite Hdec, length_app. cbn [List.length].
  cbn [dec_value] in Hv.
  assert (H1 : 1 <= 0 * 10 + (Z.of_nat (nat_of_ascii c) - 48)).
  { unfold nonzero_digits in Hc. simpl in Hc.
    repeat (destruct Hc as [Hc|Hc]; [subst c; vm_compute; congruence|]). contradiction. }
  pose proof (dec_value_bounds ds (0 * 10 + (Z.of_nat (nat_of_ascii c) - 48)) Hds
                ltac:(lia)) as [Hlo _].
  rewrite Hv in Hlo.
  assert (Hpow : 10 ^ Z.of_nat (List.length ds) < 10 ^ Z.of_nat k).
  { assert (0 < 10 ^ Z.of_nat (List.length ds)) by (apply Z.pow_pos_nonneg; lia). nia. }
  apply Z.pow_lt_mono_r_iff in Hpow; [|lia|lia].
  destruct (n <? 0) eqn:E; [apply Z.ltb_lt in E; lia|]. cbn [List.length]. lia.
Qed.

(** Two numbers of the range of [int] with the same text are the same. *)
Lemma decimal_inj (n m : Z) :
  INT_MIN <= n <= INT_MAX -> INT_MIN <= m <= INT_MAX ->
  decimal n = decimal m -> n = m.
Proof.
  intros Hn Hm E.
  pose proof (ParseInt_decimal n) as Pn. pose proof (ParseInt_decimal m) as Pm.
  rewrite E in Pn. rewrite Pn in Pm.
  assert (Hl : forall z, INT_MIN <= z <= INT_MAX ->
                 (LONG_MIN <=? z) && (z <=? LONG_MAX) = true).
  { intros z Hz. unfold INT_MIN, INT_MAX, LONG_MIN, LONG_MAX in *.
    apply andb_true_iff. split; apply Z.leb_le; lia. }
  rewrite (Hl n Hn), (Hl m Hm) in Pm.
  rewrite (wrap32_small n Hn), (wrap32_small m Hm) in Pm. congruence.
Qed.

End MoreDecimal.

(** ** [ParseKeyValue] *)

Section KeyValue.

Lemma strlen_skipn_strlen (s : buffer) : strlen (skipn (strlen s) s) = 0%nat.
Proof.
  induction s as [|c s IH]; [reflexivity|].
  simpl. destruct (Ascii.eqb c NUL) eqn:E; [simpl; rewrite E; reflexivity|exact IH].
Qed.

(** An array whose string is [key], [=], [val]. *)
Lemma c_str_key_val (arg key val : buffer) :
  c_str arg = key ++ "="%char :: val ->
  exists rest,
    arg = key ++ "="%char :: rest /\ no_NUL key = true /\ no_NUL val = true
    /\ c_str rest = val /\ strlen rest = List.length val.
Proof.
  intros E.
  pose proof (no_NUL_c_str arg) as Hn. rewrite E in Hn.
  rewrite no_NUL_app in Hn. apply andb_true_iff in Hn. destruct Hn as [Hk Hv].
  cbn [no_NUL forallb] in Hv. apply andb_true_iff in Hv. destruct Hv as [_ Hv].
  fold (no_NUL val) in Hv.
  exists (val ++ skipn (strlen arg) arg).
  split; [|split; [exact Hk|split; [exact Hv|split]]].
  - rewrite (c_str_split arg) at 1. rewrite E, <- List.app_assoc. reflexivity.
  - rewrite c_str_app by exact Hv. unfold c_str at 1.
    rewrite strlen_skipn_strlen. cbn [firstn]. apply List.app_nil_r.
  - rewrite strlen_app by exact Hv. rewrite strlen_skipn_strlen. lia.
Qed.

(** The buffers after [ParseKeyValue]. *)
Lemma ParseKeyValue_spec (arg keyBuff valBuff : buffer) (keyBuffSize valBuffSize : nat)
  (b : bool) (keyBuff' valBuff' : buffer) :
  (keyBuffSize <= List.length keyBuff)%nat ->
  (valBuffSize <= List.length valBuff)%nat ->
  ParseKeyValue arg keyBuff keyBuffSize valBuff valBuffSize = (b, keyBuff', valBuff') ->
  List.length keyBuff' = List.length keyBuff
  /\ List.length valBuff' = List.length valBuff
  /\ (forall i, (keyBuffSize <= i)%nat -> nth_error keyBuff' i = nth_error keyBuff i)
  /\ (forall i, (valBuffSize <= i)%nat -> nth_error valBuff' i = nth_error valBuff i)
  /\ (b = true ->
      c_str arg = c_str keyBuff' ++ "="%char :: c_str valBuff'
      /\ (strlen keyBuff' < keyBuffSize)%nat /\ (strlen valBuff' < valBuffSize)%nat)
  /\ (b = false ->
      valBuff' = valBuff
      /\ (keyBuff' = keyBuff
          \/ exists val,
               c_str arg = c_str keyBuff' ++ "="%char :: val
               /\ (strlen keyBuff' < keyBuffSize)%nat
               /\ (valBuffSize <= List.length val)%nat)).
Proof.
  intros Hks Hvs E.
  assert (Hnone : (b, keyBuff', valBuff') = (false, keyBuff, valBuff) ->
            List.length keyBuff' = List.length keyBuff
            /\ List.length valBuff' = List.length valBuff
            /\ (forall i, (keyBuffSize <= i)%nat -> nth_error keyBuff' i = nth_error keyBuff i)
            /\ (forall i, (valBuffSize <= i)%nat -> nth_error valBuff' i = nth_error valBuff i)
            /\ (b = true ->
                c_str arg = c_str keyBuff' ++ "="%char :: c_str valBuff'
                /\ (strlen keyBuff' < keyBuffSize)%nat /\ (strlen valBuff' < valBuffSize)%nat)
            /\ (b = false ->
                valBuff' = valBuff
                /\ (keyBuff' = keyBuff
                    \/ exists val,
                         c_str arg = c_str keyBuff' ++ "="%char :: val
                         /\ (strlen keyBuff' < keyBuffSize)%nat
                         /\ (valBuffSize <= List.length val)%nat))).
  { intros [= -> -> ->]. repeat split; try discriminate. left. reflexivity. }
  destruct (strchr_index arg "=") as [k|] eqn:Ek;
    [|unfold ParseKeyValue in E; rewrite Ek in E; symmetry in E; exact (Hnone E)].
  destruct (strchr_index_Some arg "=" k Ek) as (key & rest & Ha & Hl & Hn & Hin).
  subst arg. rewrite ParseKeyValue_at in E by assumption.
  destruct (List.length key <=? 0)%nat eqn:E0; [symmetry in E; exact (Hnone E)|].
  destruct (keyBuffSize <=? List.length key)%nat eqn:E1; [symmetry in E; exact (Hnone E)|].
  apply Nat.leb_gt in E0, E1.
  assert (Harg : c_str (key ++ "="%char :: rest) = key ++ "="%char :: c_str rest).
  { replace (key ++ "="%char :: rest) with ((key ++ ["="%char]) ++ rest)
      by (rewrite <- List.app_assoc; reflexivity).
    rewrite c_str_app by (rewrite no_NUL_app, Hn; reflexivity).
    rewrite <- List.app_assoc. reflexivity. }
  rewrite Harg.
  rewrite store_memcpy in E by lia. rewrite firstn_all in E.
  pose proof (written_buffer keyBuff key [] Hn eq_refl) as Wk.
  cbn [List.length app] in Wk. rewrite Nat.add_0_r in Wk.
  specialize (Wk ltac:(lia)). cbv zeta in Wk. destruct Wk as (K1 & K2 & K3 & K4).
  rewrite List.app_nil_r in K4.
  set (kb1 := key ++ NUL :: skipn (S (List.length key)) keyBuff) in *. clearbody kb1.
  destruct (valBuffSize <=? strlen rest)%nat eqn:E2;
    [apply Nat.leb_le in E2|apply Nat.leb_gt in E2].
  - injection E as <- <- <-.
    split; [exact K1|]. split; [reflexivity|].
    split; [intros i Hi; apply K2; lia|]. split; [reflexivity|].
    split; [discriminate|]. intros _. split; [reflexivity|].
    right. exists (c_str rest). rewrite K4, K3. split; [reflexivity|].
    split; [exact E1|]. rewrite length_c_str. exact E2.
  - pose proof (strlen_le rest) as Hr.
    rewrite store_memcpy in E by lia. fold (c_str rest) in E.
    pose proof (written_buffer valBuff (c_str rest) [] (no_NUL_c_str rest) eq_refl) as Wv.
    cbn [List.length app] in Wv. rewrite Nat.add_0_r, length_c_str in Wv.
    specialize (Wv ltac:(lia)). cbv zeta in Wv. destruct Wv as (V1 & V2 & V3 & V4).
    rewrite List.app_nil_r in V4.
    set (vb1 := c_str rest ++ NUL :: skipn (S (strlen rest)) valBuff) in *. clearbody vb1.
    injection E as <- <- <-.
    split; [exact K1|]. split; [exact V1|].
    split; [intros i Hi; apply K2; lia|].
    split; [intros i Hi; apply V2; lia|].
    split; [|discriminate]. intros _.
    rewrite K4, V4, K3, V3. repeat split; assumption.
Qed.

End KeyValue.

(** ** [ParseInt] and [ParseSize] on a number and what stands around it *)

Section MoreSizes.

Lemma skip_space_app (ws s : cstring) :
  forallb isspace ws = true -> skip_space (ws ++ s) = skip_space s.
Proof.
  induction ws as [|c ws IH]; [reflexivity|].
  simpl. intros E. apply andb_true_iff in E. destruct E as [Ec Ews].
  rewrite Ec. exact (IH Ews).
Qed.

Lemma ParseInt_skips_space (ws s : cstring) :
  forallb isspace ws = true -> ParseInt (ws ++ s) = ParseInt s.
Proof.
  intros Hws. unfold ParseInt, strtol. rewrite skip_space_app by exact Hws.
  destruct (match skip_space s with
            | "-"%char :: r => (true, r)
            | "+"%char :: r => (false, r)
            | _ => (false, skip_space s)
            end) as [neg s2].
  destruct (match s2 with
            | "0"%char :: x :: h :: r =>
                if ((0 =? 0) || (0 =? 16))
                   && (Ascii.eqb x "x" || Ascii.eqb x "X")
                   && (match digit_in_base 16 h with Some _ => true | None => false end)
                then (16, h :: r)
                else ((if 0 =? 0 then 8 else 0), s2)
            | "0"%char :: _ => ((if 0 =? 0 then 8 else 0), s2)
            | _ => ((if 0 =? 0 then 10 else 0), s2)
            end) as [b s3].
  destruct (strtol_digits b s3 0 false) as [[v any] rest].
  destruct any; [|reflexivity].
  destruct ((if neg then - v else v) <? LONG_MIN); [reflexivity|].
  destruct (LONG_MAX <? (if neg then - v else v)); reflexivity.
Qed.

Lemma not_digit_in_base_10 (c : ascii) :
  is_dec_digit c = false -> digit_in_base 10 c = None.
Proof.
  destruct c as [[] [] [] [] [] [] [] []]; vm_compute; intros E;
    try discriminate; reflexivity.
Qed.

(** A number with something other than a digit behind it. *)
Lemma ParseInt_decimal_then (n : Z) (c : ascii) (rest : cstring) :
  n <> 0 -> is_dec_digit c = false ->
  ParseInt (decimal n ++ c :: rest) = None.
Proof.
  intros Hn Hc. unfold ParseInt.
  rewrite (strtol_decimal n (c :: rest) Hn (not_digit_in_base_10 c Hc)).
  destruct (n <? LONG_MIN); [reflexivity|].
  destruct (LONG_MAX <? n); reflexivity.
Qed.

Lemma ParseInt_0_then (c : ascii) :
  is_dec_digit c = false -> ParseInt (decimal 0 ++ [c]) = None.
Proof.
  destruct c as [[] [] [] [] [] [] [] []]; vm_compute; intros E;
    try discriminate; reflexivity.
Qed.

Lemma strcasecmp_one (c x : ascii) :
  tolower c <> tolower x -> strcasecmp_eq [c] [x] = false.
Proof.
  intros Hne. apply cstring_eqb_neq. simpl. congruence.
Qed.

(** The four trimming steps of [ParseSize] find nothing in a number, and
    nothing in a number with a character behind it that is none of the
    letters K and M. *)
Lemma ParseSize_no_suffix (n : Z) (t : cstring) :
  (List.length (decimal n) + List.length t <= 31)%nat ->
  no_NUL t = true ->
  t = [] \/ (exists c, t = [c] /\ tolower c <> "k"%char /\ tolower c <> "m"%char) ->
  ParseSize (decimal n ++ t) =
  match ParseInt (decimal n ++ t) with
  | Some v => Some (wrap32 (v * 1))
  | None => None
  end.
Proof.
  intros Hlen Hnt Ht.
  pose proof (decimal_ends_in_digit n) as Hend.
  pose proof (proj1 (decimal_facts n)) as Hnn.
  unfold ParseSize.
  rewrite field32_small;
    [|rewrite no_NUL_app, Hnn, Hnt; reflexivity|rewrite length_app; exact Hlen].
  assert (Hmiss : forall sfx : cstring,
            no_digit sfx = true ->
            (sfx = cs "K" \/ sfx = cs "KB" \/ sfx = cs "M" \/ sfx = cs "MB") ->
            TrimSuffixCaseInsensitive (decimal n ++ t) sfx = (false, decimal n ++ t)).
  { intros sfx Hs Hsfx.
    rewrite (Trim_tail (decimal n) t sfx false Hend Hs); [reflexivity|].
    destruct Ht as [-> | (c & -> & Hk & Hm)].
    - destruct Hsfx as [-> | [-> | [-> | ->]]]; reflexivity.
    - destruct Hsfx as [-> | [-> | [-> | ->]]]; cbn [cs list_ascii_of_string List.length
        Nat.leb Nat.sub skipn andb]; try reflexivity;
        symmetry; apply strcasecmp_one; assumption. }
  rewrite (Hmiss (cs "K")), (Hmiss (cs "KB")), (Hmiss (cs "M")), (Hmiss (cs "MB"))
    by (reflexivity || tauto).
  reflexivity.
Qed.

End MoreSizes.
(** ** The table of outputs under the loader *)

Section Loader.

Variable H : main_h.

(** *** The output table *)

Lemma update_nth_app {A : Type} (f : A -> A) (n : nat) (a b : list A) :
  update_nth n f (a ++ b) =
  if (n <? List.length a)%nat then update_nth n f a ++ b
  else a ++ update_nth (n - List.length a) f b.
Proof.
  revert n. induction a as [|x a IH]; intros n.
  - cbn [app List.length]. rewrite Nat.sub_0_r. reflexivity.
  - destruct n as [|n]; [reflexivity|].
    cbn [app update_nth List.length]. rewrite IH.
    change (S n <? S (List.length a))%nat with (n <? List.length a)%nat.
    destruct (n <? List.length a)%nat; reflexivity.
Qed.

Lemma update_nth_Forall {A : Type} (F : A -> Prop) (f : A -> A) (n : nat) (l : list A) :
  (forall x, F x -> F (f x)) -> Forall F l -> Forall F (update_nth n f l).
Proof.
  intros Hf Hl. revert n. induction Hl as [|x l Hx Hl IH]; intros [|n];
    cbn [update_nth]; constructor; auto.
Qed.

Lemma update_nth_Forall2 {A B : Type} (S : B -> A -> Prop) (f : A -> A) (n : nat)
  (l0 : list B) (l : list A) :
  (forall y x, S y x -> S y (f x)) -> Forall2 S l0 l -> Forall2 S l0 (update_nth n f l).
Proof.
  intros Hf Hl. revert n. induction Hl as [|y x l0 l Hx Hl IH]; intros [|n];
    cbn [update_nth]; constructor; auto.
Qed.

Lemma output_kept_refl (l : list PmLogFile_t) : Forall2 output_kept l l.
Proof. induction l; constructor; [split; [reflexivity|left; reflexivity]|assumption]. Qed.

Lemma outputs_extend_refl (l : list PmLogFile_t) : outputs_extend l l.
Proof.
  exists l, []. split; [symmetry; apply List.app_nil_r|].
  split; [apply output_kept_refl|constructor].
Qed.

Lemma outputs_extend_update (old new : list PmLogFile_t) (n : nat) :
  outputs_extend old new ->
  outputs_extend old
    (update_nth n (fun o => set_rotations o PMLOG_DEFAULT_LOG_ROTATIONS) new).
Proof.
  intros (kept & added & -> & Hk & Ha). rewrite update_nth_app.
  destruct (n <? List.length kept)%nat.
  - eexists; eexists. split; [reflexivity|]. split; [|exact Ha].
    apply update_nth_Forall2; [|exact Hk].
    intros y x [Hkey _]. split; [exact Hkey|right; reflexivity].
  - eexists; eexists. split; [reflexivity|]. split; [exact Hk|].
    apply update_nth_Forall; [|exact Ha].
    intros x (Hm & _ & Hn). split; [exact Hm|]. split; [right; reflexivity|exact Hn].
Qed.

Lemma outputs_extend_snoc (old new : list PmLogFile_t) (o : PmLogFile_t) :
  outputs_extend old new -> output_added o -> outputs_extend old (new ++ [o]).
Proof.
  intros (kept & added & -> & Hk & Ha) Ho.
  exists kept, (added ++ [o]). split; [symmetry; apply List.app_assoc|].
  split; [exact Hk|]. apply Forall_app. split; [exact Ha|constructor; [exact Ho|constructor]].
Qed.

Lemma MakeOutputConf_extend (old : list PmLogFile_t) (st st' : conf)
  (po po' : PmLogParseOutput_t) (b : bool) :
  outputs_extend old (g_outputConfs st) ->
  MakeOutputConf H st po = (b, po', st') ->
  outputs_extend old (g_outputConfs st').
Proof.
  intros He. unfold MakeOutputConf.
  destruct (po_File po) as [|c p] eqn:EF; cbn [negb].
  { intros [= <- <- <-]. exact He. }
  destruct (Ascii.eqb c "/") eqn:Ec; cbn [negb];
    [apply Ascii.eqb_eq in Ec; subst c|intros [= <- <- <-]; exact He].
  destruct (FindOutputByName st (po_name po)) as [[o|] j].
  - destruct (is_uninit H (po_Rotations po));
      [|destruct (po_Rotations po <? PMLOG_MIN_NUM_ROTATIONS);
        [|destruct (PMLOG_MAX_NUM_ROTATIONS <? po_Rotations po)]];
      intros [= <- <- <-]; cbn [g_outputConfs]; try exact He.
    apply outputs_extend_update. exact He.
  - destruct (PMLOG_MAX_NUM_OUTPUTS H <=? List.length (g_outputConfs st))%nat.
    { intros [= <- <- <-]. exact He. }
    assert (Hnew : outputs_extend old
              (g_outputConfs st ++
               [ {| outputName := Some (po_name po); path := Some ("/"%char :: p);
                    maxSize := 0; rotations := 0 |} ])).
    { apply outputs_extend_snoc; [exact He|].
      split; [reflexivity|]. split; [left; reflexivity|].
      exists (po_name po), p. split; reflexivity. }
    destruct (is_uninit H (po_Rotations po));
      [|destruct (po_Rotations po <? PMLOG_MIN_NUM_ROTATIONS);
        [|destruct (PMLOG_MAX_NUM_ROTATIONS <? po_Rotations po)]];
      intros [= <- <- <-]; cbn [g_outputConfs]; try exact Hnew.
    apply outputs_extend_update. exact Hnew.
Qed.

Lemma outputs_extend_length (old new : list PmLogFile_t) :
  outputs_extend old new -> (List.length old <= List.length new)%nat.
Proof.
  intros (kept & added & -> & Hk & _). apply Forall2_length in Hk.
  rewrite length_app. lia.
Qed.

Lemma MakeOutputConf_length (st st' : conf) (po po' : PmLogParseOutput_t) (b : bool) :
  MakeOutputConf H st po = (b, po', st') ->
  (List.length (g_outputConfs st) <= List.length (g_outputConfs st'))%nat
  /\ ((List.length (g_outputConfs st) <= PMLOG_MAX_NUM_OUTPUTS H)%nat ->
      (List.length (g_outputConfs st') <= PMLOG_MAX_NUM_OUTPUTS H)%nat).
Proof.
  intros Hm. destruct (MakeOutputConf_spec H _ _ _ _ _ Hm) as (_ & _ & Hcase).
  destruct Hcase as [[_ ->]|(_ & _ & [[_ Hn]|(_ & Hlt & Hn)])].
  - split; [lia|tauto].
  - apply (f_equal (@List.length _)) in Hn. rewrite !length_map in Hn.
    rewrite Hn. split; [lia|tauto].
  - apply (f_equal (@List.length _)) in Hn.
    rewrite length_app, !length_map in Hn. cbn [List.length] in Hn.
    rewrite Hn. split; lia.
Qed.

End Loader.
(** ** Rules and contexts, section by section *)

Section Contexts.

Variable H : main_h.

(** [FindOutputByName] returns the first entry with the name. *)
Lemma FindOutputByName_from_first (i : Z) (l : list PmLogFile_t) (name : cstring)
  (o : PmLogFile_t) (j : Z) :
  FindOutputByName_from i l name = (Some o, j) ->
  forall k o', (k < Z.to_nat (j - i))%nat -> nth_error l k = Some o' ->
               outputName o' <> Some name.
Proof.
  revert i. induction l as [|x l IH]; intros i E k o' Hk Hn; [discriminate|].
  cbn [FindOutputByName_from] in E.
  pose proof (FindOutputByName_from_spec (i + 1) l name) as Hs.
  assert (Hrec : outputName x <> Some name ->
                 FindOutputByName_from (i + 1) l name = (Some o, j) ->
                 outputName o' <> Some name).
  { intros Hx E'. rewrite E' in Hs. destruct Hs as (Hj & _).
    destruct k as [|k]; cbn [nth_error] in Hn.
    - injection Hn as <-. exact Hx.
    - apply (IH (i + 1) E' k o'); [lia|exact Hn]. }
  destruct (outputName x) as [n|] eqn:En.
  - unfold strcmp_eq in E. destruct (cstring_eqb n name) eqn:Ec.
    + injection E as <- <-. rewrite Z.sub_diag in Hk. simpl in Hk. lia.
    + apply cstring_eqb_neq in Ec. apply Hrec; [congruence|exact E].
  - apply Hrec; [discriminate|exact E].
Qed.

(** [GetTokenToSep] for any terminators and any size of the token array. *)
Lemma GetTokenToSep_loop_gen (s token : cstring) (size : nat) (terms : cstring) :
  exists full rest,
    s = full ++ rest
    /\ forallb (fun c => negb (strchr terms c)) full = true
    /\ match rest with [] => True | c :: _ => strchr terms c = true end
    /\ GetTokenToSep_loop s token size terms =
       (token ++ firstn (size - 1 - List.length token) full, rest).
Proof.
  revert token. induction s as [|c s IH]; intros token.
  - exists [], []. repeat split. cbn [GetTokenToSep_loop].
    rewrite firstn_nil, List.app_nil_r. reflexivity.
  - cbn [GetTokenToSep_loop]. destruct (strchr terms c) eqn:Ec.
    + exists [], (c :: s). repeat split; [exact Ec|].
      rewrite firstn_nil, List.app_nil_r. reflexivity.
    + destruct (IH (if (size <=? List.length token + 1)%nat then token else token ++ [c]))
        as (full & rest & Hs & Hf & Hr & Hl).
      exists (c :: full), rest. split; [rewrite Hs; reflexivity|].
      split; [cbn [forallb]; rewrite Ec, Hf; reflexivity|]. split; [exact Hr|].
      rewrite Hl. f_equal.
      destruct (size <=? List.length token + 1)%nat eqn:E;
        [apply Nat.leb_le in E|apply Nat.leb_gt in E].
      * replace (size - 1 - List.length token)%nat with 0%nat by lia. reflexivity.
      * rewrite length_app. cbn [List.length].
        replace (size - 1 - List.length token)%nat
          with (S (size - 1 - (List.length token + 1))) by lia.
        cbn [firstn]. rewrite <- List.app_assoc. reflexivity.
Qed.

(** What [ParseContextData] has found when it returns true. *)
Lemma parse_output_sound (st : conf) (pc pc' : PmLogParseContext_t)
  (fac lvl : Z) (inv : bool) (prog s : cstring) :
  parse_output st pc (fac, lvl, inv, prog, s) = Some pc' ->
  no_sep (after_comma_name s) = true
  /\ exists o idx,
       FindOutputByName st (firstn 31 (after_comma_name s)) = (Some o, idx)
       /\ pc' =
          {| pc_name := pc_name pc;
             pc_rules :=
               pc_rules pc ++
               [ {| pr_facility := fac; pr_level := lvl; pr_levelInvert := inv;
                    pr_program := prog; pr_outputIndex := idx;
                    pr_omitOutput := fst (skip_char "-" s) |} ];
             pc_bufferSize := pc_bufferSize pc;
             pc_flushLevel := pc_flushLevel pc |}.
Proof.
  unfold parse_output, after_comma_name.
  destruct (skip_char "-" s) as [omit name]. cbn [fst snd].
  destruct (split_at_sep name) as (tok & Hn & [->|(sep & rest & Hs & ->)]).
  - rewrite (GetTokenToSep_end tok Hn).
    destruct (FindOutputByName st (firstn 31 tok)) as [[o|] j]; [|discriminate].
    rewrite Ascii.eqb_refl. cbn [negb]. intros [= <-].
    split; [exact Hn|]. exists o, j. split; reflexivity.
  - rewrite (GetTokenToSep_sep tok rest sep Hn Hs).
    destruct (FindOutputByName st (firstn 31 tok)) as [[o|] j]; [|discriminate].
    destruct (sep_cases sep Hs) as [->| ->]; cbn; discriminate.
Qed.

Lemma ParseContextData_sound (st : conf) (pc pc' : PmLogParseContext_t)
  (key val : cstring) :
  ParseContextData H st pc key val = Some pc' ->
  exists r s o,
    pc_rules pc' = pc_rules pc ++ [r]
    /\ after_comma val = Some s
    /\ no_sep (after_comma_name s) = true
    /\ pr_omitOutput r = fst (skip_char "-" s)
    /\ FindOutputByName st (firstn 31 (after_comma_name s)) = (Some o, pr_outputIndex r).
Proof.
  rewrite ParseContextData_stages.
  destruct (parse_filter H val) as [[[[[fac lvl] inv] prog] s]|] eqn:Ef; [|discriminate].
  intros Ho. pose proof (parse_filter_after_comma H val s prog fac lvl inv Ef) as Ha.
  destruct (parse_output_sound _ _ _ _ _ _ _ _ Ho) as (Hn & o & idx & Hfind & ->).
  eexists; exists s, o. cbn [pc_rules]. split; [reflexivity|].
  split; [exact Ha|]. split; [exact Hn|]. split; [reflexivity|exact Hfind].
Qed.

Lemma FindOutputByName_range (st : conf) (name : cstring) (o : PmLogFile_t) (idx : Z) :
  FindOutputByName st name = (Some o, idx) ->
  0 <= idx < g_numOutputs st
  /\ nth_error (g_outputConfs st) (Z.to_nat idx) = Some o
  /\ outputName o = Some name.
Proof.
  unfold FindOutputByName, g_numOutputs. intros E.
  pose proof (FindOutputByName_from_spec 0 (g_outputConfs st) name) as Hs.
  rewrite E in Hs. destruct Hs as (Hj & Hn & Ho).
  rewrite Z.sub_0_r in Hn. repeat split; try assumption; lia.
Qed.

(** The rules that the loop over the keys leaves. *)
Lemma read_rules_Forall (P : PmLogParseRule_t -> Prop) (st : conf) (kf : GKeyFile)
  (g : cstring) (n : nat) (j : Z) (pc : PmLogParseContext_t) (rv : bool) :
  (forall pc key val pc',
     ParseContextData H st pc key val = Some pc' ->
     exists r, pc_rules pc' = pc_rules pc ++ [r] /\ P r) ->
  Forall P (pc_rules pc) ->
  Forall P (pc_rules (fst (read_rules H st kf g n j pc rv))).
Proof.
  intros Hstep. revert j pc. induction n as [|n IH]; intros j pc HP;
    cbn [read_rules]; [exact HP|].
  destruct (g_key_file_get_string kf g (ruleName (j + 1))) as [v|]; [|exact HP].
  destruct (ParseContextData H st pc (ruleName (j + 1)) v) as [pc'|] eqn:E; [|exact HP].
  apply IH. destruct (Hstep _ _ _ _ E) as (r & -> & Hr).
  apply Forall_app. split; [exact HP|constructor; [exact Hr|constructor]].
Qed.

Lemma read_rules_length (st : conf) (kf : GKeyFile)
  (g : cstring) (n : nat) (j : Z) (pc : PmLogParseContext_t) (rv : bool) :
  (List.length (pc_rules (fst (read_rules H st kf g n j pc rv)))
   <= List.length (pc_rules pc) + n)%nat.
Proof.
  revert j pc. induction n as [|n IH]; intros j pc; cbn [read_rules]; [cbn [fst]; lia|].
  destruct (g_key_file_get_string kf g (ruleName (j + 1))) as [v|]; [|cbn [fst]; lia].
  destruct (ParseContextData H st pc (ruleName (j + 1)) v) as [pc'|] eqn:E;
    [|cbn [fst]; lia].
  specialize (IH (j + 1) pc').
  destruct (ParseContextData_sound _ _ _ _ _ E) as (r & _ & _ & Hr & _).
  rewrite Hr, length_app in IH. cbn [List.length] in IH. lia.
Qed.

Lemma ParseContextInit_rules (st : conf) (name : cstring) :
  pc_rules (snd (ParseContextInit H st name)) = [].
Proof.
  unfold ParseContextInit.
  destruct ((g_numContexts st =? 0) && negb (strcmp_eq PMLOG_CONTEXT_GLOBAL name));
    reflexivity.
Qed.

Lemma context_section_rules (kf : GKeyFile) (g : cstring) (l l1 : locals) (st : conf)
  (pc : PmLogParseContext_t) :
  context_section H kf g l st = Returns (pc, l1) ->
  pc_rules pc =
  pc_rules (fst (read_rules H st kf g (PMLOG_CONTEXT_MAX_NUM_RULES H) 0
                   (snd (ParseContextInit H st (skipn 8 g))) (retVal l))).
Proof.
  unfold context_section.
  destruct (read_rules H st kf g (PMLOG_CONTEXT_MAX_NUM_RULES H) 0
              (snd (ParseContextInit H st (skipn 8 g))) (retVal l)) as [pc1 rv].
  cbn [fst]. intros E. exact (proj2 (read_buffer_keys_name H _ _ _ _ _ _ E)).
Qed.

Lemma context_section_in_range (kf : GKeyFile) (g : cstring) (l l1 : locals) (st : conf)
  (pc : PmLogParseContext_t) :
  context_section H kf g l st = Returns (pc, l1) ->
  Forall (fun r => 0 <= pr_outputIndex r < g_numOutputs st) (pc_rules pc).
Proof.
  intros E. rewrite (context_section_rules _ _ _ _ _ _ E). apply read_rules_Forall.
  - intros pc0 key val pc' E0.
    destruct (ParseContextData_sound _ _ _ _ _ E0) as (r & s & o & Hr & _ & _ & _ & Hf).
    exists r. split; [exact Hr|]. exact (proj1 (FindOutputByName_range _ _ _ _ Hf)).
  - rewrite ParseContextInit_rules. constructor.
Qed.

Lemma context_section_bounded (kf : GKeyFile) (g : cstring) (l l1 : locals) (st : conf)
  (pc : PmLogParseContext_t) :
  context_section H kf g l st = Returns (pc, l1) ->
  (List.length (pc_rules pc) <= PMLOG_CONTEXT_MAX_NUM_RULES H)%nat.
Proof.
  intros E. rewrite (context_section_rules _ _ _ _ _ _ E).
  pose proof (read_rules_length st kf g (PMLOG_CONTEXT_MAX_NUM_RULES H) 0
                (snd (ParseContextInit H st (skipn 8 g))) (retVal l)) as Hl.
  rewrite ParseContextInit_rules in Hl. exact Hl.
Qed.

(** *** The tree of contexts *)

Lemma tree_replace_In {V : Type} (k : cstring) (v : V) (t : GTree V) (k' : cstring) (v' : V) :
  In (k', v') (tree_replace k v t) -> In (k', v') t \/ v' = v.
Proof.
  induction t as [|[k0 v0] t IH]; [intros []|].
  cbn [tree_replace]. destruct (cstring_eqb k k0).
  - intros [E|Hin]; [injection E as <- <-; right; reflexivity|left; right; exact Hin].
  - intros [E|Hin]; [left; left; exact E|].
    destruct (IH Hin) as [Ht|Hv]; [left; right; exact Ht|right; exact Hv].
Qed.

Lemma tree_replace_length {V : Type} (k : cstring) (v : V) (t : GTree V) :
  List.length (tree_replace k v t) = List.length t.
Proof.
  rewrite <- (length_map fst (tree_replace k v t)), tree_replace_keys.
  apply length_map.
Qed.

Lemma assoc_tree_replace_other {V : Type} (k k' : cstring) (v : V) (t : GTree V) :
  k' <> k -> assoc k' (tree_replace k v t) = assoc k' t.
Proof.
  intros Hne. induction t as [|[k0 v0] t IH]; [reflexivity|].
  cbn [tree_replace]. destruct (cstring_eqb k k0) eqn:E.
  - apply cstring_eqb_eq in E. subst k0. cbn [assoc].
    destruct (cstring_eqb k' k) eqn:E'; [apply cstring_eqb_eq in E'; contradiction|].
    reflexivity.
  - cbn [assoc]. destruct (cstring_eqb k' k0); [reflexivity|exact IH].
Qed.

Lemma assoc_app_other {V : Type} (k k' : cstring) (v : V) (t : GTree V) :
  k' <> k -> assoc k' (t ++ [(k, v)]) = assoc k' t.
Proof.
  intros Hne. induction t as [|[k0 v0] t IH].
  - cbn [app assoc].
    destruct (cstring_eqb k' k) eqn:E'; [apply cstring_eqb_eq in E'; contradiction|].
    reflexivity.
  - cbn [app assoc]. destruct (cstring_eqb k' k0); [reflexivity|exact IH].
Qed.

Lemma tree_replace_new {V : Type} (k : cstring) (v v0 : V) (t : GTree V) :
  assoc k t = None -> tree_replace k v (t ++ [(k, v0)]) = t ++ [(k, v)].
Proof.
  induction t as [|[k0 x0] t IH]; cbn [app tree_replace assoc].
  - rewrite cstring_eqb_refl. reflexivity.
  - destruct (cstring_eqb k k0); [discriminate|]. intros E. rewrite (IH E). reflexivity.
Qed.

(** The contexts of the tree after [MakeContextConf]: those of before, and
    the one of [parseContext]. *)
Lemma MakeContextConf_contexts (st : conf) (pc : PmLogParseContext_t)
  (t' : GTree PmLogContextConf_t) (name : cstring) (c : PmLogContextConf_t) :
  g_contextConfs (snd (MakeContextConf st pc)) = Some t' ->
  In (name, c) t' ->
  (exists t, g_contextConfs st = Some t /\ In (name, c) t)
  \/ rules c = map rule_of_parse (pc_rules pc).
Proof.
  unfold MakeContextConf.
  destruct (g_contextConfs st) as [t|] eqn:Et; cbn [g_tree_lookup].
  - destruct (assoc (pc_name pc) t) as [c0|] eqn:Ea.
    + cbn [snd g_contextConfs]. rewrite Et. cbn [tree_store].
      intros [= <-] Hin. apply tree_replace_In in Hin.
      destruct Hin as [Hin| ->]; [left; exists t; auto|right; reflexivity].
    + unfold CreateContext. rewrite Et. cbn [g_tree_insert]. rewrite Ea.
      cbn [snd g_contextConfs tree_store]. rewrite (tree_replace_new _ _ _ _ Ea).
      intros [= <-] Hin. apply in_app_or in Hin. destruct Hin as [Hin|[E|[]]].
      * left. exists t. auto.
      * injection E as <- <-. right. reflexivity.
  - unfold CreateContext. rewrite Et.
    cbn [g_tree_insert snd g_contextConfs tree_store]. discriminate.
Qed.

End Contexts.
(** ** What the sections keep *)

Section Invariants.

Variable H : main_h.

Lemma MakeContextConf_outputs (st : conf) (pc : PmLogParseContext_t) :
  g_outputConfs (snd (MakeContextConf st pc)) = g_outputConfs st.
Proof. exact (proj1 (proj2 (MakeContextConf_spec st pc))). Qed.

Lemma rules_in_range_MakeOutputConf (st st' : conf) (po po' : PmLogParseOutput_t) (b : bool) :
  rules_in_range st -> MakeOutputConf H st po = (b, po', st') -> rules_in_range st'.
Proof.
  intros Hr Hm t name c Ht Hin.
  destruct (MakeOutputConf_spec H _ _ _ _ _ Hm) as (_ & Hcc & _).
  pose proof (proj1 (MakeOutputConf_length H _ _ _ _ _ Hm)) as Hlen.
  rewrite Hcc in Ht. specialize (Hr t name c Ht Hin). cbv beta in Hr.
  eapply Forall_impl; [|exact Hr].
  intros r Hx. unfold g_numOutputs in *. lia.
Qed.

Lemma rules_in_range_MakeContextConf (st : conf) (pc : PmLogParseContext_t) :
  rules_in_range st ->
  Forall (fun r => 0 <= pr_outputIndex r < g_numOutputs st) (pc_rules pc) ->
  rules_in_range (snd (MakeContextConf st pc)).
Proof.
  intros Hr Hpc t' name c Ht' Hin. cbv beta.
  unfold g_numOutputs. rewrite MakeContextConf_outputs. fold (g_numOutputs st).
  destruct (MakeContextConf_contexts st pc t' name c Ht' Hin) as [(t & Ht & Hin')|Hc].
  - exact (Hr t name c Ht Hin').
  - rewrite Hc. apply Forall_map. exact Hpc.
Qed.

Lemma rules_bounded_MakeOutputConf (st st' : conf) (po po' : PmLogParseOutput_t) (b : bool) :
  rules_bounded H st -> MakeOutputConf H st po = (b, po', st') -> rules_bounded H st'.
Proof.
  intros Hr Hm t name c Ht Hin.
  destruct (MakeOutputConf_spec H _ _ _ _ _ Hm) as (_ & Hcc & _).
  rewrite Hcc in Ht. exact (Hr t name c Ht Hin).
Qed.

Lemma rules_bounded_MakeContextConf (st : conf) (pc : PmLogParseContext_t) :
  rules_bounded H st ->
  (List.length (pc_rules pc) <= PMLOG_CONTEXT_MAX_NUM_RULES H)%nat ->
  rules_bounded H (snd (MakeContextConf st pc)).
Proof.
  intros Hr Hpc t' name c Ht' Hin. cbv beta.
  destruct (MakeContextConf_contexts st pc t' name c Ht' Hin) as [(t & Ht & Hin')|Hc].
  - exact (Hr t name c Ht Hin').
  - rewrite Hc, length_map. exact Hpc.
Qed.

Lemma contexts_counted_MakeOutputConf (st st' : conf) (po po' : PmLogParseOutput_t)
  (b : bool) :
  contexts_counted st -> MakeOutputConf H st po = (b, po', st') -> contexts_counted st'.
Proof.
  unfold contexts_counted. intros Hc Hm.
  destruct (MakeOutputConf_spec H _ _ _ _ _ Hm) as (-> & -> & _). exact Hc.
Qed.

Lemma contexts_counted_CreateContext (st : conf) (name : cstring) :
  contexts_counted (snd (CreateContext st name)).
Proof. reflexivity. Qed.

Lemma contexts_counted_MakeContextConf (st : conf) (pc : PmLogParseContext_t) :
  contexts_counted st -> contexts_counted (snd (MakeContextConf st pc)).
Proof.
  unfold contexts_counted, MakeContextConf. intros Hc.
  destruct (g_contextConfs st) as [t|] eqn:Et; cbn [g_tree_lookup].
  - destruct (assoc (pc_name pc) t) as [c0|] eqn:Ea.
    + cbn [snd g_contextConfs g_numContexts]. rewrite Et, Hc.
      cbn [tree_store g_tree_nnodes]. rewrite tree_replace_length. reflexivity.
    + unfold CreateContext. rewrite Et. cbn [g_tree_insert]. rewrite Ea.
      cbn [snd g_contextConfs g_numContexts tree_store g_tree_nnodes].
      rewrite tree_replace_length. reflexivity.
  - unfold CreateContext. rewrite Et. reflexivity.
Qed.

Lemma no_tree_MakeOutputConf (st st' : conf) (po po' : PmLogParseOutput_t) (b : bool) :
  g_contextConfs st = None -> MakeOutputConf H st po = (b, po', st') ->
  g_contextConfs st' = None.
Proof.
  intros Hn Hm. destruct (MakeOutputConf_spec H _ _ _ _ _ Hm) as (_ & -> & _). exact Hn.
Qed.

Lemma no_tree_MakeContextConf (st : conf) (pc : PmLogParseContext_t) :
  g_contextConfs st = None -> g_contextConfs (snd (MakeContextConf st pc)) = None.
Proof.
  intros Hn. pose proof (proj2 (proj2 (MakeContextConf_spec st pc))) as Hs.
  rewrite Hn in Hs. exact Hs.
Qed.

(** A new name when the table is full. *)
Lemma MakeOutputConf_full (st : conf) (po : PmLogParseOutput_t) :
  (PMLOG_MAX_NUM_OUTPUTS H <= List.length (g_outputConfs st))%nat ->
  ~ In (Some (po_name po)) (map outputName (g_outputConfs st)) ->
  MakeOutputConf H st po = (false, po, st).
Proof.
  intros Hfull Hnew. unfold MakeOutputConf.
  destruct (po_File po) as [|c p]; [reflexivity|].
  destruct (Ascii.eqb c "/"); [|reflexivity]. cbn [negb].
  rewrite (FindOutputByName_missing st (po_name po) Hnew).
  apply Nat.leb_le in Hfull. rewrite Hfull. reflexivity.
Qed.

(** *** Groups that are not looked at *)

Lemma assoc_filter {A : Type} (P : cstring -> bool) (k : cstring) (l : list (cstring * A)) :
  P k = true -> assoc k (filter (fun e => P (fst e)) l) = assoc k l.
Proof.
  intros Hk. induction l as [|[k0 v0] l IH]; [reflexivity|].
  cbn [filter fst assoc]. destruct (P k0) eqn:E0.
  - cbn [assoc]. destruct (cstring_eqb k k0); [reflexivity|exact IH].
  - destruct (cstring_eqb k k0) eqn:E; [|exact IH].
    apply cstring_eqb_eq in E. subst k0. congruence.
Qed.

Lemma get_string_filter (kf : GKeyFile) (g key : cstring) :
  recognised g = true ->
  g_key_file_get_string (filter (fun e => recognised (fst e)) kf) g key =
  g_key_file_get_string kf g key.
Proof.
  intros Hg. unfold g_key_file_get_string.
  rewrite (assoc_filter recognised g kf Hg). reflexivity.
Qed.

Lemma read_rules_ext (kf kf' : GKeyFile) (st : conf) (g : cstring) (n : nat) (j : Z)
  (pc : PmLogParseContext_t) (rv : bool) :
  (forall key, g_key_file_get_string kf' g key = g_key_file_get_string kf g key) ->
  read_rules H st kf' g n j pc rv = read_rules H st kf g n j pc rv.
Proof.
  intros He. revert j pc. induction n as [|n IH]; intros j pc; [reflexivity|].
  cbn [read_rules]. rewrite He.
  destruct (g_key_file_get_string kf g (ruleName (j + 1))) as [v|]; [|reflexivity].
  destruct (ParseContextData H st pc (ruleName (j + 1)) v); [apply IH|reflexivity].
Qed.

Lemma sections_ext (kf kf' : GKeyFile) (g : cstring) :
  (forall key, g_key_file_get_string kf' g key = g_key_file_get_string kf g key) ->
  (forall st, output_section H kf' g st = output_section H kf g st)
  /\ (forall l st, context_section H kf' g l st = context_section H kf g l st).
Proof.
  intros He. split.
  - intros st. unfold output_section, read_output_keys, g_key_file_get_integer.
    rewrite !He. reflexivity.
  - intros l st. unfold context_section.
    rewrite (read_rules_ext kf kf') by exact He.
    destruct (read_rules H st kf g (PMLOG_CONTEXT_MAX_NUM_RULES H) 0
                (snd (ParseContextInit H st (skipn 8 g))) (retVal l)) as [pc1 rv].
    unfold read_buffer_keys. rewrite !He. reflexivity.
Qed.

Lemma groups_loop_filter (kf : GKeyFile) (groups : list cstring) (l : locals) (st : conf) :
  groups_loop H (filter (fun e => recognised (fst e)) kf) (filter recognised groups) l st =
  groups_loop H kf groups l st.
Proof.
  revert l st. induction groups as [|g groups IH]; intros l st; [reflexivity|].
  cbn [filter]. destruct (recognised g) eqn:Eg.
  - destruct (sections_ext kf (filter (fun e => recognised (fst e)) kf) g
                (fun key => get_string_filter kf g key Eg)) as [Ho Hc].
    destruct (recognised_cases g) as [Hp|[Hp|Hp]]; [| |congruence].
    + rewrite !(groups_loop_output H _ g _ l st Hp), Ho.
      destruct (MakeOutputConf H st (fst (output_section H kf g st))) as [[[] po'] st'];
        [apply IH|reflexivity].
    + rewrite !(groups_loop_context H _ g _ l st Hp), Hc.
      destruct (context_section H kf g l st) as [[pc l1]|]; [apply IH|reflexivity].
  - rewrite (groups_loop_other H kf g groups l st Eg). apply IH.
Qed.

Lemma groups_filter (kf : GKeyFile) :
  g_key_file_get_groups (filter (fun e => recognised (fst e)) kf) =
  filter recognised (g_key_file_get_groups kf).
Proof.
  unfold g_key_file_get_groups. induction kf as [|[k v] kf IH]; [reflexivity|].
  cbn [filter map fst]. destruct (recognised k); cbn [map fst]; rewrite IH; reflexivity.
Qed.

End Invariants.

(** ** The limits and the names *)

Section Limits.

Variable H : main_h.

Lemma MakeOutputConf_limits (st st' : conf) (po po' : PmLogParseOutput_t) :
  MakeOutputConf H st po = (true, po', st') ->
  po_name po' = po_name po /\ po_File po' = po_File po
  /\ po_MaxSize po' =
     (if is_uninit H (po_MaxSize po) then PMLOG_DEFAULT_LOG_SIZE
      else Z.max PMLOG_MIN_LOG_SIZE (Z.min PMLOG_MAX_LOG_SIZE (po_MaxSize po)))
  /\ po_Rotations po' =
     (if is_uninit H (po_Rotations po) then po_Rotations po
      else Z.max PMLOG_MIN_NUM_ROTATIONS (Z.min PMLOG_MAX_NUM_ROTATIONS (po_Rotations po))).
Proof.
  unfold MakeOutputConf.
  destruct (po_File po) as [|c p] eqn:EF; cbn [negb]; [intros E; discriminate E|].
  destruct (Ascii.eqb c "/"); cbn [negb]; [|intros E; discriminate E].
  assert (Hm : (if is_uninit H (po_MaxSize po) then PMLOG_DEFAULT_LOG_SIZE
                else if po_MaxSize po <? PMLOG_MIN_LOG_SIZE then PMLOG_MIN_LOG_SIZE
                     else if PMLOG_MAX_LOG_SIZE <? po_MaxSize po then PMLOG_MAX_LOG_SIZE
                          else po_MaxSize po)
               = (if is_uninit H (po_MaxSize po) then PMLOG_DEFAULT_LOG_SIZE
                  else Z.max PMLOG_MIN_LOG_SIZE (Z.min PMLOG_MAX_LOG_SIZE (po_MaxSize po)))).
  { destruct (is_uninit H (po_MaxSize po)); [reflexivity|].
    unfold PMLOG_MIN_LOG_SIZE, PMLOG_MAX_LOG_SIZE.
    destruct (po_MaxSize po <? 4096) eqn:E1;
      [apply Z.ltb_lt in E1; lia|apply Z.ltb_ge in E1].
    destruct (64 * 1024 * 1024 <? po_MaxSize po) eqn:E2;
      [apply Z.ltb_lt in E2|apply Z.ltb_ge in E2]; lia. }
  rewrite Hm.
  assert (Hrot : forall (idx : nat) (st1 : conf),
            (let '(Rotations, st2) :=
               if is_uninit H (po_Rotations po) then
                 (po_Rotations po,
                  {| g_outputConfs :=
                       update_nth idx (fun o => set_rotations o PMLOG_DEFAULT_LOG_ROTATIONS)
                         (g_outputConfs st1);
                     g_numContexts := g_numContexts st1;
                     g_contextConfs := g_contextConfs st1 |})
               else if po_Rotations po <? PMLOG_MIN_NUM_ROTATIONS
                    then (PMLOG_MIN_NUM_ROTATIONS, st1)
                    else if PMLOG_MAX_NUM_ROTATIONS <? po_Rotations po
                         then (PMLOG_MAX_NUM_ROTATIONS, st1)
                         else (po_Rotations po, st1) in
             (true,
              {| po_name := po_name po; po_File := c :: p;
                 po_MaxSize :=
                   (if is_uninit H (po_MaxSize po) then PMLOG_DEFAULT_LOG_SIZE
                    else Z.max PMLOG_MIN_LOG_SIZE
                           (Z.min PMLOG_MAX_LOG_SIZE (po_MaxSize po)));
                 po_Rotations := Rotations |},
              st2)) = (true, po', st') ->
            po_name po' = po_name po /\ po_File po' = c :: p
            /\ po_MaxSize po' =
               (if is_uninit H (po_MaxSize po) then PMLOG_DEFAULT_LOG_SIZE
                else Z.max PMLOG_MIN_LOG_SIZE (Z.min PMLOG_MAX_LOG_SIZE (po_MaxSize po)))
            /\ po_Rotations po' =
               (if is_uninit H (po_Rotations po) then po_Rotations po
                else Z.max PMLOG_MIN_NUM_ROTATIONS
                       (Z.min PMLOG_MAX_NUM_ROTATIONS (po_Rotations po)))).
  { intros idx st1.
    destruct (is_uninit H (po_Rotations po)).
    - intros [= <- <-]. cbn [po_name po_File po_MaxSize po_Rotations]. auto.
    - unfold PMLOG_MIN_NUM_ROTATIONS, PMLOG_MAX_NUM_ROTATIONS.
      destruct (po_Rotations po <? 1) eqn:E1;
        [apply Z.ltb_lt in E1|apply Z.ltb_ge in E1];
        [|destruct (9 <? po_Rotations po) eqn:E2;
          [apply Z.ltb_lt in E2|apply Z.ltb_ge in E2]];
        intros [= <- <-]; cbn [po_name po_File po_MaxSize po_Rotations];
        repeat split; lia. }
  destruct (FindOutputByName st (po_name po)) as [[o|] j].
  - apply Hrot.
  - destruct (PMLOG_MAX_NUM_OUTPUTS H <=? List.length (g_outputConfs st))%nat;
      [intros E; discriminate E|apply Hrot].
Qed.

Lemma output_section_name (kf : GKeyFile) (g : cstring) (st : conf) :
  (List.length (po_name (fst (output_section H kf g st)))
   <= PMLOG_OUTPUT_MAX_NAME_LENGTH H)%nat.
Proof.
  unfold output_section.
  rewrite (proj1 (read_output_keys_fields kf g _)).
  unfold ParseOutputInit.
  destruct ((g_numOutputs st =? 0) && negb (strcmp_eq PMLOG_OUTPUT_STDLOG (skipn 7 g)));
    cbn [snd po_name zero_ParseOutput]; [simpl; lia|].
  rewrite mystrcpy_field_spec by lia. rewrite length_firstn. lia.
Qed.

Lemma context_section_name (kf : GKeyFile) (g : cstring) (l l1 : locals) (st : conf)
  (pc : PmLogParseContext_t) :
  context_section H kf g l st = Returns (pc, l1) ->
  (List.length (pc_name pc) <= PMLOG_MAX_CONTEXT_NAME_LEN H)%nat.
Proof.
  unfold context_section.
  pose proof (read_rules_name H st kf g (PMLOG_CONTEXT_MAX_NUM_RULES H) 0
                (snd (ParseContextInit H st (skipn 8 g))) (retVal l)) as (Hn & _).
  destruct (read_rules H st kf g (PMLOG_CONTEXT_MAX_NUM_RULES H) 0
              (snd (ParseContextInit H st (skipn 8 g))) (retVal l)) as [pc1 rv].
  cbn [fst] in Hn. intros E.
  rewrite (proj1 (read_buffer_keys_name H _ _ _ _ _ _ E)), Hn.
  unfold ParseContextInit.
  destruct ((g_numContexts st =? 0) && negb (strcmp_eq PMLOG_CONTEXT_GLOBAL (skipn 8 g)));
    cbn [snd pc_name zero_ParseContext]; [simpl; lia|].
  rewrite mystrcpy_field_spec by lia. rewrite length_firstn. lia.
Qed.

Lemma names_fit_MakeOutputConf (st st' : conf) (po po' : PmLogParseOutput_t) (b : bool) :
  (List.length (po_name po) <= PMLOG_OUTPUT_MAX_NAME_LENGTH H)%nat ->
  names_fit H st -> MakeOutputConf H st po = (b, po', st') -> names_fit H st'.
Proof.
  intros Hpo [Ho Hc] Hm.
  destruct (MakeOutputConf_spec H _ _ _ _ _ Hm) as (_ & Hcc & Hcase).
  split; [|rewrite Hcc; exact Hc].
  destruct Hcase as [[_ ->]|(_ & _ & [[_ Hn]|(_ & _ & Hn)])]; rewrite ?Hn; try exact Ho.
  intros n Hin. apply in_app_or in Hin. destruct Hin as [Hin|[E|[]]]; [exact (Ho n Hin)|].
  injection E as <-. exact Hpo.
Qed.

Lemma names_fit_MakeContextConf (st : conf) (pc : PmLogParseContext_t) :
  (List.length (pc_name pc) <= PMLOG_MAX_CONTEXT_NAME_LEN H)%nat ->
  names_fit H st -> names_fit H (snd (MakeContextConf st pc)).
Proof.
  intros Hpc [Ho Hc].
  destruct (MakeContextConf_spec st pc) as (_ & Hout & Htree).
  split; [rewrite Hout; exact Ho|].
  intros t' k Ht' Hin.
  destruct (g_contextConfs st) as [t|]; [|rewrite Htree in Ht'; discriminate].
  destruct Htree as (t1 & c & Ht1 & _ & _ & _ & Hk).
  rewrite Ht1 in Ht'. injection Ht' as <-.
  destruct Hk as [[_ Hk]|[_ Hk]]; rewrite Hk in Hin.
  - exact (Hc t k eq_refl Hin).
  - apply in_app_or in Hin. destruct Hin as [Hin|[<-|[]]]; [exact (Hc t k eq_refl Hin)|].
    exact Hpc.
Qed.

(** As [groups_loop_invariant], with what is known of the sections. *)
Lemma groups_loop_names_fit (kf : GKeyFile) (groups : list cstring) (l l' : locals)
  (st st' : conf) :
  names_fit H st -> groups_loop H kf groups l st = Returns (l', st') -> names_fit H st'.
Proof.
  revert l st. induction groups as [|g groups IH]; intros l st HP.
  - cbn [groups_loop]. intros [= <- <-]. exact HP.
  - destruct (recognised_cases g) as [Hp|[Hp|Hp]].
    + rewrite (groups_loop_output H kf g _ l st Hp).
      destruct (MakeOutputConf H st (fst (output_section H kf g st)))
        as [[b po'] st1] eqn:Em.
      pose proof (names_fit_MakeOutputConf _ _ _ _ _ (output_section_name kf g st) HP Em)
        as HP'.
      destruct b; [apply IH; exact HP'|intros [= <- <-]; exact HP'].
    + rewrite (groups_loop_context H kf g _ l st Hp).
      destruct (context_section H kf g l st) as [[pc l1]|] eqn:Ec; [|discriminate].
      apply IH.
      apply names_fit_MakeContextConf; [exact (context_section_name _ _ _ _ _ _ Ec)|exact HP].
    + rewrite (groups_loop_other H kf g _ l st Hp). apply IH. exact HP.
Qed.

End Limits.
(** ** What a section stores *)

Section Updates.

Variable H : main_h.






End Updates.

(** * The properties of the specification *)

(** The functions at work on small inputs. *)
Example ParseSize_examples :
  ParseSize (cs "16K") = Some 16384 /\ ParseSize (cs "1mb") = Some 1048576
  /\ ParseSize (cs "5MK") = Some 5242880 /\ ParseSize (cs "5KM") = None
  /\ ParseSize (cs "0x10") = Some 16 /\ ParseSize (cs "010") = Some 8
  /\ ParseSize (cs "-1") = Some (-1) /\ ParseSize (cs "08") = None
  /\ ParseSize (cs " 12") = Some 12 /\ ParseSize (cs "12 ") = None
  /\ ParseSize (cs "") = None /\ ParseSize (cs "K") = None.
Proof. vm_compute. repeat split. Qed.

Example GetTokenToSep_examples :
  GetTokenToSep (cs "kern.err,stdlog") 32 (cs ".,") = (cs "kern", "."%char, cs "err,stdlog")
  /\ GetTokenToSep (cs "stdlog") 32 (cs ".,") = (cs "stdlog", NUL, [])
  /\ GetTokenToSep (cs "abcdef,x") 4 (cs ".,") = (cs "abc", ","%char, cs "x").
Proof. vm_compute. repeat split. Qed.

Example mystrcpy_examples :
  mystrcpy (Some (cs "XXXXXX")) 4 (Some (cs "ab")) = Some (cs "ab" ++ NUL :: cs "XXX")
  /\ mystrcpy (Some (cs "XXXXXX")) 4 (Some (cs "abcdef")) = Some (cs "abc" ++ NUL :: cs "XX")
  /\ mystrcpy (Some (cs "XXXXXX")) 4 None = Some (NUL :: cs "XXXXX")
  /\ mystrcpy (Some (cs "XXXXXX")) 0 (Some (cs "ab")) = Some (cs "XXXXXX")
  /\ mystrcpy None 4 (Some (cs "ab")) = None.
Proof. vm_compute. repeat split. Qed.

(** The example of the specification loads, with both rules and with
    what [RBNew] returns for 16 KiB and the level of warning. *)
Example ReadConfFile_example :
  ReadConfFile (spec_main_h (-1)) (Some file_example) empty_conf =
  Returns
    (true,
     {| g_outputConfs :=
          [ {| outputName := Some (cs "stdlog"); path := Some (cs "/var/log/messages");
               maxSize := 0; rotations := 0 |} ];
        g_numContexts := 1;
        g_contextConfs :=
          Some [ (cs "<global>",
                  {| contextName := cs "<global>";
                     rules :=
                       [ {| facility := -1; level := -1; levelInvert := false;
                            program := None; outputIndex := 0; omitOutput := false |};
                         {| facility := 0; level := 3; levelInvert := false;
                            program := None; outputIndex := 0; omitOutput := true |} ];
                     rb := RBNew 16384 4 |}) ] |}).
Proof. vm_compute. reflexivity. Qed.

(** The stdlog section alone loads and leaves [conf_stdlog]. *)
Example ReadConfFile_stdlog (uninit : Z) :
  ReadConfFile (spec_main_h uninit) (Some [stdlog_section]) empty_conf =
  Returns (true, conf_stdlog uninit).
Proof.
  cbv -[is_uninit].
  repeat match goal with
         | |- context [is_uninit ?h ?n] => destruct (is_uninit h n)
         end; reflexivity.
Qed.

(** C1.  The first [OUTPUT=] group is [foo] and not [stdlog]:
    [ParseOutputInit] returns false, but [ReadConfFile] does not test what
    it returns, goes on with the [parseOutput] that was cleared and returns
    true, with an output of empty name in the table.  And the first
    [CONTEXT=] group is [foo] and not the global context:
    [ParseContextInit] returns false, and [ReadConfFile] returns true with
    a context of empty name in the tree.  The load that the claim says fails
    is accepted. *)
Theorem first_group_name_not_enforced (uninit : Z) :
  fst (ParseOutputInit (spec_main_h uninit) empty_conf (cs "foo")) = false
  /\ (exists st',
        ReadConfFile (spec_main_h uninit) (Some file_first_output_foo) empty_conf
        = Returns (true, st')
        /\ map outputName (g_outputConfs st') = [Some []])
  /\ fst (ParseContextInit (spec_main_h uninit) (conf_stdlog uninit) (cs "foo")) = false
  /\ (exists st',
        ReadConfFile (spec_main_h uninit) (Some file_first_context_foo) empty_conf
        = Returns (true, st')
        /\ option_map (map fst) (g_contextConfs st') = Some [[]]).
Proof.
  split; [|split; [|split]];
    cbv -[is_uninit];
    repeat match goal with
           | |- context [is_uninit ?h ?n] => destruct (is_uninit h n)
           end;
    try reflexivity; eexists; split; reflexivity.
Qed.

(** C2.  [MakeOutputConf] clamps MaxSize and Rotations in [parseOutput] and
    never stores them in the output: an accepted file with [MaxSize=1M] and
    [Rotations=2] leaves a maximum size of 0 and a rotation count of 0 in
    the table (1, the default, when 2 is the sentinel of an integer that
    was not set), and with [MaxSize=100] and [Rotations=12] the values
    stored are 0 and 0 where the nearest legal bounds are 4096 and 9, which
    is what [parseOutput] holds when [MakeOutputConf] returns. *)
Theorem output_limits_not_stored (uninit : Z) :
  (exists st',
     ReadConfFile (spec_main_h uninit) (Some file_limits_in_range) empty_conf
     = Returns (true, st')
     /\ map (fun o => (maxSize o, rotations o)) (g_outputConfs st')
        = [(0, if is_uninit (spec_main_h uninit) 2 then 1 else 0)])
  /\ (exists st',
        ReadConfFile (spec_main_h uninit) (Some file_limits_out_of_range) empty_conf
        = Returns (true, st')
        /\ map (fun o => (maxSize o, rotations o)) (g_outputConfs st')
           = [(0, if is_uninit (spec_main_h uninit) 12 then 1 else 0)])
  /\ (let po := {| po_name := cs "stdlog"; po_File := cs "/var/log/messages";
                   po_MaxSize := 100; po_Rotations := 12 |} in
      let '(ok, po', st') := MakeOutputConf (spec_main_h uninit) empty_conf po in
      ok = true
      /\ po_MaxSize po' = (if is_uninit (spec_main_h uninit) 100 then 1048576 else 4096)
      /\ po_Rotations po' = (if is_uninit (spec_main_h uninit) 12 then 12 else 9)
      /\ map maxSize (g_outputConfs st') = [0]).
Proof.
  split; [|split];
    cbv -[is_uninit];
    repeat match goal with
           | |- context [is_uninit ?h ?n] => destruct (is_uninit h n)
           end;
    try (eexists; split; reflexivity); repeat split; reflexivity.
Qed.

(** C3.  [SetDefaultConf] begins with [ClearConf], which leaves
    [g_contextConfs] NULL, and nothing makes a new tree: [g_tree_lookup] and
    [g_tree_insert] return at once on NULL, so the global context that
    [CreateContext] allocates is in no table.  After [SetDefaultConf],
    from whatever configuration, the output table is the one output
    [stdlog] with the default path, size and rotations, as the claim says,
    and the context table is NULL with [g_numContexts] 0, where the claim
    says it holds the global context. *)
Theorem SetDefaultConf_leaves_no_context_tree (st : conf) :
  SetDefaultConf st =
  {| g_outputConfs :=
       [ {| outputName := Some (cs "stdlog");
            path := Some (cs "/var/log/messages");
            maxSize := 1048576;
            rotations := 1 |} ];
     g_numContexts := 0;
     g_contextConfs := None |}
  /\ g_tree_lookup (g_contextConfs (SetDefaultConf st)) PMLOG_CONTEXT_GLOBAL = None
  /\ g_tree_nnodes (g_contextConfs (SetDefaultConf st)) = 0.
Proof. repeat split. Qed.

(** C4, as stated, fails for an output name longer than the 31 characters
    of a token: the rule names an output of 32 characters that no section
    declares, [GetTokenToSep] cuts the name, the 31 characters left are the
    name of the second output, and the file is accepted with the rule
    pointing to that output. *)
Lemma long_output_name_resolves :
  exists st',
    ReadConfFile (spec_main_h (-1)) (Some file_long_output_name) empty_conf
    = Returns (true, st')
    /\ ~ In (Some (rule_output_name (cs "*.*,aaaaaaaaaaaaaaaaaaaaaaaaaaaaaaaX")))
            (map outputName (g_outputConfs st'))
    /\ option_map (map outputIndex)
         (option_map rules (g_tree_lookup (g_contextConfs st') PMLOG_CONTEXT_GLOBAL))
       = Some [1].
Proof.
  eexists. split; [vm_compute; reflexivity|]. split; [|vm_compute; reflexivity].
  vm_compute. intros [E|[E|[]]]; discriminate E.
Qed.

(** C4 (amended).  For every context rule that the loader comes to (the
    keys Rule1 to Rulek of a [CONTEXT=] group are there, k within the rule
    array) whose output name, that is what follows the first comma and the
    optional '-', cut to the 31 characters of a token, is not the name of
    an output in the table when the group is read (the outputs of the
    sections before it), rule parsing fails and the whole load fails:
    [ParseContextData] returns false, and [ReadConfFile] returns nothing
    but false; it does return, and false, when every [OUTPUT=] section of
    the file has a Rotations key that reads as an integer. *)
Theorem unknown_output_fails_load (H : main_h) (kf : GKeyFile) (st : conf)
  (pre post : list cstring) (g v : cstring) (k : Z) (l1 : locals) (st1 : conf) :
  g_key_file_get_groups kf = pre ++ g :: post ->
  g_str_has_prefix g (cs "CONTEXT=") = true ->
  1 <= k <= Z.of_nat (PMLOG_CONTEXT_MAX_NUM_RULES H) ->
  (forall i, 1 <= i <= k -> g_key_file_get_string kf g (ruleName i) <> None) ->
  g_key_file_get_string kf g (ruleName k) = Some v ->
  groups_loop H kf pre {| retVal := true; gerror := false |} st = Returns (l1, st1) ->
  ~ In (Some (firstn 31 (rule_output_name v))) (map outputName (g_outputConfs st1)) ->
  (forall pc key, ParseContextData H st1 pc key v = None)
  /\ (forall b st', ReadConfFile H (Some kf) st = Returns (b, st') -> b = false)
  /\ (Rotations_readable kf ->
      exists st', ReadConfFile H (Some kf) st = Returns (false, st')).
Proof.
  intros Hg Hp Hk Hpres Hv Hpre Hnin.
  assert (Hfalse : forall b st', ReadConfFile H (Some kf) st = Returns (b, st') -> b = false).
  { intros b st' E. destruct (ReadConfFile_Returns_inv H kf st st' b E) as (l & El & <- & _).
    rewrite Hg in El.
    apply (groups_loop_unknown_output H kf pre post g v k
             {| retVal := true; gerror := false |} l st st' Hp Hk Hpres Hv);
      [|exact El].
    intros l0 st0 E0. rewrite Hpre in E0. injection E0 as <- <-. exact Hnin. }
  split; [|split; [exact Hfalse|]].
  - intros pc key. apply ParseContextData_unknown_output. exact Hnin.
  - intros Hrot. destruct (ReadConfFile_returns H kf st Hrot) as (b & st' & E).
    exists st'. rewrite E. rewrite (Hfalse b st' E). reflexivity.
Qed.

Lemma unknown_output_fails_load_witness :
  exists st',
    ReadConfFile (spec_main_h (-1)) (Some file_unknown_output) empty_conf
    = Returns (false, st').
Proof.
  apply (proj2 (proj2 (unknown_output_fails_load (spec_main_h (-1)) file_unknown_output
                         empty_conf
                         [cs "OUTPUT=stdlog"] [] (cs "CONTEXT=<global>") (cs "*.*,nolog") 1
                         {| retVal := true; gerror := false |} (conf_stdlog (-1))
                         eq_refl eq_refl
                         ltac:(vm_compute; split; discriminate)
                         ltac:(intros i Hi; assert (i = 1) as -> by lia;
                               vm_compute; discriminate)
                         eq_refl
                         ltac:(vm_compute; reflexivity)
                         ltac:(vm_compute; intros [E|[]]; discriminate E)))).
  intros g Hin Hp. vm_compute in Hin.
  destruct Hin as [<-|[<-|[]]]; [intros E; discriminate E|discriminate Hp].
Defined.

(** C5.  For every [OUTPUT=] section whose File key is missing or whose
    File value does not begin with '/', the section fails
    ([MakeOutputConf] returns false, in whatever configuration) and
    [ReadConfFile] looks at no group behind it (the loop gives what it
    gives on the groups up to the section).  But [ReadConfFile] returns
    false only when the Rotations key of the section reads as an integer:
    when no section before has failed, it then returns false with the
    configuration that the sections before have left, and when Rotations
    cannot be read the error of Rotations, freed in the section, is still
    in [gerror] and is freed a second time at the end of the function. *)
Theorem bad_File_fails_load_or_frees_twice (H : main_h) (kf : GKeyFile) (st : conf)
  (pre post : list cstring) (g : cstring) :
  g_key_file_get_groups kf = pre ++ g :: post ->
  g_str_has_prefix g (cs "OUTPUT=") = true ->
  bad_File kf g ->
  (forall st1, exists po,
     MakeOutputConf H st1
       (fst (read_output_keys kf g (snd (ParseOutputInit H st1 (skipn 7 g)))))
     = (false, po, st1))
  /\ ReadConfFile H (Some kf) st =
     match groups_loop H kf (pre ++ [g]) {| retVal := true; gerror := false |} st with
     | Returns (l, st') => if gerror l then FreedTwice else Returns (false, st')
     | FreedTwice => FreedTwice
     end
  /\ (forall l1 st1,
        groups_loop H kf pre {| retVal := true; gerror := false |} st = Returns (l1, st1) ->
        retVal l1 = true ->
        ReadConfFile H (Some kf) st =
        match g_key_file_get_integer kf g (cs "Rotations") with
        | Some _ => Returns (false, st1)
        | None => FreedTwice
        end).
Proof.
  intros Hg Hp Hbad.
  split; [intros st1; apply MakeOutputConf_bad_File; exact Hbad|]. split.
  - unfold ReadConfFile. rewrite Hg.
    rewrite (proj1 (groups_loop_bad_File H kf pre post g _ st Hp Hbad)).
    pose proof (proj2 (groups_loop_bad_File H kf pre [] g
                         {| retVal := true; gerror := false |} st Hp Hbad)) as Hr.
    destruct (groups_loop H kf (pre ++ [g]) {| retVal := true; gerror := false |} st)
      as [[l st']|]; [|reflexivity].
    rewrite (Hr l st' eq_refl). reflexivity.
  - intros l1 st1 E Hr. unfold ReadConfFile. rewrite Hg.
    rewrite (groups_loop_bad_File_reached H kf pre post g _ l1 st st1 Hp Hbad E Hr).
    cbn [gerror retVal].
    destruct (g_key_file_get_integer kf g (cs "Rotations")); reflexivity.
Qed.

Lemma bad_File_fails_load_or_frees_twice_witness :
  ReadConfFile (spec_main_h (-1)) (Some file_no_File_no_Rotations) empty_conf = FreedTwice
  /\ ReadConfFile (spec_main_h (-1)) (Some file_no_File) empty_conf
     = Returns (false, conf_stdlog (-1)).
Proof.
  split.
  - exact (proj2 (proj2 (bad_File_fails_load_or_frees_twice (spec_main_h (-1))
                           file_no_File_no_Rotations empty_conf
                           [cs "OUTPUT=stdlog"] [cs "CONTEXT=<global>"] (cs "OUTPUT=kernlog")
                           eq_refl eq_refl I))
             {| retVal := true; gerror := false |} (conf_stdlog (-1))
             ltac:(vm_compute; reflexivity) eq_refl).
  - exact (proj2 (proj2 (bad_File_fails_load_or_frees_twice (spec_main_h (-1))
                           file_no_File empty_conf
                           [cs "OUTPUT=stdlog"] [cs "CONTEXT=<global>"] (cs "OUTPUT=kernlog")
                           eq_refl eq_refl I))
             {| retVal := true; gerror := false |} (conf_stdlog (-1))
             ltac:(vm_compute; reflexivity) eq_refl).
Defined.

(** C6.  A rule value of the grammar
    [<facility>[.[!]<level>[.<program>]],[-]<outputName>] parses to the
    rule with the code of the facility; with level -1 and levelInvert false
    when the level part is absent, else with the code of the level and
    levelInvert true exactly when a '!' stands before the level; with the
    empty program when the program part is absent, else with the program;
    with the index of the output and omitOutput true exactly when a '-'
    stands before the output name.  And the keys are read as Rule1, Rule2,
    ... in sequence up to the first one that is missing (or to the size of
    the rule array): when [vs] are the values of Rule1 to Rulek and
    Rule(k+1) is missing, the rules of the context are those of [vs], parsed
    in this order. *)
Theorem rule_grammar_and_scan (H : main_h) (st : conf) (pc : PmLogParseContext_t)
  (key : cstring) (r : rule_text) (f lv idx : Z) (o : PmLogFile_t)
  (kf : GKeyFile) (g : cstring) (vs : list cstring)
  (pc0 pc' : PmLogParseContext_t) (rv : bool) :
  rule_text_ok H r ->
  ParseRuleFacility H (rt_facility r) = Some f ->
  (forall l, tail_level (rt_tail r) = Some l -> ParseRuleLevel H l = Some lv) ->
  FindOutputByName st (rt_output r) = (Some o, idx) ->
  (List.length vs <= PMLOG_CONTEXT_MAX_NUM_RULES H)%nat ->
  (forall i, (i < List.length vs)%nat ->
     g_key_file_get_string kf g (ruleName (Z.of_nat i + 1)) = nth_error vs i) ->
  ((List.length vs < PMLOG_CONTEXT_MAX_NUM_RULES H)%nat ->
     g_key_file_get_string kf g (ruleName (Z.of_nat (List.length vs) + 1)) = None) ->
  parse_rule_values H st 0 vs pc0 = Some pc' ->
  ParseContextData H st pc key (render_rule r) =
  Some {| pc_name := pc_name pc;
          pc_rules :=
            pc_rules pc ++
            [ {| pr_facility := f;
                 pr_level := match rt_tail r with NoLevel => -1 | _ => lv end;
                 pr_levelInvert :=
                   match rt_tail r with
                   | NoLevel => false
                   | Level inv _ | LevelProgram inv _ _ => inv
                   end;
                 pr_program := match rt_tail r with LevelProgram _ _ p => p | _ => [] end;
                 pr_outputIndex := idx;
                 pr_omitOutput := rt_omit r |} ];
          pc_bufferSize := pc_bufferSize pc;
          pc_flushLevel := pc_flushLevel pc |}
  /\ program (rule_of_parse (rule_of_text r f lv idx)) =
     match rt_tail r with
     | LevelProgram _ _ (c :: p) => Some (c :: p)
     | _ => None
     end
  /\ read_rules H st kf g (PMLOG_CONTEXT_MAX_NUM_RULES H) 0 pc0 rv = (pc', rv).
Proof.
  intros Hok Hf Hl Hfind Hlen Hpres Hmiss Hparse. split; [|split].
  - exact (ParseContextData_render H st pc key r f lv idx o Hok Hf Hl Hfind).
  - unfold rule_of_parse, rule_of_text. cbn [program pr_program].
    destruct (rt_tail r) as [|inv l|inv l [|c p]]; reflexivity.
  - apply (read_rules_scan H st kf g vs); try assumption.
Qed.

Lemma rule_grammar_and_scan_witness :
  ParseContextData (spec_main_h (-1)) (conf_stdlog (-1)) zero_ParseContext (cs "Rule1")
    (cs "kern.!err.init,-stdlog")
  = Some {| pc_name := [];
            pc_rules :=
              [ {| pr_facility := 0; pr_level := 3; pr_levelInvert := true;
                   pr_program := cs "init"; pr_outputIndex := 0;
                   pr_omitOutput := true |} ];
            pc_bufferSize := 0;
            pc_flushLevel := 0 |}
  /\ fst (read_rules (spec_main_h (-1)) (conf_stdlog (-1)) file_full_rule
            (cs "CONTEXT=<global>") 32 0 zero_ParseContext true)
     = {| pc_name := [];
          pc_rules :=
            [ {| pr_facility := 0; pr_level := 3; pr_levelInvert := true;
                 pr_program := cs "init"; pr_outputIndex := 0;
                 pr_omitOutput := true |} ];
          pc_bufferSize := 0;
          pc_flushLevel := 0 |}.
Proof.
  pose proof
    (rule_grammar_and_scan (spec_main_h (-1)) (conf_stdlog (-1)) zero_ParseContext
       (cs "Rule1")
       {| rt_facility := cs "kern";
          rt_tail := LevelProgram true (cs "err") (cs "init");
          rt_omit := true;
          rt_output := cs "stdlog" |}
       0 3 0
       {| outputName := Some (cs "stdlog"); path := Some (cs "/var/log/messages");
          maxSize := 0; rotations := 0 |}
       file_full_rule (cs "CONTEXT=<global>") [cs "kern.!err.init,-stdlog"]
       zero_ParseContext
       {| pc_name := [];
          pc_rules :=
            [ {| pr_facility := 0; pr_level := 3; pr_levelInvert := true;
                 pr_program := cs "init"; pr_outputIndex := 0;
                 pr_omitOutput := true |} ];
          pc_bufferSize := 0;
          pc_flushLevel := 0 |}
       true) as W.
  destruct W as (W1 & _ & W3).
  - repeat split; try reflexivity; try (simpl; lia); discriminate.
  - reflexivity.
  - intros l E. injection E as <-. reflexivity.
  - reflexivity.
  - simpl. lia.
  - intros [|i] Hi; [reflexivity|simpl in Hi; lia].
  - intros _. reflexivity.
  - reflexivity.
  - split; [exact W1|]. change 32%nat with (PMLOG_CONTEXT_MAX_NUM_RULES (spec_main_h (-1))).
    rewrite W3. reflexivity.
Defined.




(** C9, as stated, fails where the product leaves the range of [int]:
    [2097152K] is 2^31 bytes, which no [int] holds (the wrapped product
    is -2^31). *)
Lemma ParseSize_K_overflow :
  ParseSize (decimal 2097152 ++ cs "K") <> Some (2097152 * 1024).
Proof. vm_compute. discriminate. Qed.

(** C9 (amended).  [ParseSize] trims a [K] or [KB] and then, from what is
    left, an [M] or [MB], in any spelling of upper and lower case, the later
    trim overwriting the multiplier.  For every integer [n] whose product
    with the multiplier is in the range of [int], [n] followed by [K] or
    [KB] yields [n * 1024], [n] followed by [M], [MB] or [MK] yields
    [n * 1048576]; for every integer [n], [n] followed by [KM] is
    rejected. *)
Theorem ParseSize_suffixes (n : Z) (s sfx : cstring) (m : option Z) :
  In (sfx, m) size_suffixes ->
  strcasecmp_eq s sfx = true ->
  (forall k, m = Some k -> INT_MIN <= n * k <= INT_MAX) ->
  ParseSize (decimal n ++ s) =
  match m with Some k => Some (n * k) | None => None end.
Proof.
  intros Hin Hs Hrange.
  destruct (suffix_variants s) as (HK & HKB & HM & HMB & HMK & HKM).
  assert (Hyield : forall k t,
             m = Some k -> (k = 1024 \/ k = 1048576) ->
             In t [cs "K"; cs "k"; cs "KB"; cs "Kb"; cs "kB"; cs "kb";
                   cs "M"; cs "m"; cs "MB"; cs "Mb"; cs "mB"; cs "mb";
                   cs "MK"; cs "Mk"; cs "mK"; cs "mk"] ->
             (ParseSize (decimal n ++ t) =
              match ParseInt (decimal n) with
              | Some v => Some (wrap32 (v * k)) | None => None end) ->
             ParseSize (decimal n ++ t) = Some (n * k)).
  { intros k t Hm Hk Ht Hp. rewrite Hp.
    specialize (Hrange k Hm).
    assert (Hn : INT_MIN <= n <= INT_MAX) by (unfold INT_MIN, INT_MAX in *; lia).
    rewrite ParseInt_decimal.
    assert (Hl : (LONG_MIN <=? n) && (n <=? LONG_MAX) = true).
    { unfold INT_MIN, INT_MAX, LONG_MIN, LONG_MAX in *.
      apply andb_true_iff. split; apply Z.leb_le; lia. }
    rewrite Hl, (wrap32_small n Hn), (wrap32_small _ Hrange). reflexivity. }
  assert (Hlen : forall k, m = Some k -> (k = 1024 \/ k = 1048576) ->
                 forall t : cstring, (List.length t <= 2)%nat ->
                 (List.length (decimal n) + List.length t <= 31)%nat).
  { intros k Hm Hk t Ht. specialize (Hrange k Hm).
    assert (Hb : Z.abs n < 10 ^ Z.of_nat 10)
      by (unfold INT_MIN, INT_MAX in *; change (10 ^ Z.of_nat 10) with 10000000000; lia).
    pose proof (decimal_length n 10 Hb). lia. }
  unfold size_suffixes in Hin. simpl in Hin.
  destruct Hin as [Hin|[Hin|[Hin|[Hin|[Hin|[Hin|[]]]]]]];
    inversion Hin; subst sfx m; clear Hin.
  - specialize (HK Hs). specialize (Hlen 1024 eq_refl (or_introl eq_refl) s).
    apply (Hyield 1024 s eq_refl (or_introl eq_refl)).
    + simpl in HK |- *. tauto.
    + apply ParseSize_tail.
      * apply Hlen. simpl in HK. destruct HK as [<-|[<-|[]]]; simpl; lia.
      * simpl in HK |- *. destruct HK as [<-|[<-|[]]]; tauto.
  - specialize (HKB Hs). specialize (Hlen 1024 eq_refl (or_introl eq_refl) s).
    apply (Hyield 1024 s eq_refl (or_introl eq_refl)).
    + simpl in HKB |- *. tauto.
    + apply ParseSize_tail.
      * apply Hlen. simpl in HKB. destruct HKB as [<-|[<-|[<-|[<-|[]]]]]; simpl; lia.
      * simpl in HKB |- *. destruct HKB as [<-|[<-|[<-|[<-|[]]]]]; tauto.
  - specialize (HM Hs). specialize (Hlen 1048576 eq_refl (or_intror eq_refl) s).
    apply (Hyield 1048576 s eq_refl (or_intror eq_refl)).
    + simpl in HM |- *. tauto.
    + apply ParseSize_tail.
      * apply Hlen. simpl in HM. destruct HM as [<-|[<-|[]]]; simpl; lia.
      * simpl in HM |- *. destruct HM as [<-|[<-|[]]]; tauto.
  - specialize (HMB Hs). specialize (Hlen 1048576 eq_refl (or_intror eq_refl) s).
    apply (Hyield 1048576 s eq_refl (or_intror eq_refl)).
    + simpl in HMB |- *. tauto.
    + apply ParseSize_tail.
      * apply Hlen. simpl in HMB. destruct HMB as [<-|[<-|[<-|[<-|[]]]]]; simpl; lia.
      * simpl in HMB |- *. destruct HMB as [<-|[<-|[<-|[<-|[]]]]]; tauto.
  - specialize (HMK Hs). specialize (Hlen 1048576 eq_refl (or_intror eq_refl) s).
    apply (Hyield 1048576 s eq_refl (or_intror eq_refl)).
    + simpl in HMK |- *. tauto.
    + apply ParseSize_tail.
      * apply Hlen. simpl in HMK. destruct HMK as [<-|[<-|[<-|[<-|[]]]]]; simpl; lia.
      * simpl in HMK |- *. destruct HMK as [<-|[<-|[<-|[<-|[]]]]]; tauto.
  - apply ParseSize_KM. exact (HKM Hs).
Qed.

Lemma ParseSize_suffixes_witness :
  In (cs "KB", Some 1024) size_suffixes
  /\ strcasecmp_eq (cs "kb") (cs "KB") = true
  /\ ParseSize (decimal 5 ++ cs "kb") = Some (5 * 1024).
Proof.
  split; [simpl; tauto|]. split; [reflexivity|].
  apply (ParseSize_suffixes 5 (cs "kb") (cs "KB") (Some 1024)).
  - simpl. tauto.
  - reflexivity.
  - intros k E. injection E as <-. unfold INT_MIN, INT_MAX. lia.
Defined.

(** C10.  For every destination that is not NULL and has a size of at
    least 1, [mystrcpy] writes no byte behind the first [dstSize] of the
    destination and leaves it NUL-terminated within them, with the first
    [dstSize - 1] characters of the source; so the name of an [OUTPUT=] or
    [CONTEXT=] group that is not the first of its kind and is longer than
    the name array is cut, and the section goes on with the name so cut
    and stores the output or context under it (a [CONTEXT=] section that
    is read with [gerror] NULL, as it is unless the [OUTPUT=] section
    before it could not read its Rotations). *)
Theorem mystrcpy_truncates :
  (forall (d : buffer) (dstSize : nat) (src : option cstring),
     (1 <= dstSize <= List.length d)%nat ->
     exists d',
       mystrcpy (Some d) dstSize src = Some d'
       /\ List.length d' = List.length d
       /\ (forall i, (dstSize <= i)%nat -> nth_error d' i = nth_error d i)
       /\ (strlen d' < dstSize)%nat
       /\ c_str d' = firstn (dstSize - 1)
                       (match src with Some s => c_str s | None => [] end))
  /\ (forall (H : main_h) (kf : GKeyFile) (g p : cstring) (l : locals) (st : conf),
        g_str_has_prefix g (cs "OUTPUT=") = true ->
        g_outputConfs st <> [] ->
        g_key_file_get_string kf g (cs "File") = Some ("/"%char :: p) ->
        (List.length (g_outputConfs st) < PMLOG_MAX_NUM_OUTPUTS H)%nat ->
        fst (ParseOutputInit H st (skipn 7 g)) = true
        /\ po_name (snd (ParseOutputInit H st (skipn 7 g))) =
           firstn (PMLOG_OUTPUT_MAX_NAME_LENGTH H) (c_str (skipn 7 g))
        /\ exists l' st',
             groups_loop H kf [g] l st = Returns (l', st')
             /\ retVal l' = retVal l
             /\ In (Some (firstn (PMLOG_OUTPUT_MAX_NAME_LENGTH H) (c_str (skipn 7 g))))
                   (map outputName (g_outputConfs st')))
  /\ (forall (H : main_h) (kf : GKeyFile) (g : cstring) (l : locals) (st : conf)
             (t : GTree PmLogContextConf_t),
        g_str_has_prefix g (cs "CONTEXT=") = true ->
        g_numContexts st <> 0 ->
        g_contextConfs st = Some t ->
        gerror l = false ->
        fst (ParseContextInit H st (skipn 8 g)) = true
        /\ pc_name (snd (ParseContextInit H st (skipn 8 g))) =
           firstn (PMLOG_MAX_CONTEXT_NAME_LEN H) (c_str (skipn 8 g))
        /\ exists l' st' c,
             groups_loop H kf [g] l st = Returns (l', st')
             /\ g_tree_lookup (g_contextConfs st')
                  (firstn (PMLOG_MAX_CONTEXT_NAME_LEN H) (c_str (skipn 8 g))) = Some c).
Proof.
  split; [exact mystrcpy_bounded|]. split.
  - exact output_group_name_cut.
  - exact context_group_name_cut.
Qed.

Lemma mystrcpy_truncates_witness :
  (exists d',
     mystrcpy (Some (cs "XXXXXX")) 4 (Some (cs "stdlog")) = Some d'
     /\ c_str d' = cs "std" /\ nth_error d' 4 = Some "X"%char)
  /\ (exists l' st',
        groups_loop (spec_main_h (-1)) file_same_names
          [cs "OUTPUT=bbbbbbbbbbbbbbbbbbbbbbbbbbbbbbbbX"]
          {| retVal := true; gerror := false |} (conf_stdlog (-1)) = Returns (l', st')
        /\ In (Some (cs "bbbbbbbbbbbbbbbbbbbbbbbbbbbbbbbb"))
              (map outputName (g_outputConfs st'))).
Proof.
  destruct mystrcpy_truncates as (W1 & W2 & _).
  split.
  - destruct (W1 (cs "XXXXXX") 4%nat (Some (cs "stdlog")) ltac:(simpl; lia))
      as (d' & Hd & _ & Hfar & _ & Hstr).
    exists d'. split; [exact Hd|]. split; [exact Hstr|].
    exact (Hfar 4%nat ltac:(lia)).
  - destruct (W2 (spec_main_h (-1)) file_same_names
                (cs "OUTPUT=bbbbbbbbbbbbbbbbbbbbbbbbbbbbbbbbX") (cs "var/log/b1.log")
                {| retVal := true; gerror := false |} (conf_stdlog (-1))
                eq_refl ltac:(discriminate) eq_refl ltac:(simpl; lia))
      as (_ & _ & l' & st' & Hg & _ & Hin).
    exists l', st'. split; [exact Hg|exact Hin].
Defined.
(** * More properties of util.c *)

(** X1.  [mystrcat] on a destination that is not NULL, with a size of at
    least 1 that the destination has: no byte behind the first [dstSize] is
    written and the length of the array stays; when the destination holds a
    string within its size, it holds afterwards that string with the source
    appended, cut to [dstSize - 1] characters, and is NUL-terminated within
    its size; when it holds no string within its size, nothing is written.  A
    source that is NULL or empty counts as the empty text. *)
Theorem mystrcat_appends (d : buffer) (dstSize : nat) (src : option cstring) :
  (1 <= dstSize <= List.length d)%nat ->
  exists d',
    mystrcat (Some d) dstSize src = Some d'
    /\ List.length d' = List.length d
    /\ (forall i, (dstSize <= i)%nat -> nth_error d' i = nth_error d i)
    /\ ((strlen d < dstSize)%nat ->
        (strlen d' < dstSize)%nat
        /\ c_str d' =
           firstn (dstSize - 1)
             (c_str d ++ match src with Some s => c_str s | None => [] end))
    /\ ((dstSize <= strlen d)%nat -> d' = d).
Proof. exact (mystrcat_bounded d dstSize src). Qed.

Lemma mystrcat_appends_witness :
  exists d',
    mystrcat (Some (cs "ab" ++ NUL :: cs "XXXXX")) 6 (Some (cs "cdefgh")) = Some d'
    /\ c_str d' = cs "abcde" /\ nth_error d' 6 = Some "X"%char.
Proof.
  destruct (mystrcat_appends (cs "ab" ++ NUL :: cs "XXXXX") 6 (Some (cs "cdefgh"))
              ltac:(simpl; lia)) as (d' & Hd & _ & Hfar & Hstr & _).
  exists d'. split; [exact Hd|]. split.
  - exact (proj2 (Hstr ltac:(simpl; lia))).
  - exact (Hfar 6%nat ltac:(lia)).
Defined.

(** X2.  [mystrcpy] and then [mystrcat] into the same array of size
    [dstSize] leave the concatenation of the two sources cut to
    [dstSize - 1] characters, which is what one [mystrcpy] of the
    concatenation leaves; the string is NUL-terminated within the size and no
    byte behind the size is written. *)
Theorem mystrcpy_then_mystrcat (d : buffer) (dstSize : nat) (a b : cstring) :
  (1 <= dstSize <= List.length d)%nat ->
  no_NUL a = true -> no_NUL b = true ->
  exists d1 d2 d3,
    mystrcpy (Some d) dstSize (Some a) = Some d1
    /\ mystrcat (Some d1) dstSize (Some b) = Some d2
    /\ mystrcpy (Some d) dstSize (Some (a ++ b)) = Some d3
    /\ c_str d2 = firstn (dstSize - 1) (a ++ b)
    /\ c_str d2 = c_str d3
    /\ (strlen d2 < dstSize)%nat
    /\ List.length d2 = List.length d
    /\ (forall i, (dstSize <= i)%nat -> nth_error d2 i = nth_error d i).
Proof.
  intros Hsz Ha Hb.
  destruct (mystrcpy_bounded d dstSize (Some a) Hsz) as (d1 & E1 & L1 & F1 & S1 & C1).
  destruct (mystrcat_bounded d1 dstSize (Some b) ltac:(lia))
    as (d2 & E2 & L2 & F2 & C2 & _).
  destruct (mystrcpy_bounded d dstSize (Some (a ++ b)) Hsz) as (d3 & E3 & _ & _ & _ & C3).
  destruct (C2 S1) as [S2 C2'].
  exists d1, d2, d3. split; [exact E1|]. split; [exact E2|]. split; [exact E3|].
  assert (Hc : c_str d2 = firstn (dstSize - 1) (a ++ b)).
  { rewrite C2', C1, !c_str_no_NUL by assumption.
    rewrite !firstn_app, firstn_firstn, Nat.min_id.
    rewrite length_firstn.
    destruct (Nat.le_gt_cases (dstSize - 1) (List.length a)) as [Hl|Hl].
    - replace (dstSize - 1 - Nat.min (dstSize - 1) (List.length a))%nat with 0%nat by lia.
      replace (dstSize - 1 - List.length a)%nat with 0%nat by lia.
      reflexivity.
    - rewrite Nat.min_r by lia. reflexivity. }
  split; [exact Hc|]. split.
  - rewrite Hc, C3. rewrite c_str_no_NUL; [reflexivity|].
    rewrite no_NUL_app, Ha, Hb. reflexivity.
  - split; [exact S2|]. split; [lia|].
    intros i Hi. rewrite F2 by exact Hi. apply F1. exact Hi.
Qed.

Lemma mystrcpy_then_mystrcat_witness :
  exists d1 d2,
    mystrcpy (Some (cs "XXXXXXXX")) 6 (Some (cs "/tmp")) = Some d1
    /\ mystrcat (Some d1) 6 (Some (cs "/run")) = Some d2
    /\ c_str d2 = cs "/tmp/".
Proof.
  destruct (mystrcpy_then_mystrcat (cs "XXXXXXXX") 6 (cs "/tmp") (cs "/run")
              ltac:(simpl; lia) eq_refl eq_refl)
    as (d1 & d2 & d3 & E1 & E2 & _ & Hc & _).
  exists d1, d2. split; [exact E1|]. split; [exact E2|exact Hc].
Defined.

(** X3.  [mysprintf] on a destination that is not NULL, with a size of at
    least 1 that the destination has, leaves it NUL-terminated within its
    size whatever [vsnprintf] did: with the first [dstSize - 1] characters
    of the text of the format, and empty when the format is NULL or
    [vsnprintf] fails.  Without such a failure no byte behind the first
    [dstSize] is written. *)
Theorem mysprintf_terminates (d : buffer) (dstSize : nat) (fmt : option formatted) :
  (1 <= dstSize <= List.length d)%nat ->
  exists d',
    mysprintf (Some d) dstSize fmt = Some d'
    /\ (strlen d' < dstSize)%nat
    /\ c_str d' =
       match fmt with
       | Some (FmtText out) => firstn (dstSize - 1) (c_str out)
       | _ => []
       end
    /\ match fmt with
       | Some (FmtError _) => True
       | _ =>
           List.length d' = List.length d
           /\ forall i, (dstSize <= i)%nat -> nth_error d' i = nth_error d i
       end.
Proof. exact (mysprintf_bounded d dstSize fmt). Qed.

Lemma mysprintf_terminates_witness :
  exists d',
    mysprintf (Some (cs "XXXXXXXX")) 4 (Some (FmtText (cs "12345" ++ ["010"%char])))
    = Some d'
    /\ c_str d' = cs "123" /\ (strlen d' < 4)%nat.
Proof.
  destruct (mysprintf_terminates (cs "XXXXXXXX") 4
              (Some (FmtText (cs "12345" ++ ["010"%char]))) ltac:(simpl; lia))
    as (d' & Hd & Hs & Hc & _).
  exists d'. split; [exact Hd|]. split; [exact Hc|exact Hs].
Defined.

(** X4.  [ParseKeyValue] returns true exactly when the string has the form
    KEY=VALUE, split at its first [=], with a key that is not empty and
    is shorter than [keyBuffSize] and a value, which may be empty and may
    hold further [=], that is shorter than [valBuffSize]. *)
Theorem ParseKeyValue_accepts_iff (arg keyBuff valBuff : buffer)
  (keyBuffSize valBuffSize : nat) :
  fst (fst (ParseKeyValue arg keyBuff keyBuffSize valBuff valBuffSize)) = true <->
  exists key val,
    c_str arg = key ++ "="%char :: val
    /\ key <> [] /\ ~ In "="%char key
    /\ (List.length key < keyBuffSize)%nat /\ (List.length val < valBuffSize)%nat.
Proof.
  split.
  - intros E. destruct (strchr_index arg "=") as [k|] eqn:Ek.
    + destruct (strchr_index_Some arg "=" k Ek) as (key & rest & Ha & Hl & Hn & Hin).
      subst arg. rewrite ParseKeyValue_at in E by assumption.
      destruct (List.length key <=? 0)%nat eqn:E0; [discriminate|].
      destruct (keyBuffSize <=? List.length key)%nat eqn:E1; [discriminate|].
      destruct (valBuffSize <=? strlen rest)%nat eqn:E2; [discriminate|].
      apply Nat.leb_gt in E0, E1, E2.
      exists key, (c_str rest). split.
      * replace (key ++ "="%char :: rest) with ((key ++ ["="%char]) ++ rest)
          by (rewrite <- List.app_assoc; reflexivity).
        rewrite c_str_app by (rewrite no_NUL_app, Hn; reflexivity).
        rewrite <- List.app_assoc. reflexivity.
      * split; [destruct key; [simpl in E0; lia|discriminate]|].
        split; [exact Hin|]. split; [exact E1|]. rewrite length_c_str. exact E2.
    + unfold ParseKeyValue in E. rewrite Ek in E. discriminate.
  - intros (key & val & Hc & Hk & Hin & Hlk & Hlv).
    destruct (c_str_key_val arg key val Hc) as (rest & Ha & Hnk & Hnv & Hr & Hs).
    subst arg. rewrite ParseKeyValue_at by assumption.
    destruct (List.length key <=? 0)%nat eqn:E0;
      [apply Nat.leb_le in E0; destruct key; [congruence|simpl in E0; lia]|].
    destruct (keyBuffSize <=? List.length key)%nat eqn:E1; [apply Nat.leb_le in E1; lia|].
    destruct (valBuffSize <=? strlen rest)%nat eqn:E2; [apply Nat.leb_le in E2; lia|].
    reflexivity.
Qed.

(** X5.  [ParseKeyValue] and the text KEY=VALUE are inverse to each other:
    for a key without [=] that is not empty and a value, both without NUL
    and shorter than their buffers, [ParseKeyValue] of key, [=], value
    returns true and leaves the key and the value in the two buffers; and
    whenever [ParseKeyValue] returns true, the string it was given is the
    string of the key buffer, [=], and the string of the value buffer, each
    NUL-terminated within its size. *)
Theorem ParseKeyValue_round_trip (keyBuff valBuff : buffer)
  (keyBuffSize valBuffSize : nat) :
  (keyBuffSize <= List.length keyBuff)%nat ->
  (valBuffSize <= List.length valBuff)%nat ->
  (forall key val : cstring,
     key <> [] -> ~ In "="%char key -> no_NUL key = true -> no_NUL val = true ->
     (List.length key < keyBuffSize)%nat -> (List.length val < valBuffSize)%nat ->
     exists keyBuff' valBuff',
       ParseKeyValue (key ++ "="%char :: val) keyBuff keyBuffSize valBuff valBuffSize
       = (true, keyBuff', valBuff')
       /\ c_str keyBuff' = key /\ c_str valBuff' = val)
  /\ (forall (arg : cstring) keyBuff' valBuff',
        ParseKeyValue arg keyBuff keyBuffSize valBuff valBuffSize
        = (true, keyBuff', valBuff') ->
        c_str arg = c_str keyBuff' ++ "="%char :: c_str valBuff'
        /\ (strlen keyBuff' < keyBuffSize)%nat /\ (strlen valBuff' < valBuffSize)%nat).
Proof.
  intros Hks Hvs. split.
  - intros key val Hk Hin Hnk Hnv Hlk Hlv.
    rewrite ParseKeyValue_at by assumption.
    destruct (List.length key <=? 0)%nat eqn:E0;
      [apply Nat.leb_le in E0; destruct key; [congruence|simpl in E0; lia]|].
    destruct (keyBuffSize <=? List.length key)%nat eqn:E1; [apply Nat.leb_le in E1; lia|].
    rewrite (strlen_no_NUL val Hnv).
    destruct (valBuffSize <=? List.length val)%nat eqn:E2; [apply Nat.leb_le in E2; lia|].
    eexists. eexists. split; [reflexivity|].
    rewrite !store_memcpy by lia. rewrite !firstn_all, !c_str_app_NUL.
    split; apply c_str_no_NUL; assumption.
  - intros arg kb' vb' E.
    destruct (ParseKeyValue_spec _ _ _ _ _ _ _ _ Hks Hvs E) as (_ & _ & _ & _ & Hok & _).
    exact (Hok eq_refl).
Qed.

Lemma ParseKeyValue_round_trip_witness :
  exists keyBuff' valBuff',
    ParseKeyValue (cs "PATH=/bin:a=b") (repeat "X"%char 8) 8 (repeat "Y"%char 16) 16
    = (true, keyBuff', valBuff')
    /\ c_str keyBuff' = cs "PATH" /\ c_str valBuff' = cs "/bin:a=b".
Proof.
  destruct (ParseKeyValue_round_trip (repeat "X"%char 8) (repeat "Y"%char 16) 8 16
              ltac:(simpl; lia) ltac:(simpl; lia)) as [W _].
  apply (W (cs "PATH") (cs "/bin:a=b")).
  - discriminate.
  - simpl. intros [E|[E|[E|[E|[]]]]]; discriminate E.
  - reflexivity.
  - reflexivity.
  - simpl. lia.
  - simpl. lia.
Defined.

(** X6.  When [ParseKeyValue] returns false, the value buffer is as it was,
    and the key buffer is as it was unless the key was found and copied and
    only the value was too long: then the key buffer holds the key, NUL
    terminated within its size.  In no case is a byte written behind the
    size of a buffer, whatever the result. *)
Theorem ParseKeyValue_failure (arg keyBuff valBuff : buffer)
  (keyBuffSize valBuffSize : nat) (b : bool) (keyBuff' valBuff' : buffer) :
  (keyBuffSize <= List.length keyBuff)%nat ->
  (valBuffSize <= List.length valBuff)%nat ->
  ParseKeyValue arg keyBuff keyBuffSize valBuff valBuffSize = (b, keyBuff', valBuff') ->
  List.length keyBuff' = List.length keyBuff
  /\ List.length valBuff' = List.length valBuff
  /\ (forall i, (keyBuffSize <= i)%nat -> nth_error keyBuff' i = nth_error keyBuff i)
  /\ (forall i, (valBuffSize <= i)%nat -> nth_error valBuff' i = nth_error valBuff i)
  /\ (b = false ->
      valBuff' = valBuff
      /\ (keyBuff' = keyBuff
          \/ exists val,
               c_str arg = c_str keyBuff' ++ "="%char :: val
               /\ (strlen keyBuff' < keyBuffSize)%nat
               /\ (valBuffSize <= List.length val)%nat)).
Proof.
  intros Hks Hvs E.
  destruct (ParseKeyValue_spec _ _ _ _ _ _ _ _ Hks Hvs E) as (L1 & L2 & F1 & F2 & _ & Hf).
  repeat split; assumption || (apply Hf; assumption).
Qed.

Lemma ParseKeyValue_failure_witness :
  ParseKeyValue (cs "KEY=a long value") (repeat "X"%char 8) 8 (repeat "Y"%char 8) 8
  = (false, cs "KEY" ++ NUL :: repeat "X"%char 4, repeat "Y"%char 8)
  /\ exists val,
       c_str (cs "KEY=a long value")
       = c_str (cs "KEY" ++ NUL :: repeat "X"%char 4) ++ "="%char :: val
       /\ (8 <= List.length val)%nat.
Proof.
  split; [reflexivity|].
  destruct (ParseKeyValue_failure (cs "KEY=a long value") (repeat "X"%char 8)
              (repeat "Y"%char 8) 8 8 false (cs "KEY" ++ NUL :: repeat "X"%char 4)
              (repeat "Y"%char 8)
              ltac:(simpl; lia) ltac:(simpl; lia) eq_refl) as (_ & _ & _ & _ & Hf).
  destruct (Hf eq_refl) as [_ [Hsame|(val & Hv & _ & Hl)]].
  - discriminate Hsame.
  - exists val. split; [exact Hv|exact Hl].
Defined.

(** X7.  [TrimSuffixCaseInsensitive] returns true exactly when the string
    ends in the suffix in some spelling of upper and lower case, and then
    takes just that end off the string; when it returns false the string
    is as it was. *)
Theorem TrimSuffixCaseInsensitive_spec (s suffix : cstring) :
  match TrimSuffixCaseInsensitive s suffix with
  | (true, s') => exists t, s = s' ++ t /\ strcasecmp_eq t suffix = true
  | (false, s') =>
      s' = s /\ forall pre t, s = pre ++ t -> strcasecmp_eq t suffix = false
  end.
Proof.
  unfold TrimSuffixCaseInsensitive.
  assert (Hdec : forall pre t, s = pre ++ t -> strcasecmp_eq t suffix = true ->
            (List.length suffix <= List.length s)%nat
            /\ t = skipn (List.length s - List.length suffix) s).
  { intros pre t Hs Ht. apply strcasecmp_eq_length in Ht.
    subst s. rewrite length_app, <- Ht. split; [lia|].
    rewrite skipn_app.
    replace (List.length pre + List.length t - List.length t)%nat
      with (List.length pre) by lia.
    rewrite skipn_all2 by lia. rewrite Nat.sub_diag. reflexivity. }
  destruct (List.length s <? List.length suffix)%nat eqn:E.
  - apply Nat.ltb_lt in E. split; [reflexivity|].
    intros pre t Hs. destruct (strcasecmp_eq t suffix) eqn:Ht; [|reflexivity].
    destruct (Hdec pre t Hs Ht). lia.
  - destruct (strcasecmp_eq (skipn (List.length s - List.length suffix) s) suffix) eqn:Ec;
      cbn [negb].
    + eexists. split; [symmetry; apply firstn_skipn|exact Ec].
    + split; [reflexivity|].
      intros pre t Hs. destruct (strcasecmp_eq t suffix) eqn:Ht; [|reflexivity].
      destruct (Hdec pre t Hs Ht) as [_ ->]. congruence.
Qed.

(** X8.  [ParseInt] reads back the decimal text of a number: of every
    [int] the number itself; of a number that a [long] holds and an [int]
    does not, the number cut to 32 bits, without an error; and of no number
    beyond the range of [long]. *)
Theorem ParseInt_decimal_round_trip (n : Z) :
  (INT_MIN <= n <= INT_MAX -> ParseInt (decimal n) = Some n)
  /\ (LONG_MIN <= n <= LONG_MAX -> ParseInt (decimal n) = Some (wrap32 n))
  /\ (n < LONG_MIN \/ LONG_MAX < n -> ParseInt (decimal n) = None).
Proof.
  rewrite ParseInt_decimal. repeat split.
  - intros Hn.
    assert (Hl : (LONG_MIN <=? n) && (n <=? LONG_MAX) = true).
    { unfold INT_MIN, INT_MAX, LONG_MIN, LONG_MAX in *.
      apply andb_true_iff. split; apply Z.leb_le; lia. }
    rewrite Hl, (wrap32_small n Hn). reflexivity.
  - intros [H1 H2]. apply Z.leb_le in H1, H2. rewrite H1, H2. reflexivity.
  - intros [Hn|Hn].
    + apply Z.leb_gt in Hn. rewrite Hn. reflexivity.
    + apply Z.leb_gt in Hn. rewrite Hn, andb_false_r. reflexivity.
Qed.

Lemma ParseInt_decimal_round_trip_witness :
  ParseInt (decimal (-2147483648)) = Some (-2147483648)
  /\ ParseInt (decimal 4294967297) = Some 1
  /\ ParseInt (decimal 9223372036854775808) = None.
Proof.
  destruct (ParseInt_decimal_round_trip (-2147483648)) as (W1 & _ & _).
  destruct (ParseInt_decimal_round_trip 4294967297) as (_ & W2 & _).
  destruct (ParseInt_decimal_round_trip 9223372036854775808) as (_ & _ & W3).
  split; [apply W1; unfold INT_MIN, INT_MAX; lia|].
  split; [rewrite W2 by (unfold LONG_MIN, LONG_MAX; lia); reflexivity|].
  apply W3. right. unfold LONG_MAX. lia.
Defined.

(** X9.  [ParseInt] skips white space before the number and takes nothing
    behind it: a text with white space in front is read as the text
    without it, and the decimal text of a number other than 0 with a
    character behind it that is no digit (white space, a letter, a sign) is
    rejected, whatever follows. *)
Theorem ParseInt_surroundings :
  (forall ws s : cstring, forallb isspace ws = true -> ParseInt (ws ++ s) = ParseInt s)
  /\ (forall (n : Z) (c : ascii) (rest : cstring),
        n <> 0 -> is_dec_digit c = false ->
        ParseInt (decimal n ++ c :: rest) = None).
Proof.
  split; [exact ParseInt_skips_space|exact ParseInt_decimal_then].
Qed.

Lemma ParseInt_surroundings_witness :
  ParseInt (cs "  " ++ decimal 42) = Some 42
  /\ ParseInt (decimal 42 ++ " "%char :: []) = None.
Proof.
  destruct ParseInt_surroundings as [W1 W2].
  split.
  - rewrite (W1 (cs "  ") (decimal 42) eq_refl). reflexivity.
  - apply W2; [discriminate|reflexivity].
Defined.

(** X10.  [ParseSize] on a number without a suffix yields the number, for
    every [int]; and a number with one character behind it that is no
    digit and none of the letters K and M, in upper or lower case, is
    rejected: a lone B is no suffix, nor is G. *)
Theorem ParseSize_plain_number (n : Z) :
  INT_MIN <= n <= INT_MAX ->
  ParseSize (decimal n) = Some n
  /\ forall c : ascii,
       c <> NUL -> is_dec_digit c = false ->
       ~ In c ["K"; "k"; "M"; "m"]%char ->
       ParseSize (decimal n ++ [c]) = None.
Proof.
  intros Hn.
  assert (Hlen : (List.length (decimal n) <= 11)%nat).
  { apply (decimal_length n 10).
    unfold INT_MIN, INT_MAX in Hn. change (10 ^ Z.of_nat 10) with 10000000000. lia. }
  split.
  - rewrite <- (List.app_nil_r (decimal n)) at 1.
    rewrite ParseSize_no_suffix; [|simpl; lia|reflexivity|left; reflexivity].
    rewrite List.app_nil_r, ParseInt_decimal.
    assert (Hl : (LONG_MIN <=? n) && (n <=? LONG_MAX) = true).
    { unfold INT_MIN, INT_MAX, LONG_MIN, LONG_MAX in *.
      apply andb_true_iff. split; apply Z.leb_le; lia. }
    rewrite Hl, (wrap32_small n Hn), Z.mul_1_r, (wrap32_small n Hn). reflexivity.
  - intros c Hc Hd Hin.
    assert (Hk : tolower c <> "k"%char).
    { intros E. apply (proj1 (tolower_cases c)) in E. apply Hin.
      destruct E as [-> | ->]; simpl; tauto. }
    assert (Hm : tolower c <> "m"%char).
    { intros E. apply (proj1 (proj2 (tolower_cases c))) in E. apply Hin.
      destruct E as [-> | ->]; simpl; tauto. }
    rewrite ParseSize_no_suffix;
      [|simpl; lia
       |cbn [no_NUL forallb]; destruct (Ascii.eqb c NUL) eqn:E;
        [apply Ascii.eqb_eq in E; contradiction|reflexivity]
       |right; exists c; repeat split; assumption].
    destruct (Z.eq_dec n 0) as [->|Hn0].
    + rewrite ParseInt_0_then by exact Hd. reflexivity.
    + rewrite ParseInt_decimal_then by assumption. reflexivity.
Qed.

Lemma ParseSize_plain_number_witness :
  ParseSize (decimal 4096) = Some 4096 /\ ParseSize (decimal 4096 ++ cs "B") = None.
Proof.
  destruct (ParseSize_plain_number 4096 ltac:(unfold INT_MIN, INT_MAX; lia)) as [W1 W2].
  split; [exact W1|].
  apply (W2 "B"%char); [discriminate|reflexivity|].
  simpl. intros [E|[E|[E|[E|[]]]]]; discriminate E.
Defined.
(** * More properties of config.c *)

(** X11.  [FindOutputByName] returns the first entry of the table with the
    name and stores its index, which is within the table; when no entry
    has the name it returns NULL and stores -1. *)
Theorem FindOutputByName_first_match (st : conf) (name : cstring) :
  match FindOutputByName st name with
  | (Some o, i) =>
      0 <= i < g_numOutputs st
      /\ nth_error (g_outputConfs st) (Z.to_nat i) = Some o
      /\ outputName o = Some name
      /\ forall k o', (k < Z.to_nat i)%nat -> nth_error (g_outputConfs st) k = Some o' ->
                      outputName o' <> Some name
  | (None, i) => i = -1 /\ ~ In (Some name) (map outputName (g_outputConfs st))
  end.
Proof.
  pose proof (FindOutputByName_from_spec 0 (g_outputConfs st) name) as Hs.
  pose proof (FindOutputByName_from_first 0 (g_outputConfs st) name) as Hf.
  unfold FindOutputByName, g_numOutputs.
  destruct (FindOutputByName_from 0 (g_outputConfs st) name) as [[o|] j]; [|exact Hs].
  destruct Hs as (Hj & Hn & Ho). rewrite Z.sub_0_r in Hn.
  split; [lia|]. split; [exact Hn|]. split; [exact Ho|].
  intros k o' Hk. apply (Hf o j eq_refl). rewrite Z.sub_0_r. exact Hk.
Qed.

(** X12.  [GetTokenToSep] splits the string at its first terminator: the
    token is what stands before it, cut to the [tokenBuffSize - 1]
    characters the token array holds, the terminator is stored and the
    string goes on behind it; without a terminator the whole string is
    the token, NUL is stored for the terminator and the string is at its
    end. *)
Theorem GetTokenToSep_split (s : cstring) (tokenBuffSize : nat) (terminators : cstring) :
  exists full,
    forallb (fun c => negb (strchr terminators c)) full = true
    /\ match GetTokenToSep s tokenBuffSize terminators with
       | (token, sep, rest) =>
           token = firstn (tokenBuffSize - 1) full
           /\ ((sep = NUL /\ rest = [] /\ s = full)
               \/ (strchr terminators sep = true /\ s = full ++ sep :: rest))
       end.
Proof.
  destruct (GetTokenToSep_loop_gen s [] tokenBuffSize terminators)
    as (full & rest & Hs & Hf & Hr & Hl).
  exists full. split; [exact Hf|].
  unfold GetTokenToSep. rewrite Hl. cbn [app List.length]. rewrite Nat.sub_0_r.
  destruct rest as [|c r].
  - split; [reflexivity|]. left. rewrite List.app_nil_r in Hs. auto.
  - split; [reflexivity|]. right. auto.
Qed.

(** X13.  The key of a rule is the text [Rule] with the number behind it,
    as [mysprintf] leaves it in the ten bytes of [ruleName]: for the
    numbers 0 to 99999 it is that text whole, so that different numbers
    have different keys; from 100000 on it is cut to nine characters, and
    the key of rule 100000 is that of rule 10000. *)
Theorem ruleName_exact :
  (forall (n : Z) (buf : buffer),
     List.length buf = 10%nat ->
     option_map c_str
       (mysprintf (Some buf) 10 (Some (FmtText (cs "Rule" ++ decimal n))))
     = Some (ruleName n))
  /\ (forall n, 0 <= n <= 99999 -> ruleName n = cs "Rule" ++ decimal n)
  /\ (forall n m, 0 <= n <= 99999 -> 0 <= m <= 99999 -> ruleName n = ruleName m -> n = m)
  /\ ruleName 100000 = ruleName 10000.
Proof.
  assert (Hexact : forall n, 0 <= n <= 99999 -> ruleName n = cs "Rule" ++ decimal n).
  { intros n Hn. unfold ruleName. apply firstn_all2.
    pose proof (decimal_length_nonneg n 5 ltac:(lia)
                  ltac:(change (10 ^ Z.of_nat 5) with 100000; lia)) as Hl.
    rewrite length_app. simpl. lia. }
  split; [|split; [exact Hexact|split; [|reflexivity]]].
  - intros n buf Hb.
    destruct (mysprintf_bounded buf 10 (Some (FmtText (cs "Rule" ++ decimal n)))
                ltac:(lia)) as (d' & -> & _ & Hc & _).
    cbn [option_map]. rewrite Hc. unfold ruleName.
    rewrite c_str_no_NUL; [reflexivity|].
    rewrite no_NUL_app, (proj1 (decimal_facts n)). reflexivity.
  - intros n m Hn Hm E. rewrite !Hexact in E by assumption.
    apply app_inv_head in E.
    apply decimal_inj; [unfold INT_MIN, INT_MAX; lia|unfold INT_MIN, INT_MAX; lia|exact E].
Qed.

Lemma ruleName_exact_witness :
  option_map c_str
    (mysprintf (Some (repeat "X"%char 10)) 10 (Some (FmtText (cs "Rule" ++ decimal 32))))
  = Some (cs "Rule32")
  /\ ruleName 32 = cs "Rule" ++ decimal 32.
Proof.
  destruct ruleName_exact as (W1 & W2 & _).
  split.
  - exact (W1 32 (repeat "X"%char 10) eq_refl).
  - apply W2. lia.
Defined.

(** X14.  Whatever [ParseContextData] accepts has a comma; what follows the
    first comma, after a '-' that may stand there, holds no dot and no
    comma, and cut to the 31 characters of a token it is the name of an
    output of the table; the one rule that is appended has the index of
    that output, and its omitOutput tells whether the '-' was there. *)
Theorem ParseContextData_accepts_only (H : main_h) (st : conf)
  (pc pc' : PmLogParseContext_t) (key val : cstring) :
  ParseContextData H st pc key val = Some pc' ->
  exists r s o,
    pc_rules pc' = pc_rules pc ++ [r]
    /\ after_comma val = Some s
    /\ no_sep (after_comma_name s) = true
    /\ pr_omitOutput r = fst (skip_char "-" s)
    /\ 0 <= pr_outputIndex r < g_numOutputs st
    /\ nth_error (g_outputConfs st) (Z.to_nat (pr_outputIndex r)) = Some o
    /\ outputName o = Some (firstn 31 (after_comma_name s)).
Proof.
  intros E.
  destruct (ParseContextData_sound H _ _ _ _ _ E) as (r & s & o & Hr & Ha & Hn & Ho & Hf).
  destruct (FindOutputByName_range _ _ _ _ Hf) as (Hi & Hnth & Hname).
  exists r, s, o. repeat split; assumption || apply Hi.
Qed.

Lemma ParseContextData_accepts_only_witness :
  exists r s o,
    [ {| pr_facility := 0; pr_level := 3; pr_levelInvert := false; pr_program := [];
         pr_outputIndex := 0; pr_omitOutput := true |} ] = [] ++ [r]
    /\ after_comma (cs "kern.err,-stdlog") = Some s
    /\ no_sep (after_comma_name s) = true
    /\ pr_omitOutput r = fst (skip_char "-" s)
    /\ 0 <= pr_outputIndex r < g_numOutputs (conf_stdlog (-1))
    /\ nth_error (g_outputConfs (conf_stdlog (-1))) (Z.to_nat (pr_outputIndex r)) = Some o
    /\ outputName o = Some (firstn 31 (after_comma_name s)).
Proof.
  exact (ParseContextData_accepts_only (spec_main_h (-1)) (conf_stdlog (-1))
           zero_ParseContext
           {| pc_name := [];
              pc_rules :=
                [ {| pr_facility := 0; pr_level := 3; pr_levelInvert := false;
                     pr_program := []; pr_outputIndex := 0; pr_omitOutput := true |} ];
              pc_bufferSize := 0; pc_flushLevel := 0 |}
           (cs "Rule2") (cs "kern.err,-stdlog") eq_refl).
Defined.

(** X15.  [ReadConfFile] never has more outputs in the table than the
    array holds: a table within [PMLOG_MAX_NUM_OUTPUTS] is within it when
    [ReadConfFile] returns, whatever the file. *)
Theorem outputs_stay_within_table (H : main_h) (file : option GKeyFile) (st st' : conf)
  (b : bool) :
  (List.length (g_outputConfs st) <= PMLOG_MAX_NUM_OUTPUTS H)%nat ->
  ReadConfFile H file st = Returns (b, st') ->
  (List.length (g_outputConfs st') <= PMLOG_MAX_NUM_OUTPUTS H)%nat.
Proof.
  apply (ReadConfFile_invariant H
           (fun st => (List.length (g_outputConfs st) <= PMLOG_MAX_NUM_OUTPUTS H)%nat)).
  - intros st0 po b0 po' st1 HP Hm. exact (proj2 (MakeOutputConf_length H _ _ _ _ _ Hm) HP).
  - intros kf g l st0 pc l1 HP _. rewrite MakeContextConf_outputs. exact HP.
Qed.

Lemma outputs_stay_within_table_witness :
  exists b st',
    ReadConfFile (spec_main_h (-1)) (Some file_nine_outputs) empty_conf = Returns (b, st')
    /\ (List.length (g_outputConfs st') <= 8)%nat.
Proof.
  destruct (ReadConfFile (spec_main_h (-1)) (Some file_nine_outputs) empty_conf)
    as [[b st']|] eqn:E; [|vm_compute in E; discriminate E].
  exists b, st'. split; [reflexivity|].
  apply (outputs_stay_within_table (spec_main_h (-1)) (Some file_nine_outputs) empty_conf
           st' b); [simpl; lia|exact E].
Defined.

(** X16.  [ReadConfFile] only extends the table of outputs: when it
    returns, the outputs it found are there, in their places, each with the
    name, the path and the maximum size it had, and with the rotations it
    had or the default; the outputs added stand behind them, each with a name
    and an absolute path, with the maximum size 0 and the rotations 0 or
    the default.  So neither a MaxSize nor a Rotations value of the file
    is ever in the table. *)
Theorem outputs_only_extended (H : main_h) (file : option GKeyFile) (st st' : conf)
  (b : bool) :
  ReadConfFile H file st = Returns (b, st') ->
  outputs_extend (g_outputConfs st) (g_outputConfs st').
Proof.
  apply (ReadConfFile_invariant H
           (fun st' => outputs_extend (g_outputConfs st) (g_outputConfs st'))).
  - intros st0 po b0 po' st1 HP Hm. exact (MakeOutputConf_extend H _ _ _ _ _ _ HP Hm).
  - intros kf g l st0 pc l1 HP _. rewrite MakeContextConf_outputs. exact HP.
  - apply outputs_extend_refl.
Qed.

Lemma outputs_only_extended_witness :
  exists b st',
    ReadConfFile (spec_main_h (-1)) (Some file_output_twice) (conf_stdlog (-1))
    = Returns (b, st')
    /\ outputs_extend (g_outputConfs (conf_stdlog (-1))) (g_outputConfs st').
Proof.
  destruct (ReadConfFile (spec_main_h (-1)) (Some file_output_twice) (conf_stdlog (-1)))
    as [[b st']|] eqn:E; [|vm_compute in E; discriminate E].
  exists b, st'. split; [reflexivity|].
  exact (outputs_only_extended (spec_main_h (-1)) (Some file_output_twice)
           (conf_stdlog (-1)) st' b E).
Defined.

(** X17.  Every rule of every context has the index of an output of the
    table: when that holds before [ReadConfFile] it holds when
    [ReadConfFile] returns, whatever the file is and whatever is
    returned. *)
Theorem rules_point_to_outputs (H : main_h) (file : option GKeyFile) (st st' : conf)
  (b : bool) :
  rules_in_range st -> ReadConfFile H file st = Returns (b, st') -> rules_in_range st'.
Proof.
  apply (ReadConfFile_invariant H rules_in_range).
  - intros st0 po b0 po' st1 HP Hm. exact (rules_in_range_MakeOutputConf H _ _ _ _ _ HP Hm).
  - intros kf g l st0 pc l1 HP Ec. apply rules_in_range_MakeContextConf; [exact HP|].
    exact (context_section_in_range H _ _ _ _ _ _ Ec).
Qed.

Lemma rules_point_to_outputs_witness :
  exists b st',
    ReadConfFile (spec_main_h (-1)) (Some file_same_names) empty_conf = Returns (b, st')
    /\ rules_in_range empty_conf
    /\ rules_in_range st'.
Proof.
  assert (He : rules_in_range empty_conf).
  { intros t name c [= <-] []. }
  destruct (ReadConfFile (spec_main_h (-1)) (Some file_same_names) empty_conf)
    as [[b st']|] eqn:E; [|vm_compute in E; discriminate E].
  exists b, st'. split; [reflexivity|]. split; [exact He|].
  exact (rules_point_to_outputs (spec_main_h (-1)) (Some file_same_names) empty_conf
           st' b He E).
Defined.

(** X18.  No context has more rules than [PMLOG_CONTEXT_MAX_NUM_RULES],
    the size of the rule array: when that holds before [ReadConfFile] it
    holds when [ReadConfFile] returns. *)
Theorem rules_fit_rule_array (H : main_h) (file : option GKeyFile) (st st' : conf)
  (b : bool) :
  rules_bounded H st -> ReadConfFile H file st = Returns (b, st') -> rules_bounded H st'.
Proof.
  apply (ReadConfFile_invariant H (rules_bounded H)).
  - intros st0 po b0 po' st1 HP Hm. exact (rules_bounded_MakeOutputConf H _ _ _ _ _ HP Hm).
  - intros kf g l st0 pc l1 HP Ec. apply rules_bounded_MakeContextConf; [exact HP|].
    exact (context_section_bounded H _ _ _ _ _ _ Ec).
Qed.

Lemma rules_fit_rule_array_witness :
  exists b st',
    ReadConfFile (spec_main_h (-1)) (Some file_example) empty_conf = Returns (b, st')
    /\ rules_bounded (spec_main_h (-1)) empty_conf
    /\ rules_bounded (spec_main_h (-1)) st'.
Proof.
  assert (He : rules_bounded (spec_main_h (-1)) empty_conf).
  { intros t name c [= <-] []. }
  destruct (ReadConfFile (spec_main_h (-1)) (Some file_example) empty_conf)
    as [[b st']|] eqn:E; [|vm_compute in E; discriminate E].
  exists b, st'. split; [reflexivity|]. split; [exact He|].
  exact (rules_fit_rule_array (spec_main_h (-1)) (Some file_example) empty_conf
           st' b He E).
Defined.

(** X19.  [g_numContexts] is the number of nodes of the tree of contexts:
    after [CreateContext] and after [SetDefaultConf] in every case, and
    when [ReadConfFile] returns if it was so before. *)
Theorem numContexts_counts_nodes (H : main_h) (file : option GKeyFile) (st : conf) :
  (forall name, contexts_counted (snd (CreateContext st name)))
  /\ contexts_counted (SetDefaultConf st)
  /\ (forall b st',
        contexts_counted st -> ReadConfFile H file st = Returns (b, st') ->
        contexts_counted st').
Proof.
  split; [intros name; reflexivity|]. split; [reflexivity|].
  intros b st'.
  apply (ReadConfFile_invariant H contexts_counted).
  - intros st0 po b0 po' st1 HP Hm. exact (contexts_counted_MakeOutputConf H _ _ _ _ _ HP Hm).
  - intros kf g l st0 pc l1 HP _. apply contexts_counted_MakeContextConf. exact HP.
Qed.

Lemma numContexts_counts_nodes_witness :
  exists b st',
    ReadConfFile (spec_main_h (-1)) (Some file_same_names) empty_conf = Returns (b, st')
    /\ contexts_counted empty_conf
    /\ contexts_counted st'.
Proof.
  destruct (ReadConfFile (spec_main_h (-1)) (Some file_same_names) empty_conf)
    as [[b st']|] eqn:E; [|vm_compute in E; discriminate E].
  exists b, st'. split; [reflexivity|]. split; [reflexivity|].
  exact (proj2 (proj2 (numContexts_counts_nodes (spec_main_h (-1)) (Some file_same_names)
                         empty_conf)) b st' eq_refl E).
Defined.

(** X20.  [ReadConfFile] makes no tree of contexts: when [g_contextConfs]
    is NULL before, as [ClearConf] and [SetDefaultConf] leave it, it is
    NULL when [ReadConfFile] returns, whatever the file is and whatever
    is returned, and no context of the file can be looked up. *)
Theorem ReadConfFile_makes_no_tree (H : main_h) (file : option GKeyFile) (st st' : conf)
  (b : bool) :
  g_contextConfs st = None ->
  ReadConfFile H file st = Returns (b, st') ->
  g_contextConfs st' = None
  /\ forall name, g_tree_lookup (g_contextConfs st') name = None.
Proof.
  intros Hn E.
  assert (Hr : g_contextConfs st' = None).
  { revert Hn E. apply (ReadConfFile_invariant H (fun st => g_contextConfs st = None)).
    - intros st0 po b0 po' st1 HP Hm. exact (no_tree_MakeOutputConf H _ _ _ _ _ HP Hm).
    - intros kf g l st0 pc l1 HP _. apply no_tree_MakeContextConf. exact HP. }
  split; [exact Hr|]. intros name. rewrite Hr. reflexivity.
Qed.

Lemma ReadConfFile_makes_no_tree_witness :
  exists st',
    ReadConfFile (spec_main_h (-1)) (Some file_example) (SetDefaultConf empty_conf)
    = Returns (true, st')
    /\ g_contextConfs st' = None.
Proof.
  eexists. split; [vm_compute; reflexivity|].
  exact (proj1 (ReadConfFile_makes_no_tree (spec_main_h (-1)) (Some file_example)
                  (SetDefaultConf empty_conf) _ true eq_refl
                  ltac:(vm_compute; reflexivity))).
Defined.

(** X21.  A group whose name begins neither with [OUTPUT=] nor with
    [CONTEXT=] is passed over: [ReadConfFile] returns what it returns, and
    leaves the configuration it leaves, on the file without such groups. *)
Theorem unknown_groups_ignored (H : main_h) (kf : GKeyFile) (st : conf) :
  ReadConfFile H (Some (filter (fun e => recognised (fst e)) kf)) st =
  ReadConfFile H (Some kf) st.
Proof.
  unfold ReadConfFile. rewrite groups_filter, groups_loop_filter. reflexivity.
Qed.

(** X22.  An [OUTPUT=] section with a new name that [ReadConfFile] comes to
    when the table is full makes the load fail: [ReadConfFile] returns
    nothing but false, with the configuration that the groups before the
    section left, and looks at no group behind it; it does return when
    every [OUTPUT=] section of the file has a Rotations key that reads as
    an integer. *)
Theorem too_many_outputs_fails_load (H : main_h) (kf : GKeyFile) (st : conf)
  (pre post : list cstring) (g : cstring) (l1 : locals) (st1 : conf) :
  g_key_file_get_groups kf = pre ++ g :: post ->
  g_str_has_prefix g (cs "OUTPUT=") = true ->
  groups_loop H kf pre {| retVal := true; gerror := false |} st = Returns (l1, st1) ->
  (PMLOG_MAX_NUM_OUTPUTS H <= List.length (g_outputConfs st1))%nat ->
  ~ In (Some (po_name (fst (output_section H kf g st1))))
       (map outputName (g_outputConfs st1)) ->
  (forall b st', ReadConfFile H (Some kf) st = Returns (b, st') -> b = false /\ st' = st1)
  /\ (Rotations_readable kf -> ReadConfFile H (Some kf) st = Returns (false, st1)).
Proof.
  intros Hg Hp Hpre Hfull Hnew.
  assert (Hloop : exists ge,
            groups_loop H kf (pre ++ g :: post) {| retVal := true; gerror := false |} st
            = Returns ({| retVal := false; gerror := ge |}, st1)).
  { pose proof (groups_loop_app_cases H kf pre (g :: post)
                  {| retVal := true; gerror := false |} st) as Hc.
    rewrite Hpre in Hc. destruct Hc as [Hc|[Hc Hr]]; rewrite Hc.
    - rewrite (groups_loop_output H kf g post _ _ Hp).
      rewrite (MakeOutputConf_full H st1 _ Hfull Hnew). eexists. reflexivity.
    - destruct l1 as [rv ge]. cbn [retVal] in Hr. subst rv. eexists. reflexivity. }
  destruct Hloop as [ge Hloop].
  assert (Hret : forall b st', ReadConfFile H (Some kf) st = Returns (b, st') ->
                               b = false /\ st' = st1).
  { intros b st' E. destruct (ReadConfFile_Returns_inv H kf st st' b E) as (l & El & <- & _).
    rewrite Hg, Hloop in El. injection El as <- <-. split; reflexivity. }
  split; [exact Hret|].
  intros Hrot. destruct (ReadConfFile_returns H kf st Hrot) as (b & st' & E).
  destruct (Hret b st' E) as [-> ->]. exact E.
Qed.

Lemma too_many_outputs_fails_load_witness :
  exists st1,
    ReadConfFile (spec_main_h (-1)) (Some file_nine_outputs) empty_conf
    = Returns (false, st1)
    /\ List.length (g_outputConfs st1) = 8%nat.
Proof.
  eexists. split.
  - apply (proj2 (too_many_outputs_fails_load (spec_main_h (-1)) file_nine_outputs
                    empty_conf
                    [cs "OUTPUT=stdlog"; cs "OUTPUT=o1"; cs "OUTPUT=o2"; cs "OUTPUT=o3";
                     cs "OUTPUT=o4"; cs "OUTPUT=o5"; cs "OUTPUT=o6"; cs "OUTPUT=o7"]
                    [cs "CONTEXT=<global>"] (cs "OUTPUT=o8")
                    {| retVal := true; gerror := false |} _ eq_refl eq_refl
                    ltac:(vm_compute; reflexivity)
                    ltac:(vm_compute; lia)
                    ltac:(vm_compute;
                          intros [E|[E|[E|[E|[E|[E|[E|[E|[]]]]]]]]]; discriminate E))).
    intros g Hin Hp. vm_compute in Hin.
    repeat (destruct Hin as [<-|Hin]; [first [discriminate Hp|intros E; discriminate E]|]).
    destruct Hin.
  - reflexivity.
Defined.

(** X23.  A [CONTEXT=] section never ends the loop over the groups: the
    loop goes on with the groups behind it, from what the section left,
    also when a rule, the BufferSize or the FlushLevel of the section did
    not parse; only [retVal] is then false, and stays so.  So
    [ReadConfFile] can return false with the sections behind the failure
    stored.  The section itself returns whenever [gerror] is NULL when it
    is read. *)
Theorem context_errors_do_not_stop (H : main_h) (kf : GKeyFile) (g : cstring)
  (post : list cstring) (l : locals) (st : conf) :
  g_str_has_prefix g (cs "CONTEXT=") = true ->
  groups_loop H kf (g :: post) l st =
  match groups_loop H kf [g] l st with
  | Returns (l1, st1) => groups_loop H kf post l1 st1
  | FreedTwice => FreedTwice
  end
  /\ (forall l1 st1 l2 st2,
        groups_loop H kf [g] l st = Returns (l1, st1) ->
        retVal l1 = false ->
        groups_loop H kf (g :: post) l st = Returns (l2, st2) ->
        retVal l2 = false)
  /\ (gerror l = false -> exists l1 st1, groups_loop H kf [g] l st = Returns (l1, st1)).
Proof.
  intros Hp.
  assert (E : groups_loop H kf (g :: post) l st =
              match groups_loop H kf [g] l st with
              | Returns (l1, st1) => groups_loop H kf post l1 st1
              | FreedTwice => FreedTwice
              end).
  { rewrite !(groups_loop_context H kf g _ l st Hp).
    destruct (context_section H kf g l st) as [[pc l1]|]; reflexivity. }
  split; [exact E|]. split.
  - intros l1 st1 l2 st2 E1 Hr. rewrite E, E1. apply groups_loop_sticky. exact Hr.
  - intros Hg. rewrite (groups_loop_context H kf g [] l st Hp).
    destruct (context_section_returns H kf g l st Hg) as (pc & l1 & -> & _).
    eexists; eexists. reflexivity.
Qed.

Lemma context_errors_do_not_stop_witness :
  exists st',
    ReadConfFile (spec_main_h (-1)) (Some file_bad_rule_then_more) empty_conf
    = Returns (false, st')
    /\ map outputName (g_outputConfs st') = [Some (cs "stdlog"); Some (cs "kernlog")]
    /\ option_map (map fst) (g_contextConfs st') = Some [cs "<global>"; cs "kernel"]
    /\ groups_loop (spec_main_h (-1)) file_bad_rule_then_more
         [cs "CONTEXT=<global>"; cs "OUTPUT=kernlog"; cs "CONTEXT=kernel"]
         {| retVal := true; gerror := false |} (conf_stdlog (-1))
       = Returns ({| retVal := false; gerror := false |}, st').
Proof.
  eexists. split; [vm_compute; reflexivity|].
  split; [reflexivity|]. split; [reflexivity|].
  rewrite (proj1 (context_errors_do_not_stop (spec_main_h (-1)) file_bad_rule_then_more
                    (cs "CONTEXT=<global>") [cs "OUTPUT=kernlog"; cs "CONTEXT=kernel"]
                    {| retVal := true; gerror := false |} (conf_stdlog (-1)) eq_refl)).
  vm_compute. reflexivity.
Defined.

(** X24.  With a tree of contexts in place, [MakeContextConf] stores the
    context under its name with just the rules and the ring buffer of
    [parseContext], also when a context of that name was there, whose
    rules are then gone; the contexts under other names are as they
    were. *)
Theorem MakeContextConf_replaces (st : conf) (pc : PmLogParseContext_t)
  (t : GTree PmLogContextConf_t) :
  g_contextConfs st = Some t ->
  (exists c,
     g_tree_lookup (g_contextConfs (snd (MakeContextConf st pc))) (pc_name pc) = Some c
     /\ rules c = map rule_of_parse (pc_rules pc)
     /\ rb c = RBNew (pc_bufferSize pc) (pc_flushLevel pc)
     /\ contextName c =
        match g_tree_lookup (g_contextConfs st) (pc_name pc) with
        | Some c0 => contextName c0
        | None => pc_name pc
        end)
  /\ (forall k, k <> pc_name pc ->
        g_tree_lookup (g_contextConfs (snd (MakeContextConf st pc))) k =
        g_tree_lookup (g_contextConfs st) k).
Proof.
  intros Et. unfold MakeContextConf. rewrite Et. cbn [g_tree_lookup].
  destruct (assoc (pc_name pc) t) as [c0|] eqn:Ea.
  - cbn [snd g_contextConfs]. rewrite Et. cbn [tree_store g_tree_lookup].
    assert (Hin : In (pc_name pc) (map fst t)).
    { apply assoc_Some_In in Ea. apply (in_map fst) in Ea. exact Ea. }
    split.
    + eexists. split; [apply assoc_tree_replace; exact Hin|]. repeat split.
    + intros k Hk. apply assoc_tree_replace_other. exact Hk.
  - unfold CreateContext. rewrite Et. cbn [g_tree_insert]. rewrite Ea.
    cbn [snd g_contextConfs tree_store g_tree_lookup].
    rewrite (tree_replace_new _ _ _ _ Ea).
    split.
    + eexists. split; [apply assoc_app_new; exact Ea|]. repeat split.
    + intros k Hk. apply assoc_app_other. exact Hk.
Qed.

Lemma MakeContextConf_replaces_witness :
  exists st c,
    ReadConfFile (spec_main_h (-1)) (Some file_example) empty_conf = Returns (true, st)
    /\ g_tree_lookup
         (g_contextConfs
            (snd (MakeContextConf st
                    {| pc_name := cs "<global>"; pc_rules := [];
                       pc_bufferSize := 0; pc_flushLevel := 0 |})))
         (cs "<global>") = Some c
    /\ rules c = [].
Proof.
  eexists. 
  destruct (MakeContextConf_replaces
              {| g_outputConfs :=
                   [ {| outputName := Some (cs "stdlog");
                        path := Some (cs "/var/log/messages");
                        maxSize := 0; rotations := 0 |} ];
                 g_numContexts := 1;
                 g_contextConfs :=
                   Some [ (cs "<global>",
                           {| contextName := cs "<global>";
                              rules :=
                                [ {| facility := -1; level := -1; levelInvert := false;
                                     program := None; outputIndex := 0;
                                     omitOutput := false |};
                                  {| facility := 0; level := 3; levelInvert := false;
                                     program := None; outputIndex := 0;
                                     omitOutput := true |} ];
                              rb := RBNew 16384 4 |}) ] |}
              {| pc_name := cs "<global>"; pc_rules := [];
                 pc_bufferSize := 0; pc_flushLevel := 0 |}
              _ eq_refl) as [(c & Hc & Hr & _) _].
  exists c. split; [vm_compute; reflexivity|]. split; [exact Hc|exact Hr].
Defined.

(** X25.  When [MakeOutputConf] returns true, [parseOutput] holds the
    limits enforced: a maximum size that was not set is the default, and
    any other is the nearest value between [PMLOG_MIN_LOG_SIZE] and
    [PMLOG_MAX_LOG_SIZE]; rotations that were set are the nearest value
    between [PMLOG_MIN_NUM_ROTATIONS] and [PMLOG_MAX_NUM_ROTATIONS], and
    rotations that were not set are left as they are; the name and the
    file are as they were. *)
Theorem MakeOutputConf_clamps (H : main_h) (st st' : conf) (po po' : PmLogParseOutput_t) :
  MakeOutputConf H st po = (true, po', st') ->
  po_name po' = po_name po /\ po_File po' = po_File po
  /\ po_MaxSize po' =
     (if is_uninit H (po_MaxSize po) then PMLOG_DEFAULT_LOG_SIZE
      else Z.max PMLOG_MIN_LOG_SIZE (Z.min PMLOG_MAX_LOG_SIZE (po_MaxSize po)))
  /\ PMLOG_MIN_LOG_SIZE <= po_MaxSize po' <= PMLOG_MAX_LOG_SIZE
  /\ po_Rotations po' =
     (if is_uninit H (po_Rotations po) then po_Rotations po
      else Z.max PMLOG_MIN_NUM_ROTATIONS (Z.min PMLOG_MAX_NUM_ROTATIONS (po_Rotations po)))
  /\ (is_uninit H (po_Rotations po) = false ->
      PMLOG_MIN_NUM_ROTATIONS <= po_Rotations po' <= PMLOG_MAX_NUM_ROTATIONS).
Proof.
  intros Hm. destruct (MakeOutputConf_limits H _ _ _ _ Hm) as (Hn & Hf & Hs & Hr).
  split; [exact Hn|]. split; [exact Hf|]. split; [exact Hs|]. split.
  - rewrite Hs. unfold PMLOG_MIN_LOG_SIZE, PMLOG_MAX_LOG_SIZE, PMLOG_DEFAULT_LOG_SIZE.
    destruct (is_uninit H (po_MaxSize po)); lia.
  - split; [exact Hr|]. intros Hu. rewrite Hr, Hu.
    unfold PMLOG_MIN_NUM_ROTATIONS, PMLOG_MAX_NUM_ROTATIONS. lia.
Qed.

Lemma MakeOutputConf_clamps_witness :
  exists po' st',
    MakeOutputConf (spec_main_h (-1)) empty_conf
      {| po_name := cs "stdlog"; po_File := cs "/var/log/messages";
         po_MaxSize := 100; po_Rotations := 12 |} = (true, po', st')
    /\ po_MaxSize po' = 4096 /\ po_Rotations po' = 9
    /\ map maxSize (g_outputConfs st') = [0].
Proof.
  eexists. eexists. split; [reflexivity|].
  destruct (MakeOutputConf_clamps (spec_main_h (-1)) empty_conf _
              {| po_name := cs "stdlog"; po_File := cs "/var/log/messages";
                 po_MaxSize := 100; po_Rotations := 12 |} _ eq_refl)
    as (_ & _ & Hs & _ & Hr & _).
  split; [exact Hs|]. split; [exact Hr|reflexivity].
Defined.

(** X26.  The names in the tables fit the name arrays of the parse
    structures: when every output name has at most
    [PMLOG_OUTPUT_MAX_NAME_LENGTH] characters and every key of the tree of
    contexts at most [PMLOG_MAX_CONTEXT_NAME_LEN] before [ReadConfFile],
    it is so when [ReadConfFile] returns, however long the group names of
    the file are. *)
Theorem names_fit_name_arrays (H : main_h) (file : option GKeyFile) (st st' : conf)
  (b : bool) :
  names_fit H st -> ReadConfFile H file st = Returns (b, st') -> names_fit H st'.
Proof.
  intros HP. destruct file as [kf|].
  - intros E. destruct (ReadConfFile_Returns_inv H kf st st' b E) as (l & El & _).
    exact (groups_loop_names_fit H kf _ _ _ _ _ HP El).
  - cbn [ReadConfFile]. intros [= <- <-]. exact HP.
Qed.

Lemma names_fit_name_arrays_witness :
  exists b st',
    ReadConfFile (spec_main_h (-1)) (Some file_same_names) empty_conf = Returns (b, st')
    /\ names_fit (spec_main_h (-1)) empty_conf
    /\ names_fit (spec_main_h (-1)) st'.
Proof.
  assert (He : names_fit (spec_main_h (-1)) empty_conf).
  { split; [intros n []|intros t k [= <-] []]. }
  destruct (ReadConfFile (spec_main_h (-1)) (Some file_same_names) empty_conf)
    as [[b st']|] eqn:E; [|vm_compute in E; discriminate E].
  exists b, st'. split; [reflexivity|]. split; [exact He|].
  exact (names_fit_name_arrays (spec_main_h (-1)) (Some file_same_names) empty_conf
           st' b He E).
Defined.

(** X27.  [ReadConfFile] returns, whatever the file holds besides, when
    every [OUTPUT=] section of the file has a Rotations key that reads as
    an integer: no error is then freed twice. *)
Theorem ReadConfFile_returns_with_Rotations (H : main_h) (kf : GKeyFile) (st : conf) :
  Rotations_readable kf ->
  exists b st', ReadConfFile H (Some kf) st = Returns (b, st').
Proof. apply ReadConfFile_returns. Qed.

Lemma ReadConfFile_returns_with_Rotations_witness :
  exists b st',
    ReadConfFile (spec_main_h (-1)) (Some file_bad_rule_then_more) empty_conf
    = Returns (b, st').
Proof.
  apply (ReadConfFile_returns_with_Rotations (spec_main_h (-1)) file_bad_rule_then_more
           empty_conf).
  intros g Hin Hp. vm_compute in Hin.
  repeat (destruct Hin as [<-|Hin]; [first [discriminate Hp|intros E; discriminate E]|]).
  destruct Hin.
Defined.



(** X29.  [ReadConfFile] hands the BufferSize and the FlushLevel of a
    [CONTEXT=] section to [RBNew] as they are read, without a check of its
    own: for a section that is read with [gerror] NULL and a tree of
    contexts in place, the context is stored with what the call of [RBNew]
    returned for the [int] that [ParseSize] yields for the BufferSize
    value, a negative one included (0 when the key is missing or its value
    does not parse), and for the level of the FlushLevel value (-1 when it
    has none, 0 when the key is missing); [retVal] is true afterwards only
    when both values parse. *)
Theorem RBNew_called_unchecked (H : main_h) (kf : GKeyFile) (g : cstring) (l : locals)
  (st : conf) (t : GTree PmLogContextConf_t) :
  g_str_has_prefix g (cs "CONTEXT=") = true ->
  g_contextConfs st = Some t ->
  gerror l = false ->
  exists l' st' c,
    groups_loop H kf [g] l st = Returns (l', st')
    /\ g_tree_lookup (g_contextConfs st')
         (pc_name (snd (ParseContextInit H st (skipn 8 g)))) = Some c
    /\ rb c = RBNew (group_bufferSize kf g) (group_flushLevel H kf g)
    /\ (retVal l' = true -> group_buffer_ok H kf g = true).
Proof. apply context_group_rb. Qed.

Lemma RBNew_called_unchecked_witness :
  exists l' st' c,
    groups_loop (spec_main_h (-1)) file_negative_BufferSize [cs "CONTEXT=<global>"]
      {| retVal := true; gerror := false |} (conf_stdlog (-1)) = Returns (l', st')
    /\ g_tree_lookup (g_contextConfs st') (cs "<global>") = Some c
    /\ rb c = RBNew (-1) 4.
Proof.
  destruct (RBNew_called_unchecked (spec_main_h (-1)) file_negative_BufferSize
              (cs "CONTEXT=<global>") {| retVal := true; gerror := false |}
              (conf_stdlog (-1)) [] eq_refl eq_refl eq_refl)
    as (l' & st' & c & E & Hc & Hrb & _).
  exists l', st', c. split; [exact E|]. split; [exact Hc|exact Hrb].
Defined.
